(** * Entity selectors of angular-ngrx-data

    A shallow embedding of [EntitySelectorsFactory]
    (lib/src/selectors/entity-selectors.ts) and of the memoizing
    [createSelector] of the store library it is built on.

    JavaScript values that have an identity (objects and arrays) live in a
    heap and are named by their address; the [lastArguments]/[lastResult]
    variables closed over by a memoized function are cells of a store.
    A selector is a function from a value to a computation over that
    world. *)

From stdpp Require Import base list strings gmap pretty.
From Stdlib Require Import ZArith Lia.

Set Default Proof Using "Type".
Open Scope Z_scope.
Open Scope nat_scope.
Open Scope string_scope.
Open Scope list_scope.

(** ** Values and the heap *)

Inductive val : Type :=
  | VUndefined
  | VNull
  | VBool (b : bool)
  | VNum (n : Z)
  | VStr (s : string)
  | VRef (a : nat)
  | VNative (name : string).  (* what [Object.prototype] holds under [name] *)

#[global] Instance val_eq_dec : EqDecision val.
Proof. solve_decision. Defined.

(** An object is a plain object, given by its list of own properties in
    property order; what it does not hold itself it inherits from
    [Object.prototype].  An array is its list of elements. *)
Inductive obj : Type :=
  | OObj (props : list (string * val))
  | OArr (elems : list val).

Inductive error : Type :=
  | TypeError      (* the exception JavaScript throws *)
  | Unmodelled.    (* an input outside the embedding: a dangling address,
                      a property of a boxed primitive, an array index read *)

Inductive result (A : Type) : Type :=
  | Ok (a : A)
  | Err (e : error).
Arguments Ok {A} a.
Arguments Err {A} e.

(** What a memoized function remembers, and what the call counters see. *)
Inductive event : Type :=
  | EvCreate (name : val) (res : val)       (* entityCollectionCreator.create *)
  | EvProject (cell : nat) (args : list val). (* a projector really ran *)

Record world : Type := World {
  heap : list obj;
  cells : gmap nat (list val * val);
  next_cell : nat;
  calls : list event
}.

Definition M (A : Type) : Type := world -> result A * world.

Definition ret {A} (a : A) : M A := fun w => (Ok a, w).
Definition throw {A} (e : error) : M A := fun w => (Err e, w).
Definition bind {A B} (m : M A) (k : A -> M B) : M B :=
  fun w => match m w with
           | (Ok a, w1) => k a w1
           | (Err e, w1) => (Err e, w1)
           end.

Declare Scope js_scope.
Delimit Scope js_scope with js.
Notation "x <- m ;; k" := (bind m (fun x => k))
  (at level 100, m at next level, right associativity) : js_scope.
Notation "m ;;; k" := (bind m (fun _ => k))
  (at level 100, right associativity) : js_scope.
Open Scope js_scope.

Fixpoint mapM {A B} (f : A -> M B) (l : list A) : M (list B) :=
  match l with
  | [] => ret []
  | x :: l' => y <- f x ;; ys <- mapM f l' ;; ret (y :: ys)
  end.

Fixpoint foldM {A B} (f : B -> A -> M B) (acc : B) (l : list A) : M B :=
  match l with
  | [] => ret acc
  | x :: l' => acc' <- f acc x ;; foldM f acc' l'
  end.

Definition lift {A} (r : result A) : M A := fun w => (r, w).
Definition read {A} (f : list obj -> result A) : M A := fun w => (f (heap w), w).

Definition alloc (o : obj) : M val :=
  fun w => (Ok (VRef (length (heap w))),
            World (heap w ++ [o]) (cells w) (next_cell w) (calls w)).

(** A call into foreign code that only sees the heap. *)
Definition call_heap (f : list obj -> val * list obj) : M val :=
  fun w => let '(v, h) := f (heap w) in
           (Ok v, World h (cells w) (next_cell w) (calls w)).

Definition tick (e : event) : M unit :=
  fun w => (Ok tt, World (heap w) (cells w) (next_cell w) (e :: calls w)).

(** [let lastArguments = null; let lastResult = null] of a new closure. *)
Definition new_cell : M nat :=
  fun w => (Ok (next_cell w),
            World (heap w) (delete (next_cell w) (cells w)) (S (next_cell w)) (calls w)).

Definition get_cell (c : nat) : M (option (list val * val)) :=
  fun w => (Ok (cells w !! c), w).

Definition set_cell (c : nat) (args : list val) (res : val) : M unit :=
  fun w => (Ok tt, World (heap w) (<[c := (args, res)]> (cells w)) (next_cell w) (calls w)).

(** ** JavaScript primitives used by the source *)

(** [a === b] *)
Definition strict_eq (a b : val) : bool := bool_decide (a = b).

(** ToBoolean *)
Definition truthy (v : val) : bool :=
  match v with
  | VUndefined | VNull => false
  | VBool b => b
  | VNum n => negb (n =? 0)%Z
  | VStr s => negb (String.eqb s "")
  | VRef _ => true
  | VNative _ => true
  end.

(** ToPropertyKey on primitives (numbers are integers here). *)
Definition to_key (v : val) : result string :=
  match v with
  | VUndefined => Ok "undefined"
  | VNull => Ok "null"
  | VBool true => Ok "true"
  | VBool false => Ok "false"
  | VNum n => Ok (pretty n)
  | VStr s => Ok s
  | VRef _ => Err Unmodelled
  | VNative _ => Err Unmodelled
  end.

Fixpoint assoc {A} (k : string) (ps : list (string * A)) : option A :=
  match ps with
  | [] => None
  | (k', v) :: ps' => if String.eqb k k' then Some v else assoc k ps'
  end.

(** [o[k] = v] on an object given by its property list: an existing
    property keeps its place, a new one goes last. *)
Fixpoint obj_set {A} (k : string) (v : A) (ps : list (string * A)) : list (string * A) :=
  match ps with
  | [] => [(k, v)]
  | (k', v') :: ps' =>
      if String.eqb k k' then (k, v) :: ps' else (k', v') :: obj_set k v ps'
  end.

(** [{...a, ...b}] *)
Definition spread {A} (a b : list (string * A)) : list (string * A) :=
  fold_left (fun acc kv => obj_set (fst kv) (snd kv) acc) b a.

Definition Object_keys {A} (ps : list (string * A)) : list string := map fst ps.

(** The names of the properties of [Object.prototype]. *)
Definition inherited (k : string) : bool :=
  bool_decide (k ∈ ["constructor"; "hasOwnProperty"; "isPrototypeOf";
                    "propertyIsEnumerable"; "toLocaleString"; "toString";
                    "valueOf"; "__proto__"; "__defineGetter__";
                    "__defineSetter__"; "__lookupGetter__"; "__lookupSetter__"]).

(** [o[k]] on a plain object given by its property list: the own property,
    else the inherited one, else [undefined]. *)
Definition lookup_prop (k : string) (ps : list (string * val)) : val :=
  match assoc k ps with
  | Some v => v
  | None => if inherited k then VNative k else VUndefined
  end.

(** [v[k]] for a string key. *)
Definition get_prop (h : list obj) (v : val) (k : string) : result val :=
  match v with
  | VUndefined | VNull => Err TypeError
  | VRef a =>
      match h !! a with
      | Some (OObj ps) => Ok (lookup_prop k ps)
      | Some (OArr es) =>
          if String.eqb k "length" then Ok (VNum (Z.of_nat (length es)))
          else Err Unmodelled
      | None => Err Unmodelled
      end
  | _ => Err Unmodelled
  end.

(** [v[key]] for a key that is a value. *)
Definition get_elem (h : list obj) (v key : val) : result val :=
  match v with
  | VUndefined | VNull => Err TypeError
  | _ => match to_key key with
         | Ok k => get_prop h v k
         | Err e => Err e
         end
  end.

(** The elements [arr.map] iterates over; calling [map] on anything that is
    not an array throws. *)
Definition array_elems (h : list obj) (arr : val) : result (list val) :=
  match arr with
  | VRef a =>
      match h !! a with
      | Some (OArr es) => Ok es
      | Some (OObj _) => Err TypeError
      | None => Err Unmodelled
      end
  | _ => Err TypeError
  end.

(** [arr.map(f)] *)
Definition array_map (f : val -> M val) (arr : val) : M val :=
  es <- read (fun h => array_elems h arr) ;;
  vs <- mapM f es ;;
  alloc (OArr vs).

Definition upper_ascii (c : Ascii.ascii) : Ascii.ascii :=
  let n := Ascii.nat_of_ascii c in
  if ((97 <=? n)%nat && (n <=? 122)%nat)%bool then Ascii.ascii_of_nat (n - 32)%nat else c.

(** ['select' + k[0].toUpperCase() + k.slice(1)]; [k[0]] of the empty string
    is [undefined], whose [toUpperCase] throws. Strings are ASCII. *)
Definition selector_name (k : string) : result string :=
  match k with
  | EmptyString => Err TypeError
  | String c rest => Ok ("select" +:+ String (upper_ascii c) rest)
  end.

(** ** The store library: memoized selectors *)

Definition selector : Type := val -> M val.

(** [arguments[i] !== lastArguments[i]] for some [i < arguments.length];
    reading past the end of [lastArguments] gives [undefined]. *)
Fixpoint args_changed (args last : list val) : bool :=
  match args with
  | [] => false
  | a :: args' =>
      negb (strict_eq a (hd VUndefined last)) || args_changed args' (tl last)
  end.

(** Modelled from the spec: the memoization primitive of the store library
    ([memoize] of @ngrx/store), which is not part of this repository.  A
    derivation "caches its last input/output pair and recomputes only when
    the referential identity of any input changes". *)
Definition memoize (c : nat) (t : list val -> M val) (args : list val) : M val :=
  last <- get_cell c ;;
  match last with
  | Some (lastArguments, lastResult) =>
      if args_changed args lastArguments
      then r <- t args ;; set_cell c args r ;;; ret r
      else ret lastResult
  | None => r <- t args ;; set_cell c args r ;;; ret r
  end.

(** The function [createSelector] returns: the memoized function of the
    state, which runs the input selectors and hands their results to the
    memoized projector.  The projector's own cell is [cp]; every run of the
    projector itself is counted. *)
Definition memoized_selector (cs cp : nat) (inputs : list selector)
    (projector : list val -> M val) : selector :=
  fun state =>
    memoize cs
      (fun st =>
         let state := hd VUndefined st in
         args <- mapM (fun fn : selector => fn state) inputs ;;
         memoize cp (fun a => tick (EvProject cp a) ;;; projector a) args)
      [state].

(** Modelled from the spec: [createSelector(...inputs, projector)] of the
    store library ("a derivation holds its last input identities and last
    output; on invocation, compare current input identities (shallow) to
    cached ones, and only recompute on mismatch"), with the two levels of
    §4.3 and §4.4: one cell for the projector's arguments, one for the
    state. *)
Definition createSelector (inputs : list selector)
    (projector : list val -> M val) : M selector :=
  cp <- new_cell ;;
  cs <- new_cell ;;
  ret (memoized_selector cs cp inputs projector).

(** A plain function of one argument reading a property: [x => x[k]]. *)
Definition field (k : string) : selector :=
  fun x => read (fun h => get_prop h x k).

(** Modelled from the spec: [createFeatureSelector(featureName)] of the
    store library: the memoized read of the named sub-tree of the global
    state. *)
Definition createFeatureSelector (featureName : string) : M selector :=
  createSelector [field featureName] (fun a => ret (hd VUndefined a)).

(** ** Collaborators *)

(** Modelled from the spec: the Collection Creator
    ([EntityCollectionCreator], whose code is missing): [create(typeName)]
    never fails and synthesizes a collection; it does not write to objects
    that exist already. *)
Record Creator : Type := {
  creator_create : val -> list obj -> val * list obj;
  creator_mono : forall n h, h `prefix_of` (creator_create n h).2
}.

(** Modelled from the spec: a filter predicate
    [(entities, pattern) => entities'] supplied by the configuration:
    "pure, no side effects". *)
Record FilterFn : Type := {
  filter_run : val -> val -> list obj -> val * list obj;
  filter_mono : forall es p h, h `prefix_of` (filter_run es p h).2
}.

(** [Partial<EntityMetadata<T>>], the fields the factory reads.
    [additionalCollectionState] is the object literal given by its
    properties in [Object.keys] order. *)
Record EntityMetadata : Type := {
  entityName : val;
  filterFn : option FilterFn;
  additionalCollectionState : option (list (string * val))
}.

(** ** EntitySelectorsFactory *)

Record EntitySelectorsFactory : Type := {
  selectEntityCache : selector;
  entityCollectionCreator : Creator
}.

Definition constructor (cacheName : string) (creator : Creator)
    : M EntitySelectorsFactory :=
  sel <- createFeatureSelector cacheName ;;
  ret {| selectEntityCache := sel; entityCollectionCreator := creator |}.

(** [(cache = {}) => cache[entityName] || this.entityCollectionCreator.create(entityName)] *)
Definition getCollection (this : EntitySelectorsFactory) (entityName : val)
    (cache0 : val) : M val :=
  cache <- match cache0 with
           | VUndefined => alloc (OObj [])
           | _ => ret cache0
           end ;;
  stored <- read (fun h => get_elem h cache entityName) ;;
  if truthy stored then ret stored
  else
    c <- call_heap (creator_create (entityCollectionCreator this) entityName) ;;
    tick (EvCreate entityName c) ;;;
    ret c.

Definition createCollectionSelector (this : EntitySelectorsFactory)
    (entityName : val) : M selector :=
  createSelector [selectEntityCache this]
    (fun a => getCollection this entityName (hd VUndefined a)).

(** [(keys, entities) => keys.map(key => entities[key])] *)
Definition project_entities (a : list val) : M val :=
  let keys := nth 0 a VUndefined in
  let entities := nth 1 a VUndefined in
  array_map (fun key => read (fun h => get_elem h entities key)) keys.

(** [keys => keys.length] *)
Definition project_count (a : list val) : M val :=
  read (fun h => get_prop h (nth 0 a VUndefined) "length").

(** [(entities, pattern) => filterFn(entities, pattern)] *)
Definition project_filtered (f : FilterFn) (a : list val) : M val :=
  call_heap (filter_run f (nth 0 a VUndefined) (nth 1 a VUndefined)).

(** The body of the [forEach] over [Object.keys(extra)]. *)
Definition add_extra (acc : list (string * selector)) (k : string)
    : M (list (string * selector)) :=
  name <- lift (selector_name k) ;;
  ret (obj_set name (field k) acc).

Definition createCollectionSelectors (metadata : EntityMetadata)
    : M (list (string * selector)) :=
  let selectKeys := field "ids" in
  let selectEntityMap := field "entities" in
  selectEntities <- createSelector [selectKeys; selectEntityMap] project_entities ;;
  selectCount <- createSelector [selectKeys] project_count ;;
  let selectFilter := field "filter" in
  selectFilteredEntities <-
    match filterFn metadata with
    | Some f => createSelector [selectEntities; selectFilter] (project_filtered f)
    | None => ret selectEntities
    end ;;
  let selectLoaded := field "loaded" in
  let selectLoading := field "loading" in
  let selectOriginalValues := field "originalValues" in
  let extra := default [] (additionalCollectionState metadata) in
  extraSelectors <- foldM add_extra [] (Object_keys extra) ;;
  ret (spread
         [("selectCount", selectCount);
          ("selectEntities", selectEntities);
          ("selectEntityMap", selectEntityMap);
          ("selectFilter", selectFilter);
          ("selectFilteredEntities", selectFilteredEntities);
          ("selectKeys", selectKeys);
          ("selectLoaded", selectLoaded);
          ("selectLoading", selectLoading);
          ("selectOriginalValues", selectOriginalValues)]
         extraSelectors).

(** A member of the object [create] returns: the name, or a selector. *)
Inductive entry : Type :=
  | EVal (v : val)
  | ESel (s : selector).

(** A selector used as projector is applied to the first argument; calling
    [undefined] throws. *)
Definition as_projector (o : option selector) (a : list val) : M val :=
  match o with
  | Some s => s (hd VUndefined a)
  | None => throw TypeError
  end.

(** The body of the [forEach] over [Object.keys(collectionSelectors)]. *)
Definition add_root (selectCollection : selector)
    (collectionSelectors : list (string * selector))
    (acc : list (string * selector)) (k : string)
    : M (list (string * selector)) :=
  s <- createSelector [selectCollection] (as_projector (assoc k collectionSelectors)) ;;
  ret (obj_set k s acc).

Definition create (this : EntitySelectorsFactory) (metadata : EntityMetadata)
    : M (list (string * entry)) :=
  let entityName := entityName metadata in
  selectCollection <- createCollectionSelector this entityName ;;
  collectionSelectors <- createCollectionSelectors metadata ;;
  entitySelectors <-
    foldM (add_root selectCollection collectionSelectors) []
      (Object_keys collectionSelectors) ;;
  ret (spread
         [("entityName", EVal entityName);
          ("selectCollection", ESel selectCollection)]
         (map (fun kv => (fst kv, ESel (snd kv))) entitySelectors)).

(** * The vocabulary of the specifications *)

(** ** How a world evolves over a run

    Objects are never written after their allocation, so the heap only
    grows at its end; the call log only grows at its head.  A footprint [F]
    bounds the cells written and the projectors counted. *)

Definition event_in (F : nat -> Prop) (e : event) : Prop :=
  match e with
  | EvProject c _ => F c
  | EvCreate _ _ => True
  end.

Record evolves (F : nat -> Prop) (w w' : world) : Prop := Evolves {
  ev_heap : heap w `prefix_of` heap w';
  ev_calls : exists new, calls w' = new ++ calls w /\ Forall (event_in F) new;
  ev_next : next_cell w' = next_cell w;
  ev_cells : forall c, ~ F c -> cells w' !! c = cells w !! c
}.

(** ** Relations between an input and an output, read off the heap and the
    call log, and stable as both grow *)

Definition rel (A B : Type) : Type := list obj -> list event -> A -> B -> Prop.

Definition stable {A B} (R : rel A B) : Prop :=
  forall h l h' l' a b,
    h `prefix_of` h' -> l `suffix_of` l' -> R h l a b -> R h' l' a b.

(** An invariant that only reads cells, heap and log, and survives the
    growth of heap and log. *)
Definition env_stable (Inv : world -> Prop) : Prop :=
  forall w w', Inv w -> heap w `prefix_of` heap w' ->
               calls w `suffix_of` calls w' -> cells w' = cells w -> Inv w'.

(** The relation of a memoized selector: the inputs' relations, then the
    projector's. *)
Definition rel_inputs (Rins : list (rel val val)) : rel val (list val) :=
  fun h l s args => Forall2 (fun (R : rel val val) a => R h l s a) Rins args.

Definition rel_memo (Rins : list (rel val val)) (Rp : rel (list val) val)
    : rel val val :=
  fun h l s v => exists args, rel_inputs Rins h l s args /\ Rp h l args v.

(** What the two cells of one memoized selector hold between calls: the
    projector's cell holds a result of the projector; the state's cell holds
    the same result, for a state whose inputs gave the arguments in the
    projector's cell. *)
Definition pair_inv (cs cp : nat) (Rins : list (rel val val))
    (Rp : rel (list val) val) (w : world) : Prop :=
  (forall args r, cells w !! cp = Some (args, r) ->
     length args = length Rins /\ Rp (heap w) (calls w) args r) /\
  (forall a r, cells w !! cs = Some (a, r) ->
     exists s args, a = [s] /\ cells w !! cp = Some (args, r) /\
                    rel_inputs Rins (heap w) (calls w) s args).

Definition triple {A} (F : nat -> Prop) (Inv : world -> Prop) (m : M A)
    (Q : A -> world -> Prop) : Prop :=
  forall w r w', Inv w -> m w = (r, w') ->
    evolves F w w' /\ Inv w' /\ forall v, r = Ok v -> Q v w'.

(** The same with a precondition on the world the run starts in. *)
Definition triple_pre {A} (F : nat -> Prop) (Inv Pre : world -> Prop) (m : M A)
    (Q : A -> world -> Prop) : Prop :=
  forall w r w', Inv w -> Pre w -> m w = (r, w') ->
    evolves F w w' /\ Inv w' /\ forall v, r = Ok v -> Q v w'.

Definition returns {A} (m : M A) (w : world) : Prop :=
  exists v w', m w = (Ok v, w').

(** ** The rule of a memoized selector *)

Definition store (c : nat) (args : list val) (r : val) (w : world) : world :=
  World (heap w) (<[c := (args, r)]> (cells w)) (next_cell w) (calls w).

Definition recompute (c : nat) (t : list val -> M val) (args : list val)
    (w : world) : result val * world :=
  match t args w with
  | (Ok r, w1) => (Ok r, store c args r w1)
  | (Err e, w1) => (Err e, w1)
  end.

(** ** Invariants given by a set of memoized selectors *)

Record pspec : Type := PSpec {
  ps_cs : nat;                      (* the cell of the state *)
  ps_cp : nat;                      (* the cell of the projector *)
  ps_Rins : list (rel val val);     (* what the inputs compute *)
  ps_Rp : rel (list val) val        (* what the projector computes *)
}.

Definition ps_has (p : pspec) (c : nat) : Prop := c = ps_cs p \/ c = ps_cp p.

Definition ps_inv (p : pspec) : world -> Prop :=
  pair_inv (ps_cs p) (ps_cp p) (ps_Rins p) (ps_Rp p).

Definition inv_of (Spec : pspec -> Prop) (w : world) : Prop :=
  forall p, Spec p -> ps_inv p w.

Record wf_spec (Spec : pspec -> Prop) : Prop := WfSpec {
  wf_ne : forall p, Spec p -> ps_cs p <> ps_cp p;
  wf_stable_in : forall p, Spec p -> Forall stable (ps_Rins p);
  wf_stable_p : forall p, Spec p -> stable (ps_Rp p);
  wf_disj : forall p q c, Spec p -> Spec q -> ps_has p c -> ps_has q c -> p = q
}.

(** ** What the plain functions of the factory compute *)

Fixpoint map_result {A B} (f : A -> result B) (l : list A) : result (list B) :=
  match l with
  | [] => Ok []
  | x :: l' =>
      match f x with
      | Ok y => match map_result f l' with
                | Ok ys => Ok (y :: ys)
                | Err e => Err e
                end
      | Err e => Err e
      end
  end.

(** [c => c[k]] *)
Definition rel_field (k : string) : rel val val :=
  fun h _ c v => get_prop h c k = Ok v.

(** [featureState => featureState] *)
Definition rel_identity : rel (list val) val :=
  fun _ _ a v => v = hd VUndefined a.

(** A selector used as projector. *)
Definition rel_apply (R : rel val val) : rel (list val) val :=
  fun h l a v => R h l (hd VUndefined a) v.

(** [(keys, entities) => keys.map(key => entities[key])]: the result is an
    array holding, for each key in order, the entity under that key. *)
Definition rel_entities : rel (list val) val :=
  fun h _ a r =>
    exists keys vals ra,
      array_elems h (nth 0 a VUndefined) = Ok keys /\
      map_result (get_elem h (nth 1 a VUndefined)) keys = Ok vals /\
      r = VRef ra /\ h !! ra = Some (OArr vals).

(** [keys => keys.length] *)
Definition rel_count : rel (list val) val :=
  fun h _ a r => get_prop h (nth 0 a VUndefined) "length" = Ok r.

(** [(entities, pattern) => filterFn(entities, pattern)]: the result of a
    call of the predicate on these arguments, in a heap that held the array
    of entities. *)
Definition rel_filtered (f : FilterFn) : rel (list val) val :=
  fun h _ a r =>
    exists h1 ra vals, h1 `prefix_of` h /\
      nth 0 a VUndefined = VRef ra /\ h1 !! ra = Some (OArr vals) /\
      (filter_run f (nth 0 a VUndefined) (nth 1 a VUndefined) h1).1 = r /\
      (filter_run f (nth 0 a VUndefined) (nth 1 a VUndefined) h1).2 `prefix_of` h.

(** [cache[entityName]], where [cache] defaults to a new empty object. *)
Definition stored_in (h : list obj) (cache name : val) : result val :=
  match cache with
  | VUndefined => match to_key name with
                  | Ok k => Ok (lookup_prop k [])
                  | Err e => Err e
                  end
  | _ => get_elem h cache name
  end.

(** [getCollection]: what is stored when that is truthy, else a result of
    the Collection Creator for this name. *)
Definition rel_collection (name : val) : rel (list val) val :=
  fun h l a r =>
    exists st, stored_in h (hd VUndefined a) name = Ok st /\
      if truthy st then r = st else EvCreate name r ∈ l.

Ltac env_same :=
  split; [done|]; split; [by exists []|]; split; [done|]; split; [done|].

(** ** Objects as property lists *)

Definition map_vals {A B} (f : A -> B) (ps : list (string * A)) : list (string * B) :=
  map (fun kv => (fst kv, f (snd kv))) ps.

(** * The selectors the factory builds *)

(** ** What a build does to the world: it takes [k] new, empty cells. *)
Record built (k : nat) (w w' : world) : Prop := Built {
  bu_heap : heap w' = heap w;
  bu_calls : calls w' = calls w;
  bu_next : next_cell w' = k + next_cell w;
  bu_new : forall c, next_cell w <= c < k + next_cell w -> cells w' !! c = None;
  bu_old : forall c, c < next_cell w \/ k + next_cell w <= c ->
                     cells w' !! c = cells w !! c
}.

(** ** The member derivations *)

Definition sel_entities (e0 : nat) : selector :=
  memoized_selector (1 + e0) e0 [field "ids"; field "entities"] project_entities.

Definition sel_count (e0 : nat) : selector :=
  memoized_selector (3 + e0) (2 + e0) [field "ids"] project_count.

Definition sel_filtered (e0 : nat) (f : FilterFn) : selector :=
  memoized_selector (5 + e0) (4 + e0) [sel_entities e0; field "filter"]
    (project_filtered f).

Definition rel_selectEntities : rel val val :=
  rel_memo [rel_field "ids"; rel_field "entities"] rel_entities.

Definition rel_selectCount : rel val val :=
  rel_memo [rel_field "ids"] rel_count.

Definition rel_selectFiltered (f : FilterFn) : rel val val :=
  rel_memo [rel_selectEntities; rel_field "filter"] (rel_filtered f).

Definition member_size (md : EntityMetadata) : nat :=
  match filterFn md with Some _ => 6 | None => 4 end.

(** A member derivation with the relation it computes. *)
Abbreviation spec_sel := (selector * rel val val)%type.

Definition spec_field (k : string) : spec_sel := (field k, rel_field k).

Definition member_builtin (e0 : nat) (md : EntityMetadata)
    : list (string * spec_sel) :=
  [("selectCount", (sel_count e0, rel_selectCount));
   ("selectEntities", (sel_entities e0, rel_selectEntities));
   ("selectEntityMap", spec_field "entities");
   ("selectFilter", spec_field "filter");
   ("selectFilteredEntities",
      match filterFn md with
      | Some f => (sel_filtered e0 f, rel_selectFiltered f)
      | None => (sel_entities e0, rel_selectEntities)
      end);
   ("selectKeys", spec_field "ids");
   ("selectLoaded", spec_field "loaded");
   ("selectLoading", spec_field "loading");
   ("selectOriginalValues", spec_field "originalValues")].

(** The [forEach] over the declared fields, as a function. *)
Fixpoint extra_specs (keys : list string) (acc : list (string * spec_sel))
    : result (list (string * spec_sel)) :=
  match keys with
  | [] => Ok acc
  | k :: keys' =>
      match selector_name k with
      | Ok name => extra_specs keys' (obj_set name (spec_field k) acc)
      | Err e => Err e
      end
  end.

Definition extra_keys (md : EntityMetadata) : list string :=
  Object_keys (default [] (additionalCollectionState md)).

Definition member_specs (e0 : nat) (md : EntityMetadata)
    : result (list (string * spec_sel)) :=
  match extra_specs (extra_keys md) [] with
  | Ok ex => Ok (spread (member_builtin e0 md) ex)
  | Err e => Err e
  end.

Definition result_map {A B} (f : A -> B) (r : result A) : result B :=
  match r with
  | Ok a => Ok (f a)
  | Err e => Err e
  end.

(** The invariant of the member derivations' cells. *)
Definition ps_entities (e0 : nat) : pspec :=
  PSpec (1 + e0) e0 [rel_field "ids"; rel_field "entities"] rel_entities.

Definition ps_count (e0 : nat) : pspec :=
  PSpec (3 + e0) (2 + e0) [rel_field "ids"] rel_count.

Definition ps_filtered (e0 : nat) (f : FilterFn) : pspec :=
  PSpec (5 + e0) (4 + e0) [rel_selectEntities; rel_field "filter"]
        (rel_filtered f).

Definition member_Spec (e0 : nat) (md : EntityMetadata) (p : pspec) : Prop :=
  p = ps_entities e0 \/ p = ps_count e0 \/
  exists f, filterFn md = Some f /\ p = ps_filtered e0 f.

Definition member_inv (e0 : nat) (md : EntityMetadata) : world -> Prop :=
  inv_of (member_Spec e0 md).

Definition fp_member (e0 : nat) (md : EntityMetadata) (c : nat) : Prop :=
  e0 <= c < member_size md + e0.

(** A member derivation computes its relation and keeps the invariant. *)
Definition good_member (F : nat -> Prop) (Inv : world -> Prop) (ss : spec_sel)
    : Prop :=
  stable (snd ss) /\
  forall c, triple F Inv (fst ss c) (fun v w => snd ss (heap w) (calls w) c v).

Ltac each_input :=
  simpl; repeat (first [apply List.Forall2_nil | apply List.Forall2_cons
                       | apply List.Forall_nil | apply List.Forall_cons]).

(** ** Well-formed collections *)

Definition is_key (v : val) : bool :=
  match v with
  | VNum _ | VStr _ => true
  | _ => false
  end.

(** What a dictionary gives under a key: [entities[key]]. *)
Definition entity_at (em : list (string * val)) (k : val) : val :=
  match to_key k with
  | Ok s => lookup_prop s em
  | Err _ => VUndefined
  end.

(** A collection as the factory reads it: an object whose [ids] is an
    array of numbers and strings and whose [entities] is an object. *)
Definition collection_view (h : list obj) (c : val)
    : option (nat * nat * list val * list (string * val)) :=
  match c with
  | VRef a =>
      match h !! a with
      | Some (OObj ps) =>
          match assoc "ids" ps, assoc "entities" ps with
          | Some (VRef i), Some (VRef e) =>
              match h !! i, h !! e with
              | Some (OArr keys), Some (OObj em) =>
                  if forallb is_key keys then Some (i, e, keys, em) else None
              | _, _ => None
              end
          | _, _ => None
          end
      | _ => None
      end
  | _ => None
  end.

(** ** The names in the returned object *)

(** Does the declared field [k] get the name [name]? *)
Definition derives (k name : string) : bool :=
  match selector_name k with
  | Ok n => String.eqb n name
  | Err _ => false
  end.

(** The declared field whose accessor ends up under [name]: the last one,
    in [Object.keys] order, that derives it. *)
Fixpoint declared_for (name : string) (keys : list string) : option string :=
  match keys with
  | [] => None
  | k :: keys' =>
      match declared_for name keys' with
      | Some k' => Some k'
      | None => if derives k name then Some k else None
      end
  end.

(** The names of the object literal of lines 174-184, in its order. *)
Definition builtin_names : list string :=
  ["selectCount"; "selectEntities"; "selectEntityMap"; "selectFilter";
   "selectFilteredEntities"; "selectKeys"; "selectLoaded"; "selectLoading";
   "selectOriginalValues"].

(** * The collection accessor *)

Definition identity_projector (a : list val) : M val := ret (hd VUndefined a).

Definition mk_factory (f0 : nat) (cacheName : string) (creator : Creator)
    : EntitySelectorsFactory :=
  {| selectEntityCache :=
       memoized_selector (1 + f0) f0 [field cacheName] identity_projector;
     entityCollectionCreator := creator |}.

Definition sel_collection (this : EntitySelectorsFactory) (a0 : nat)
    (name : val) : selector :=
  memoized_selector (1 + a0) a0 [selectEntityCache this]
    (fun a => getCollection this name (hd VUndefined a)).

Definition ps_feature (f0 : nat) (cacheName : string) : pspec :=
  PSpec (1 + f0) f0 [rel_field cacheName] rel_identity.

Definition rel_cache (cacheName : string) : rel val val :=
  rel_memo [rel_field cacheName] rel_identity.

Definition ps_accessor (a0 : nat) (cacheName : string) (name : val) : pspec :=
  PSpec (1 + a0) a0 [rel_cache cacheName] (rel_collection name).

Definition rel_accessor (cacheName : string) (name : val) : rel val val :=
  rel_memo [rel_cache cacheName] (rel_collection name).

Definition accessor_Spec (f0 a0 : nat) (cacheName : string) (name : val)
    (p : pspec) : Prop :=
  p = ps_feature f0 cacheName \/ p = ps_accessor a0 cacheName name.

Definition accessor_inv (f0 a0 : nat) (cacheName : string) (name : val)
    : world -> Prop :=
  inv_of (accessor_Spec f0 a0 cacheName name).

Definition fp_accessor (f0 a0 : nat) (c : nat) : Prop :=
  f0 <= c < 2 + f0 \/ a0 <= c < 2 + a0.

(** What the state gives for the type, as the accessor reads it:
    [state[cacheName][entityName]], read in an empty object for a missing
    cache. *)
Definition state_view (h : list obj) (s : val) (cacheName : string)
    (name : val) : option val :=
  match get_prop h s cacheName with
  | Ok cache => match stored_in h cache name with
                | Ok st => Some st
                | Err _ => None
                end
  | Err _ => None
  end.

(** The results of the Collection Creator in the log are its own: each is
    what [create] returned for that name on some heap, and the objects made
    by that call are in the heap. *)
Definition creator_log (creator : Creator) (w : world) : Prop :=
  forall n v, EvCreate n v ∈ calls w ->
    exists h, v = (creator_create creator n h).1 /\
              (creator_create creator n h).2 `prefix_of` heap w.

(** * The root derivation set *)

(** The [forEach] over the names of the member derivations, as a function:
    the [i]-th name takes the cells [2i + n] and [2i + n + 1]. *)
Fixpoint root_entries (sc : selector) (ms : list (string * selector)) (n : nat)
    (keys : list string) (acc : list (string * selector))
    : list (string * selector) :=
  match keys with
  | [] => acc
  | k :: keys' =>
      root_entries sc ms (2 + n) keys'
        (obj_set k (memoized_selector (1 + n) n [sc] (as_projector (assoc k ms))) acc)
  end.

Definition root_base (a0 : nat) (md : EntityMetadata) : nat :=
  member_size md + (2 + a0).

(** The root derivation of the [i]-th member derivation [m]. *)
Definition root_sel (this : EntitySelectorsFactory) (a0 : nat)
    (md : EntityMetadata) (i : nat) (m : selector) : selector :=
  memoized_selector (1 + (2 * i + root_base a0 md)) (2 * i + root_base a0 md)
    [sel_collection this a0 (entityName md)] (as_projector (Some m)).

Definition root_set (this : EntitySelectorsFactory) (a0 : nat)
    (md : EntityMetadata) (specs : list (string * spec_sel))
    : list (string * entry) :=
  spread [("entityName", EVal (entityName md));
          ("selectCollection", ESel (sel_collection this a0 (entityName md)))]
    (map_vals ESel
       (root_entries (sel_collection this a0 (entityName md))
          (map_vals fst specs) (root_base a0 md) (map fst specs) [])).

(** ** The invariant of a root derivation set *)

Definition ps_root (r0 : nat) (cacheName : string) (name : val) (i : nat)
    (R : rel val val) : pspec :=
  PSpec (1 + (2 * i + r0)) (2 * i + r0) [rel_accessor cacheName name] (rel_apply R).

Definition root_Spec (f0 a0 : nat) (cacheName : string) (md : EntityMetadata)
    (p : pspec) : Prop :=
  accessor_Spec f0 a0 cacheName (entityName md) p \/
  member_Spec (2 + a0) md p \/
  exists specs i k ss,
    member_specs (2 + a0) md = Ok specs /\ specs !! i = Some (k, ss) /\
    p = ps_root (root_base a0 md) cacheName (entityName md) i (snd ss).

Definition root_inv (f0 a0 : nat) (cacheName : string) (md : EntityMetadata)
    : world -> Prop :=
  inv_of (root_Spec f0 a0 cacheName md).

(** The cells the [i]-th root derivation can write: the accessor's, the
    member derivations', and its own two. *)
Definition fp_root (f0 a0 : nat) (md : EntityMetadata) (i : nat) (c : nat) : Prop :=
  fp_accessor f0 a0 c \/ fp_member (2 + a0) md c \/
  c = 2 * i + root_base a0 md \/ c = 1 + (2 * i + root_base a0 md).

(** A second call on the same input, right after a call that returned,
    returns the same output and leaves the world as it was: the cells, the
    heap and the log of the runs of projectors and of the Creator. *)
Definition memoized_on_identity (sel : selector) : Prop :=
  forall s w v w', sel s w = (Ok v, w') -> sel s w' = (Ok v, w').

(** ** Missing values and footprints *)

(** The values whose properties cannot be read. *)
Definition nullish (c : val) : Prop := c = VUndefined \/ c = VNull.

(** The cells a computation can write, whatever the world it runs in. *)
Definition writes {A} (F : nat -> Prop) (m : M A) : Prop :=
  forall w r w', m w = (r, w') ->
    forall c, ~ F c -> cells w' !! c = cells w !! c.

(** A property of worlds that a computation keeps. *)
Definition keeps {A} (P : world -> Prop) (m : M A) : Prop :=
  forall w r w', m w = (r, w') -> P w -> P w'.

(** * Concrete configurations and states *)

(** The default state of §4.1: an empty collection. *)
Definition empty_create (name : val) (h : list obj) : val * list obj :=
  (VRef (3 + length h),
   h ++ [OArr []; OObj []; OObj [];
         OObj [("ids", VRef (length h)); ("entities", VRef (1 + length h));
               ("filter", VStr ""); ("loaded", VBool false);
               ("loading", VBool false);
               ("originalValues", VRef (2 + length h))]]).

Definition empty_creator : Creator :=
  {| creator_create := empty_create;
     creator_mono := fun n h => prefix_app_r h h _ (reflexivity h) |}.

(** [entities.filter(e => e.name.includes(pattern))] *)
Definition is_substring (p s : string) : bool :=
  match String.index 0 p s with
  | Some _ => true
  | None => false
  end.

Definition name_matches (h : list obj) (p : string) (e : val) : bool :=
  match get_prop h e "name" with
  | Ok (VStr s) => is_substring p s
  | _ => false
  end.

Definition filter_by_name (es pat : val) (h : list obj) : val * list obj :=
  match array_elems h es, pat with
  | Ok l, VStr p => (VRef (length h), h ++ [OArr (List.filter (name_matches h p) l)])
  | _, _ => (es, h)
  end.

Definition name_filter : FilterFn.
Proof.
  refine {| filter_run := filter_by_name |}.
  intros es p h. unfold filter_by_name. destruct (array_elems h es); [|done].
  destruct p; try done. by apply prefix_app_r.
Defined.

(** Two heroes, their collection, and two states that store it; the second
    state also stores a collection of villains and a router state. *)
Definition hero_heap : list obj :=
  [OObj [("id", VNum 1); ("name", VStr "a")];
   OObj [("id", VNum 2); ("name", VStr "b")];
   OArr [VNum 1; VNum 2];
   OObj [("1", VRef 0); ("2", VRef 1)];
   OObj [];
   OObj [("ids", VRef 2); ("entities", VRef 3); ("filter", VStr "a");
         ("loaded", VBool true); ("loading", VBool false);
         ("originalValues", VRef 4); ("loadedAt", VNum 0);
         ("collection", VNum 7); ("foo", VNum 1); ("Foo", VNum 2)];
   OObj [("Hero", VRef 5)];
   OObj [("entityCache", VRef 6)];
   OObj [];
   OObj [("Hero", VRef 5); ("Villain", VRef 8)];
   OObj [("entityCache", VRef 9); ("router", VStr "/heroes")]].

Definition hero_world : world := World hero_heap ∅ 0 [].

Definition hero_md (f : option FilterFn) (extra : option (list (string * val)))
    : EntityMetadata :=
  {| entityName := VStr "Hero"; filterFn := f; additionalCollectionState := extra |}.

Definition nameless_md : EntityMetadata :=
  {| entityName := VUndefined; filterFn := None; additionalCollectionState := None |}.

Definition hero_factory : EntitySelectorsFactory :=
  mk_factory 0 "entityCache" empty_creator.

(** The world after [new EntitySelectorsFactory("entityCache", creator)]. *)
Definition factory_world : world := (constructor "entityCache" empty_creator hero_world).2.

Definition root_world (md : EntityMetadata) : world :=
  (create hero_factory md factory_world).2.

(** Collections that share their [ids] and [entities] (3 and 4), that have a
    new [ids] array (6), that lack [entities] (7 and 9) or everything (10);
    a state whose cache is [null] (11), two states whose caches do not
    store heroes (13 and 15), and a state with the cache of the first of
    them (16). *)
Definition edge_heap : list obj :=
  [OArr [VNum 1];
   OObj [("1", VRef 2)];
   OObj [("id", VNum 1)];
   OObj [("ids", VRef 0); ("entities", VRef 1); ("loading", VBool false)];
   OObj [("ids", VRef 0); ("entities", VRef 1); ("loading", VBool true)];
   OArr [VNum 1];
   OObj [("ids", VRef 5); ("entities", VRef 1)];
   OObj [("ids", VRef 0)];
   OArr [];
   OObj [("ids", VRef 8)];
   OObj [];
   OObj [("entityCache", VNull)];
   OObj [("Villain", VRef 3)];
   OObj [("entityCache", VRef 12)];
   OObj [("Villain", VRef 4)];
   OObj [("entityCache", VRef 14)];
   OObj [("entityCache", VRef 12); ("router", VStr "/villains")]].

(** A world in which nothing was built or called yet. *)
Definition fresh (h : list obj) : world := World h ∅ 0 [].

(** The worlds after building the member derivations, the factory and the
    accessor, and a root derivation set. *)
Definition members_at (h : list obj) (md : EntityMetadata) : world :=
  (createCollectionSelectors md (fresh h)).2.

Definition factory_at (h : list obj) : world :=
  (constructor "entityCache" empty_creator (fresh h)).2.

Definition accessor_at (h : list obj) (name : val) : world :=
  (createCollectionSelector hero_factory name (factory_at h)).2.

Definition plain_md : EntityMetadata := hero_md None None.

(** A second entity type, built by the same factory after the heroes. *)
Definition villain_md : EntityMetadata :=
  {| entityName := VStr "Villain"; filterFn := None;
     additionalCollectionState := None |}.

Definition two_types_world : world :=
  (create hero_factory villain_md (root_world plain_md)).2.

(** * Lemmas *)

Lemma evolves_refl F w : evolves F w w.
Proof.
  split; auto. exists []. split; auto.
Qed.

Lemma evolves_trans F w1 w2 w3 :
  evolves F w1 w2 -> evolves F w2 w3 -> evolves F w1 w3.
Proof.
  intros [H1 (n1 & E1 & A1) N1 C1] [H2 (n2 & E2 & A2) N2 C2]. split.
  - by etrans.
  - exists (n2 ++ n1). split.
    + by rewrite E2, E1, app_assoc.
    + by apply Forall_app.
  - congruence.
  - intros c Hc. by rewrite C2, C1.
Qed.

Lemma evolves_mono (F G : nat -> Prop) w w' :
  (forall c, F c -> G c) -> evolves F w w' -> evolves G w w'.
Proof.
  intros HFG [H1 (n1 & E1 & A1) N1 C1]. split; [done| |done|].
  - exists n1. split; auto. eapply Forall_impl; [exact A1|].
    intros [] ?; simpl in *; auto.
  - intros c Hc. apply C1. auto.
Qed.

Lemma evolves_suffix F w w' : evolves F w w' -> calls w `suffix_of` calls w'.
Proof. intros [_ (n & E & _) _ _]. by exists n. Qed.

(** A run that leaves the cells alone. *)
Lemma evolves_env F w w' :
  heap w `prefix_of` heap w' ->
  (exists new, calls w' = new ++ calls w /\ Forall (event_in F) new) ->
  next_cell w' = next_cell w -> cells w' = cells w ->
  evolves F w w'.
Proof. intros ? ? ? E. split; auto. intros. by rewrite E. Qed.

Lemma bind_run {A B} (m : M A) (k : A -> M B) w r w' :
  bind m k w = (r, w') ->
  (exists a w1, m w = (Ok a, w1) /\ k a w1 = (r, w')) \/
  (exists e, m w = (Err e, w') /\ r = Err e).
Proof.
  unfold bind. destruct (m w) as [[a|e] w1]; intros H.
  - left. eauto.
  - right. inversion H. eauto.
Qed.

Lemma stable_rel_inputs Rins :
  Forall stable Rins -> stable (rel_inputs Rins).
Proof.
  intros HS h l h' l' s args Hh Hl H. unfold rel_inputs in *.
  induction H as [|R a Rs args' HR _ IH]; constructor.
  - inversion HS; subst. eauto.
  - apply IH. by inversion HS.
Qed.

Lemma pair_inv_frame cs cp Rins Rp w w' :
  Forall stable Rins -> stable Rp ->
  pair_inv cs cp Rins Rp w ->
  heap w `prefix_of` heap w' -> calls w `suffix_of` calls w' ->
  cells w' !! cs = cells w !! cs -> cells w' !! cp = cells w !! cp ->
  pair_inv cs cp Rins Rp w'.
Proof.
  intros HS HP [Hp Hs] Hh Hl Ecs Ecp. split.
  - intros args r Hc. rewrite Ecp in Hc. destruct (Hp _ _ Hc) as [? ?].
    split; eauto.
  - intros a r Hc. rewrite Ecs in Hc.
    destruct (Hs _ _ Hc) as (s & args & -> & Hcp & Hin).
    exists s, args. rewrite Ecp. repeat split; auto.
    eapply stable_rel_inputs; eauto.
Qed.

Lemma triple_mono {A} (F G : nat -> Prop) Inv (m : M A) (Q Q' : A -> world -> Prop) :
  (forall c, F c -> G c) -> (forall v w, Q v w -> Q' v w) ->
  triple F Inv m Q -> triple G Inv m Q'.
Proof.
  intros HFG HQ H w r w' Hw Hm. destruct (H w r w' Hw Hm) as (He & Hi & Hq).
  split; [by eapply evolves_mono|]. split; [done|]. intros v Hv. auto.
Qed.

Lemma triple_weaken_pre {A} F Inv Pre (m : M A) Q :
  triple F Inv m Q -> triple_pre F Inv Pre m Q.
Proof. intros H w r w' Hw _ Hm. eauto. Qed.

(** ** Arguments compared by identity *)

Lemma strict_eq_true a b : strict_eq a b = true <-> a = b.
Proof. unfold strict_eq. apply bool_decide_eq_true. Qed.

Lemma args_changed_same args : args_changed args args = false.
Proof.
  induction args as [|a args IH]; simpl; auto.
  rewrite IH. unfold strict_eq. by rewrite bool_decide_eq_true_2.
Qed.

Lemma args_unchanged args last :
  args_changed args last = false -> length last = length args -> args = last.
Proof.
  revert last. induction args as [|a args IH]; intros [|b last]; simpl; try done.
  intros H Hl. apply orb_false_iff in H as [H1 H2].
  apply negb_false_iff, strict_eq_true in H1. subst.
  f_equal. apply IH; auto.
Qed.

Lemma args_unchanged1 s last :
  args_changed [s] last = false -> forall s', last = [s'] -> s = s'.
Proof.
  intros H s' ->. simpl in H. apply orb_false_iff in H as [H1 _].
  by apply negb_false_iff, strict_eq_true in H1.
Qed.

Lemma memoize_unfold c t args w :
  memoize c t args w =
  match cells w !! c with
  | Some (la, lr) =>
      if args_changed args la then recompute c t args w else (Ok lr, w)
  | None => recompute c t args w
  end.
Proof.
  unfold memoize, recompute, bind, get_cell, set_cell, ret, store.
  destruct (cells w !! c) as [[la lr]|]; [destruct (args_changed args la)|];
    try done; by destruct (t args w) as [[r|e] w1].
Qed.

Lemma evolves_store F c args r w : F c -> evolves F w (store c args r w).
Proof.
  intros HF. split; simpl; auto.
  - by exists [].
  - intros c' Hc'. apply lookup_insert_ne. intros ->. done.
Qed.

Lemma evolves_tick F e w :
  event_in F e -> evolves F w (tick e w).2.
Proof.
  intros He. apply evolves_env; simpl; auto.
  exists [e]. split; auto.
Qed.

Lemma length_rel_inputs Rins h l s args :
  rel_inputs Rins h l s args -> length args = length Rins.
Proof. intros H. symmetry. by eapply Forall2_length. Qed.

Lemma rel_inputs_1 R h l s args :
  rel_inputs [R] h l s args -> exists a, args = [a] /\ R h l s a.
Proof.
  intros H. inversion H as [|? a ? l' HR Hl]; subst.
  inversion Hl; subst. eauto.
Qed.

Lemma rel_inputs_2 R1 R2 h l s args :
  rel_inputs [R1; R2] h l s args ->
  exists a b, args = [a; b] /\ R1 h l s a /\ R2 h l s b.
Proof.
  intros H. inversion H as [|? a ? l' HR Hl]; subst.
  apply rel_inputs_1 in Hl as (b & -> & Hb). eauto.
Qed.

Lemma triple_mapM F Inv (inputs : list selector) Rins s :
  Forall stable Rins ->
  Forall2 (fun (inp : selector) (R : rel val val) =>
             forall s, triple F Inv (inp s) (fun v w => R (heap w) (calls w) s v))
          inputs Rins ->
  triple F Inv (mapM (fun fn : selector => fn s) inputs)
         (fun args w => rel_inputs Rins (heap w) (calls w) s args).
Proof.
  intros HS H. induction H as [|inp R inputs Rins Hi _ IH];
    intros w r w' Hw Hm; simpl in Hm.
  - inversion Hm; subst. split; [apply evolves_refl|]. split; [done|].
    intros v [= <-]. constructor.
  - inversion HS as [|? ? HR HS']; subst.
    apply bind_run in Hm as [(y & w1 & H1 & Hm)|(e & H1 & ->)].
    2:{ destruct (Hi s _ _ _ Hw H1) as (E1 & I1 & _).
        split; [done|]. split; [done|]. intros ? [=]. }
    destruct (Hi s _ _ _ Hw H1) as (E1 & I1 & Q1).
    apply bind_run in Hm as [(ys & w2 & H2 & Hm)|(e & H2 & ->)].
    2:{ destruct (IH HS' _ _ _ I1 H2) as (E2 & I2 & _).
        split; [by eapply evolves_trans|]. split; [done|]. intros ? [=]. }
    destruct (IH HS' _ _ _ I1 H2) as (E2 & I2 & Q2).
    inversion Hm; subst.
    split; [by eapply evolves_trans|]. split; [done|].
    intros v [= <-]. constructor; [|by apply Q2].
    eapply HR; [apply E2|by eapply evolves_suffix|by apply Q1].
Qed.

Lemma returns_mapM F Inv (inputs : list selector) Rins s w :
  Forall2 (fun (inp : selector) (R : rel val val) =>
             forall s, triple F Inv (inp s) (fun v w => R (heap w) (calls w) s v))
          inputs Rins ->
  Inv w ->
  Forall (fun inp : selector =>
            forall w', evolves F w w' -> Inv w' -> returns (inp s) w') inputs ->
  returns (mapM (fun fn : selector => fn s) inputs) w.
Proof.
  intros H. revert w. induction H as [|inp R inputs Rins Hi _ IH];
    intros w Hw Hret; simpl.
  - by exists [], w.
  - inversion Hret as [|? ? Hr Hrs]; subst.
    destruct (Hr w (evolves_refl F w) Hw) as (y & w1 & E1).
    destruct (Hi s _ _ _ Hw E1) as (Ev1 & I1 & _).
    destruct (IH w1 I1) as (ys & w2 & E2).
    { eapply Forall_impl; [exact Hrs|]. intros inp' H' w' Ev' I'.
      apply H'; [|done]. by eapply evolves_trans. }
    exists (y :: ys), w2. unfold bind. by rewrite E1, E2.
Qed.

Section memo_rule.
Context (cs cp : nat) (inputs : list selector) (proj : list val -> M val).
Context (Rins : list (rel val val)) (Rp : rel (list val) val).
Context (F : nat -> Prop) (Inv : world -> Prop).
Hypothesis Hne : cs <> cp.
Hypothesis HFcs : F cs.
Hypothesis HFcp : F cp.
Hypothesis HSins : Forall stable Rins.
Hypothesis HSp : stable Rp.
Hypothesis Hinv_env : env_stable Inv.
Hypothesis Hinv_pair : forall w, Inv w -> pair_inv cs cp Rins Rp w.
Hypothesis Hinv_set :
  forall w w', Inv w -> pair_inv cs cp Rins Rp w' ->
    heap w' = heap w -> calls w' = calls w ->
    (forall c, c <> cs -> c <> cp -> cells w' !! c = cells w !! c) ->
    Inv w'.
Hypothesis Hinputs :
  Forall2 (fun (inp : selector) (R : rel val val) =>
             forall s, triple F Inv (inp s) (fun v w => R (heap w) (calls w) s v))
          inputs Rins.
Hypothesis Hproj :
  forall s args,
    triple_pre F Inv (fun w => rel_inputs Rins (heap w) (calls w) s args)
      (proj args) (fun v w => Rp (heap w) (calls w) args v).

Let t_proj : list val -> M val :=
  fun a => tick (EvProject cp a) ;;; proj a.
Let t_state : list val -> M val :=
  fun st => let state := hd VUndefined st in
            args <- mapM (fun fn : selector => fn state) inputs ;;
            memoize cp t_proj args.

(** Both cells after the state's cell was filled. *)
Lemma pair_inv_stored w s args v :
  cells w !! cp = Some (args, v) ->
  length args = length Rins -> Rp (heap w) (calls w) args v ->
  rel_inputs Rins (heap w) (calls w) s args ->
  pair_inv cs cp Rins Rp (store cs [s] v w).
Proof using Hne.
  intros Hcp Hl HRp HRin. split; simpl.
  - intros a r. rewrite lookup_insert_ne by done. rewrite Hcp.
    by intros [= <- <-].
  - intros a r. rewrite lookup_insert_eq. intros [= <- <-].
    exists s, args. by rewrite lookup_insert_ne.
Qed.

Lemma memo_miss s w r w' :
  Inv w -> recompute cs t_state [s] w = (r, w') ->
  evolves F w w' /\ Inv w' /\
  forall v, r = Ok v ->
    rel_memo Rins Rp (heap w') (calls w') s v /\
    cells w' !! cs = Some ([s], v).
Proof using All.
  intros Hw. unfold recompute.
  destruct (t_state [s] w) as [[v|e] w3] eqn:ET; intros [= <- <-];
    unfold t_state in ET; simpl in ET;
    apply bind_run in ET as [(args & w1 & Hin & Hmp)|(e' & Hin & [=])];
    destruct (triple_mapM F Inv inputs Rins s HSins Hinputs _ _ _ Hw Hin)
      as (E1 & I1 & Q1); try subst e'.
  2:{ (* the projector level failed *)
    specialize (Q1 _ eq_refl).
    rewrite memoize_unfold in Hmp.
    assert (recompute cp t_proj args w1 = (Err e, w3) ->
            evolves F w w3 /\ Inv w3) as Hrec.
    { unfold recompute, t_proj, bind. simpl. set (w1t := World _ _ _ _).
      destruct (proj args w1t) as [[v|e1] w2] eqn:Ep; intros [= <- <-].
      assert (I1t : Inv w1t).
      { eapply Hinv_env; [exact I1| | |]; simpl; auto.
        by exists [EvProject cp args]. }
      assert (P1t : rel_inputs Rins (heap w1t) (calls w1t) s args).
      { eapply stable_rel_inputs; [done| | |exact Q1]; simpl; auto.
        by exists [EvProject cp args]. }
      destruct (Hproj s args _ _ _ I1t P1t Ep) as (E2 & I2 & _).
      split; [|done]. eapply evolves_trans; [exact E1|].
      eapply evolves_trans; [|exact E2].
      apply (evolves_tick F (EvProject cp args) w1). exact HFcp. }
    destruct (cells w1 !! cp) as [[la lr]|];
      [destruct (args_changed args la); [|done]|];
      destruct (Hrec Hmp) as [? ?]; (split; [done|]; split; [done|]);
      intros ? [=]. }
  2:{ split; [done|]. split; [done|]. intros ? [=]. }
  specialize (Q1 _ eq_refl).
  pose proof (length_rel_inputs _ _ _ _ _ Q1) as Hlen.
  rewrite memoize_unfold in Hmp.
  assert (exists w2, Inv w2 /\ evolves F w1 w2 /\
            Rp (heap w2) (calls w2) args v /\
            (w3 = w2 /\ cells w2 !! cp = Some (args, v) \/
             w3 = store cp args v w2)) as (w2 & I2 & E2 & R2 & Hw3).
  { assert (recompute cp t_proj args w1 = (Ok v, w3) ->
      exists w2, Inv w2 /\ evolves F w1 w2 /\
        Rp (heap w2) (calls w2) args v /\ w3 = store cp args v w2) as Hrec.
    { unfold recompute, t_proj, bind. simpl. set (w1t := World _ _ _ _).
      destruct (proj args w1t) as [[v1|e1] w2] eqn:Ep; intros [= <- <-].
      assert (I1t : Inv w1t).
      { eapply Hinv_env; [exact I1| | |]; simpl; auto.
        by exists [EvProject cp args]. }
      assert (P1t : rel_inputs Rins (heap w1t) (calls w1t) s args).
      { eapply stable_rel_inputs; [done| | |exact Q1]; simpl; auto.
        by exists [EvProject cp args]. }
      destruct (Hproj s args _ _ _ I1t P1t Ep) as (E2 & I2 & Q2).
      exists w2. split; [done|]. split; [|split; [by apply Q2|done]].
      eapply evolves_trans; [|exact E2].
      apply (evolves_tick F (EvProject cp args) w1). exact HFcp. }
    destruct (cells w1 !! cp) as [[la lr]|] eqn:Ecp.
    - destruct (args_changed args la) eqn:Ech.
      + destruct (Hrec Hmp) as (w2 & ? & ? & ? & ?). exists w2. auto.
      + inversion Hmp; subst. exists w3.
        destruct (Hinv_pair _ I1) as [Hp _].
        destruct (Hp _ _ Ecp) as [Hl HR].
        assert (args = la) as <- by (apply args_unchanged; congruence).
        split; [done|]. split; [apply evolves_refl|]. auto.
    - destruct (Hrec Hmp) as (w2 & ? & ? & ? & ?). exists w2. auto. }
  assert (Hcp3 : cells w3 !! cp = Some (args, v)).
  { destruct Hw3 as [[-> ?]| ->]; [done|]. apply lookup_insert_eq. }
  assert (Hh3 : heap w3 = heap w2 /\ calls w3 = calls w2 /\
                next_cell w3 = next_cell w2 /\
                forall c, c <> cp -> cells w3 !! c = cells w2 !! c).
  { destruct Hw3 as [[-> ?]| ->]; [done|]. simpl. repeat split.
    intros c Hc. by apply lookup_insert_ne. }
  destruct Hh3 as (Hh3 & Hl3 & Hn3 & Hc3).
  assert (HRin3 : rel_inputs Rins (heap w3) (calls w3) s args).
  { rewrite Hh3, Hl3. eapply stable_rel_inputs; [done|apply E2| |done].
    by eapply evolves_suffix. }
  split; [|split].
  - eapply evolves_trans; [exact E1|]. eapply evolves_trans; [exact E2|].
    split; simpl; auto.
    + by rewrite Hh3.
    + exists []. by rewrite Hl3.
    + intros c Hc. rewrite lookup_insert_ne by (intros ->; done).
      apply Hc3. intros ->. done.
  - eapply (Hinv_set w2); [done| |done|done|].
    + apply (pair_inv_stored w3 s args v); auto. by rewrite Hh3, Hl3.
    + intros c H1 H2. simpl. rewrite lookup_insert_ne by done. by apply Hc3.
  - intros v' [= <-]. simpl. split; [|apply lookup_insert_eq].
    exists args. split; [done|]. by rewrite Hh3, Hl3.
Qed.

(** The rule: a call keeps the invariant, writes only in the footprint,
    and its result is related to the state as the inputs and the projector
    say; after the call, the state's cell holds the call. *)
Lemma memo_triple s :
  triple F Inv (memoized_selector cs cp inputs proj s)
    (fun v w => rel_memo Rins Rp (heap w) (calls w) s v /\
                cells w !! cs = Some ([s], v)).
Proof using All.
  intros w r w' Hw Hm. unfold memoized_selector in Hm.
  rewrite memoize_unfold in Hm. fold t_proj in Hm. fold t_state in Hm.
  destruct (cells w !! cs) as [[la lr]|] eqn:Ecs;
    [destruct (args_changed [s] la) eqn:Ech|]; try by apply memo_miss.
  inversion Hm; subst. split; [apply evolves_refl|]. split; [done|].
  intros v [= <-]. destruct (Hinv_pair _ Hw) as [Hp Hs].
  destruct (Hs _ _ Ecs) as (s' & args & -> & Hcp & Hin).
  assert (s = s') as <- by (by eapply args_unchanged1).
  split; [|done]. exists args. split; [done|]. by apply (Hp _ _ Hcp).
Qed.

(** A call returns when the inputs and the projector do, in every world
    the call can reach. *)
Lemma memo_returns s w :
  Inv w ->
  Forall (fun inp : selector =>
            forall w', evolves F w w' -> Inv w' -> returns (inp s) w') inputs ->
  (forall args w', evolves F w w' -> Inv w' ->
     rel_inputs Rins (heap w') (calls w') s args -> returns (proj args) w') ->
  returns (memoized_selector cs cp inputs proj s) w.
Proof using All.
  intros Hw Hri Hrp. unfold returns, memoized_selector.
  rewrite memoize_unfold. fold t_proj. fold t_state.
  assert (exists v w', recompute cs t_state [s] w = (Ok v, w')) as Hrec.
  { unfold recompute, t_state. simpl.
    destruct (returns_mapM F Inv inputs Rins s w Hinputs Hw Hri)
      as (args & w1 & Hin).
    destruct (triple_mapM F Inv inputs Rins s HSins Hinputs _ _ _ Hw Hin)
      as (E1 & I1 & Q1). specialize (Q1 _ eq_refl).
    unfold bind at 1. rewrite Hin. rewrite memoize_unfold.
    assert (exists v w', recompute cp t_proj args w1 = (Ok v, w')) as Hrp'.
    { unfold recompute, t_proj, bind. simpl. set (w1t := World _ _ _ _).
      assert (E1t : evolves F w1 w1t).
      { apply (evolves_tick F (EvProject cp args) w1). exact HFcp. }
      destruct (Hrp args w1t) as (v & w2 & Hp).
      - by eapply evolves_trans.
      - eapply Hinv_env; [exact I1| | |]; simpl; auto.
        by exists [EvProject cp args].
      - eapply stable_rel_inputs; [done|apply E1t| |done].
        by eapply evolves_suffix.
      - rewrite Hp. eauto. }
    destruct Hrp' as (v & w2 & Hp).
    destruct (cells w1 !! cp) as [[la lr]|];
      [destruct (args_changed args la)|]; try rewrite Hp; eauto. }
  destruct (cells w !! cs) as [[la lr]|];
    [destruct (args_changed [s] la)|]; eauto.
Qed.
End memo_rule.

(** Memoized on identity, whatever the function memoized: a second call
    with the same arguments finds the result and changes nothing. *)
Lemma memoize_again c t args w v w1 :
  memoize c t args w = (Ok v, w1) -> memoize c t args w1 = (Ok v, w1).
Proof.
  rewrite !memoize_unfold. intros H.
  assert (recompute c t args w = (Ok v, w1) ->
          cells w1 !! c = Some (args, v)) as Hrec.
  { unfold recompute. destruct (t args w) as [[r|e] w2]; intros [= <- <-].
    apply lookup_insert_eq. }
  destruct (cells w !! c) as [[la lr]|] eqn:Ec.
  - destruct (args_changed args la) eqn:Ech.
    + rewrite (Hrec H). by rewrite args_changed_same.
    + inversion H; subst. by rewrite Ec, Ech.
  - rewrite (Hrec H). by rewrite args_changed_same.
Qed.

Lemma memoized_selector_again cs cp inputs proj s w v w1 :
  memoized_selector cs cp inputs proj s w = (Ok v, w1) ->
  memoized_selector cs cp inputs proj s w1 = (Ok v, w1).
Proof. apply memoize_again. Qed.

Lemma inv_of_env Spec : wf_spec Spec -> env_stable (inv_of Spec).
Proof.
  intros Hwf w w' Hw Hh Hl Hc p Hp.
  eapply pair_inv_frame; [by eapply wf_stable_in|by eapply wf_stable_p
                         |by apply Hw|done|done| |]; by rewrite Hc.
Qed.

Lemma inv_of_set Spec p w w' :
  wf_spec Spec -> Spec p -> inv_of Spec w -> ps_inv p w' ->
  heap w' = heap w -> calls w' = calls w ->
  (forall c, c <> ps_cs p -> c <> ps_cp p -> cells w' !! c = cells w !! c) ->
  inv_of Spec w'.
Proof.
  intros Hwf Hp Hw Hp' Hh Hl Hc q Hq.
  destruct (decide (ps_has p (ps_cs q) \/ ps_has p (ps_cp q))) as [Hov|Hno].
  - assert (p = q) as <-; [|done].
    destruct Hov as [H|H]; eapply (wf_disj Spec Hwf p q); eauto;
      [by left|by right].
  - eapply pair_inv_frame; [by eapply wf_stable_in|by eapply wf_stable_p
                           |by apply Hw| | | |].
    + by rewrite Hh.
    + by rewrite Hl.
    + apply Hc; intros E; apply Hno; left; [by left|by right].
    + apply Hc; intros E; apply Hno; right; [by left|by right].
Qed.

(** The rule of a memoized selector, for a member of the set. *)
Lemma spec_triple Spec p (F : nat -> Prop) inputs proj :
  wf_spec Spec -> Spec p -> F (ps_cs p) -> F (ps_cp p) ->
  Forall2 (fun (inp : selector) (R : rel val val) =>
             forall s, triple F (inv_of Spec) (inp s)
                              (fun v w => R (heap w) (calls w) s v))
          inputs (ps_Rins p) ->
  (forall s args,
     triple_pre F (inv_of Spec)
       (fun w => rel_inputs (ps_Rins p) (heap w) (calls w) s args)
       (proj args) (fun v w => ps_Rp p (heap w) (calls w) args v)) ->
  forall s,
    triple F (inv_of Spec) (memoized_selector (ps_cs p) (ps_cp p) inputs proj s)
      (fun v w => rel_memo (ps_Rins p) (ps_Rp p) (heap w) (calls w) s v /\
                  cells w !! ps_cs p = Some ([s], v)).
Proof.
  intros Hwf Hp Hcs Hcp Hin Hproj. apply memo_triple; auto.
  - by eapply wf_ne.
  - by eapply wf_stable_in.
  - by eapply wf_stable_p.
  - by apply inv_of_env.
  - intros w Hw. by apply Hw.
  - intros w w' Hw Hp' Hh Hl Hc. by eapply (inv_of_set Spec p w w').
Qed.

Lemma spec_returns Spec p (F : nat -> Prop) inputs proj s w :
  wf_spec Spec -> Spec p -> F (ps_cs p) -> F (ps_cp p) ->
  Forall2 (fun (inp : selector) (R : rel val val) =>
             forall s, triple F (inv_of Spec) (inp s)
                              (fun v w => R (heap w) (calls w) s v))
          inputs (ps_Rins p) ->
  (forall s args,
     triple_pre F (inv_of Spec)
       (fun w => rel_inputs (ps_Rins p) (heap w) (calls w) s args)
       (proj args) (fun v w => ps_Rp p (heap w) (calls w) args v)) ->
  inv_of Spec w ->
  Forall (fun inp : selector =>
            forall w', evolves F w w' -> inv_of Spec w' -> returns (inp s) w')
         inputs ->
  (forall args w', evolves F w w' -> inv_of Spec w' ->
     rel_inputs (ps_Rins p) (heap w') (calls w') s args -> returns (proj args) w') ->
  returns (memoized_selector (ps_cs p) (ps_cp p) inputs proj s) w.
Proof.
  intros Hwf Hp Hcs Hcp Hin Hproj.
  apply (memo_returns (ps_cs p) (ps_cp p) inputs proj (ps_Rins p) (ps_Rp p));
    auto.
  - by eapply wf_ne.
  - by eapply wf_stable_in.
  - by eapply wf_stable_p.
  - by apply inv_of_env.
  - intros w0 Hw. by apply Hw.
  - intros w0 w' Hw Hp' Hh Hl Hc. by eapply (inv_of_set Spec p w0 w').
Qed.

Lemma mapM_read {A B} (f : list obj -> A -> result B) (l : list A) w :
  mapM (fun x => read (fun h => f h x)) l w = (map_result (f (heap w)) l, w).
Proof.
  induction l as [|x l IH]; simpl; [done|].
  unfold bind, read at 1. destruct (f (heap w) x) as [y|e]; [|done].
  rewrite IH. by destruct (map_result _ l).
Qed.

Lemma map_result_length {A B} (f : A -> result B) l ys :
  map_result f l = Ok ys -> length ys = length l.
Proof.
  revert ys. induction l as [|x l IH]; simpl; intros ys.
  - by intros [= <-].
  - destruct (f x); [|done]. destruct (map_result f l); [|done].
    intros [= <-]. simpl. f_equal. by apply IH.
Qed.

Lemma map_result_lookup {A B} (f : A -> result B) l ys i x :
  map_result f l = Ok ys -> l !! i = Some x ->
  exists y, ys !! i = Some y /\ f x = Ok y.
Proof.
  revert ys i. induction l as [|x' l IH]; simpl; intros ys i; [done|].
  destruct (f x') as [y'|] eqn:Ef; [|done].
  destruct (map_result f l) as [ys'|]; [|done]. intros [= <-].
  destruct i as [|i]; simpl.
  - intros [= <-]. eauto.
  - intros Hi. by eapply IH.
Qed.

Lemma map_result_ext {A B} (f g : A -> result B) l ys :
  (forall x y, f x = Ok y -> g x = Ok y) ->
  map_result f l = Ok ys -> map_result g l = Ok ys.
Proof.
  intros Hfg. revert ys. induction l as [|x l IH]; simpl; intros ys; [done|].
  destruct (f x) as [y|] eqn:Ef; [|done]. rewrite (Hfg _ _ Ef).
  destruct (map_result f l) as [ys'|]; [|done]. intros [= <-].
  by rewrite (IH _ eq_refl).
Qed.

Lemma get_prop_prefix h h' v k r :
  h `prefix_of` h' -> get_prop h v k = Ok r -> get_prop h' v k = Ok r.
Proof.
  intros Hp. destruct v; simpl; try done.
  destruct (h !! a) as [o|] eqn:E; [|done].
  by rewrite (prefix_lookup_Some _ _ _ _ E Hp).
Qed.

Lemma get_elem_prefix h h' v key r :
  h `prefix_of` h' -> get_elem h v key = Ok r -> get_elem h' v key = Ok r.
Proof.
  intros Hp. unfold get_elem.
  destruct v; try done; destruct (to_key key); try done;
    by apply get_prop_prefix.
Qed.

Lemma array_elems_prefix h h' v es :
  h `prefix_of` h' -> array_elems h v = Ok es -> array_elems h' v = Ok es.
Proof.
  intros Hp. destruct v; simpl; try done.
  destruct (h !! a) as [o|] eqn:E; [|done].
  by rewrite (prefix_lookup_Some _ _ _ _ E Hp).
Qed.

Lemma stable_field k : stable (rel_field k).
Proof. intros h l h' l' c v Hh _. by apply get_prop_prefix. Qed.

Lemma stable_identity : stable rel_identity.
Proof. by intros h l h' l' a v _ _. Qed.

Lemma stable_apply R : stable R -> stable (rel_apply R).
Proof. intros HR h l h' l' a v Hh Hl. by apply HR. Qed.

Lemma stable_entities : stable rel_entities.
Proof.
  intros h l h' l' a r Hh _ (keys & vals & ra & Hk & Hv & -> & Hr).
  exists keys, vals, ra. repeat split.
  - by eapply array_elems_prefix.
  - eapply map_result_ext; [|exact Hv]. intros x y. by apply get_elem_prefix.
  - by eapply prefix_lookup_Some.
Qed.

Lemma stable_count : stable rel_count.
Proof. intros h l h' l' a v Hh _. by apply get_prop_prefix. Qed.

Lemma stable_filtered f : stable (rel_filtered f).
Proof.
  intros h l h' l' a r Hh _ (h1 & ra & vals & H1 & Ha & Hra & Hr & H2).
  exists h1, ra, vals. repeat split; [by etrans|done|done|done|by etrans].
Qed.

Lemma stored_in_prefix h h' cache name st :
  h `prefix_of` h' -> stored_in h cache name = Ok st ->
  stored_in h' cache name = Ok st.
Proof.
  intros Hp. destruct cache; try done; unfold stored_in;
    by apply get_elem_prefix.
Qed.

Lemma stable_collection name : stable (rel_collection name).
Proof.
  intros h l h' l' a r Hh [k ->] (st & Hst & Hr). exists st.
  split; [by eapply stored_in_prefix|]. destruct (truthy st); [done|].
  apply elem_of_app. by right.
Qed.

Lemma stable_memo Rins Rp :
  Forall stable Rins -> stable Rp -> stable (rel_memo Rins Rp).
Proof.
  intros HS HP h l h' l' s v Hh Hl (args & Hin & Hp). exists args. split.
  - eapply stable_rel_inputs; eauto.
  - eapply HP; eauto.
Qed.

(** ** The runs of the plain functions *)

(** A run that touches no cell keeps every invariant of the cells. *)
Lemma triple_env {A} F Inv (m : M A) (Q : A -> world -> Prop) :
  env_stable Inv ->
  (forall w r w', m w = (r, w') ->
     heap w `prefix_of` heap w' /\
     (exists new, calls w' = new ++ calls w /\ Forall (event_in F) new) /\
     next_cell w' = next_cell w /\ cells w' = cells w /\
     forall v, r = Ok v -> Q v w') ->
  triple F Inv m Q.
Proof.
  intros HI Hm w r w' Hw E. destruct (Hm _ _ _ E) as (Hh & Hl & Hn & Hc & HQ).
  split; [by apply evolves_env|]. split; [|done].
  eapply HI; eauto. destruct Hl as (new & -> & _). by exists new.
Qed.

Lemma triple_field F Inv k c :
  env_stable Inv ->
  triple F Inv (field k c) (fun v w => rel_field k (heap w) (calls w) c v).
Proof.
  intros HI. apply triple_env; [done|]. unfold field, read.
  intros w r w' [= <- <-]. env_same. by intros v Hv.
Qed.

Lemma project_entities_run a w :
  project_entities a w =
  match array_elems (heap w) (nth 0 a VUndefined) with
  | Ok keys =>
      match map_result (get_elem (heap w) (nth 1 a VUndefined)) keys with
      | Ok vals => alloc (OArr vals) w
      | Err e => (Err e, w)
      end
  | Err e => (Err e, w)
  end.
Proof.
  unfold project_entities, array_map, bind, read at 1.
  destruct (array_elems _ _) as [keys|]; [|done].
  rewrite (mapM_read (fun h key => get_elem h (nth 1 a VUndefined) key)).
  by destruct (map_result _ keys).
Qed.

Lemma triple_project_entities F Inv a :
  env_stable Inv ->
  triple F Inv (project_entities a)
         (fun v w => rel_entities (heap w) (calls w) a v).
Proof.
  intros HI. apply triple_env; [done|]. intros w r w'.
  rewrite project_entities_run.
  destruct (array_elems _ _) as [keys|] eqn:Ek.
  2:{ intros [= <- <-]. env_same. intros ? [=]. }
  destruct (map_result _ keys) as [vals|] eqn:Ev.
  2:{ intros [= <- <-]. env_same. intros ? [=]. }
  unfold alloc. intros [= <- <-]. simpl.
  assert (Hp : heap w `prefix_of` heap w ++ [OArr vals]) by by apply prefix_app_r.
  env_same. intros v [= <-]. exists keys, vals, (length (heap w)). repeat split.
  - by eapply array_elems_prefix.
  - eapply map_result_ext; [|exact Ev]. intros x y. by apply get_elem_prefix.
  - by apply list_lookup_middle.
Qed.

Lemma triple_project_count F Inv a :
  env_stable Inv ->
  triple F Inv (project_count a) (fun v w => rel_count (heap w) (calls w) a v).
Proof.
  intros HI. apply triple_env; [done|]. unfold project_count, read.
  intros w r w' [= <- <-]. env_same. by intros v Hv.
Qed.

Lemma triple_identity F Inv a :
  env_stable Inv ->
  triple F Inv (ret (hd VUndefined a))
         (fun v w => rel_identity (heap w) (calls w) a v).
Proof.
  intros HI. apply triple_env; [done|]. unfold ret.
  intros w r w' [= <- <-]. env_same. by intros v [= <-].
Qed.

Lemma assoc_obj_set_eq {A} k (v : A) ps : assoc k (obj_set k v ps) = Some v.
Proof.
  induction ps as [|[k' v'] ps IH]; simpl.
  - by rewrite String.eqb_refl.
  - destruct (String.eqb k k') eqn:E; simpl.
    + by rewrite String.eqb_refl.
    + by rewrite E.
Qed.

Lemma assoc_obj_set_ne {A} k k' (v : A) ps :
  k <> k' -> assoc k' (obj_set k v ps) = assoc k' ps.
Proof.
  intros Hne. induction ps as [|[k1 v1] ps IH]; simpl.
  - destruct (String.eqb k' k) eqn:E; [|done].
    apply String.eqb_eq in E. congruence.
  - destruct (String.eqb k k1) eqn:E; simpl.
    + apply String.eqb_eq in E. subst k1.
      destruct (String.eqb k' k) eqn:E'; [|done].
      apply String.eqb_eq in E'. congruence.
    + by rewrite IH.
Qed.

Lemma assoc_None {A} k (ps : list (string * A)) :
  assoc k ps = None <-> k ∉ map fst ps.
Proof.
  induction ps as [|[k' v'] ps IH]; simpl.
  - split; [intros _; apply not_elem_of_nil|done].
  - rewrite not_elem_of_cons. destruct (String.eqb k k') eqn:E.
    + apply String.eqb_eq in E. split; [done|]. by intros [? _].
    + apply String.eqb_neq in E. rewrite IH. tauto.
Qed.

Lemma assoc_Some_elem {A} k (v : A) ps : assoc k ps = Some v -> (k, v) ∈ ps.
Proof.
  induction ps as [|[k' v'] ps IH]; simpl; [done|].
  destruct (String.eqb k k') eqn:E.
  - apply String.eqb_eq in E. intros [= ->]. subst. left.
  - intros H. right. auto.
Qed.

Lemma assoc_lookup {A} i k (v : A) ps :
  NoDup (map fst ps) -> ps !! i = Some (k, v) -> assoc k ps = Some v.
Proof.
  revert i. induction ps as [|[k' v'] ps IH]; intros i Hnd; [done|].
  simpl in Hnd. apply NoDup_cons in Hnd as [Hk Hnd].
  destruct i as [|i]; simpl.
  - intros [= -> ->]. by rewrite String.eqb_refl.
  - intros Hi. destruct (String.eqb k k') eqn:E.
    + apply String.eqb_eq in E. subst k'. exfalso. apply Hk.
      apply list_elem_of_fmap. exists (k, v). split; [done|].
      by eapply list_elem_of_lookup_2.
    + by eapply IH.
Qed.

Lemma obj_set_fresh {A} k (v : A) ps :
  assoc k ps = None -> obj_set k v ps = ps ++ [(k, v)].
Proof.
  induction ps as [|[k' v'] ps IH]; simpl; [done|].
  destruct (String.eqb k k'); [done|]. intros H. by rewrite IH.
Qed.

Lemma obj_set_keys {A} k (v : A) ps :
  map fst (obj_set k v ps) =
  match assoc k ps with
  | Some _ => map fst ps
  | None => map fst ps ++ [k]
  end.
Proof.
  induction ps as [|[k' v'] ps IH]; simpl; [done|].
  destruct (String.eqb k k') eqn:E; simpl.
  - apply String.eqb_eq in E. by subst.
  - rewrite IH. by destruct (assoc k ps).
Qed.

Lemma obj_set_NoDup {A} k (v : A) ps :
  NoDup (map fst ps) -> NoDup (map fst (obj_set k v ps)).
Proof.
  intros Hnd. rewrite obj_set_keys. destruct (assoc k ps) eqn:E; [done|].
  apply NoDup_app. split; [done|]. split; [|apply NoDup_singleton].
  intros x Hx Hx'. apply list_elem_of_singleton in Hx'. subst x.
  by apply assoc_None in E.
Qed.

Lemma spread_NoDup {A} (a b : list (string * A)) :
  NoDup (map fst a) -> NoDup (map fst (spread a b)).
Proof.
  unfold spread. revert a. induction b as [|[k v] b IH]; simpl; intros a Ha.
  - done.
  - apply IH. by apply obj_set_NoDup.
Qed.

Lemma map_vals_obj_set {A B} (f : A -> B) k v ps :
  map_vals f (obj_set k v ps) = obj_set k (f v) (map_vals f ps).
Proof.
  induction ps as [|[k' v'] ps IH]; simpl; [done|].
  destruct (String.eqb k k'); simpl; [done|]. by rewrite <- IH.
Qed.

Lemma map_vals_spread {A B} (f : A -> B) a b :
  map_vals f (spread a b) = spread (map_vals f a) (map_vals f b).
Proof.
  unfold spread. revert a. induction b as [|[k v] b IH]; simpl; intros a.
  - done.
  - by rewrite IH, map_vals_obj_set.
Qed.

Lemma assoc_map_vals {A B} (f : A -> B) k ps :
  assoc k (map_vals f ps) = f <$> assoc k ps.
Proof.
  induction ps as [|[k' v'] ps IH]; simpl; [done|].
  by destruct (String.eqb k k').
Qed.

Lemma keys_map_vals {A B} (f : A -> B) ps :
  map fst (map_vals f ps) = map fst ps.
Proof. unfold map_vals. rewrite map_map. by apply map_ext. Qed.

(** Spreading [b] over [a]: a name of [b] wins, the others are those of [a]. *)
Lemma assoc_spread {A} k (a b : list (string * A)) :
  NoDup (map fst b) ->
  assoc k (spread a b) =
  match assoc k b with Some v => Some v | None => assoc k a end.
Proof.
  unfold spread. revert a. induction b as [|[k' v'] b IH]; simpl; intros a Hb.
  - done.
  - apply NoDup_cons in Hb as [Hk Hb]. rewrite IH by done.
    destruct (String.eqb k k') eqn:E.
    + apply String.eqb_eq in E. subst k'.
      apply assoc_None in Hk. rewrite Hk. apply assoc_obj_set_eq.
    + apply String.eqb_neq in E. destruct (assoc k b); [done|].
      by apply assoc_obj_set_ne.
Qed.

Lemma built_refl w : built 0 w w.
Proof. split; auto. intros c Hc. lia. Qed.

Lemma built_trans k j w w1 w2 :
  built k w w1 -> built j w1 w2 -> built (j + k) w w2.
Proof.
  intros [H1 L1 N1 C1 O1] [H2 L2 N2 C2 O2]. split.
  - congruence.
  - congruence.
  - lia.
  - intros c Hc. destruct (decide (c < k + next_cell w)).
    + rewrite O2 by lia. apply C1. lia.
    + apply C2. lia.
  - intros c Hc. rewrite O2 by lia. apply O1. lia.
Qed.

Lemma createSelector_run inputs proj w :
  exists w',
    createSelector inputs proj w =
      (Ok (memoized_selector (1 + next_cell w) (next_cell w) inputs proj), w') /\
    built 2 w w'.
Proof.
  eexists. split; [reflexivity|]. split; simpl; auto.
  - intros c Hc. destruct (decide (c = S (next_cell w))) as [->|].
    + apply lookup_delete_eq.
    + rewrite lookup_delete_ne by done.
      assert (c = next_cell w) as -> by lia. apply lookup_delete_eq.
  - intros c Hc. rewrite !lookup_delete_ne by lia. done.
Qed.

Lemma foldM_add_extra keys acc w :
  foldM add_extra (map_vals fst acc) keys w =
  (result_map (map_vals fst) (extra_specs keys acc), w).
Proof.
  revert acc. induction keys as [|k keys IH]; intros acc; simpl; [done|].
  unfold bind, add_extra at 1, bind, lift.
  destruct (selector_name k) as [name|e]; simpl; [|done].
  change (obj_set name (field k) (map_vals fst acc))
    with (obj_set name (fst (spec_field k)) (map_vals fst acc)).
  rewrite <- map_vals_obj_set. apply IH.
Qed.

(** [createCollectionSelectors] in closed form: it takes four or six cells,
    and returns the member derivations unless a declared field has the
    empty name. *)
Lemma createCollectionSelectors_run md w :
  exists w',
    createCollectionSelectors md w =
      (result_map (map_vals fst) (member_specs (next_cell w) md), w') /\
    built (member_size md) w w'.
Proof.
  unfold createCollectionSelectors, member_specs, member_size, extra_keys.
  pose proof (foldM_add_extra
    (Object_keys (default [] (additionalCollectionState md))) []) as Hf.
  change (map_vals fst []) with (@nil (string * selector)) in Hf.
  unfold member_builtin, bind, createSelector, bind, new_cell, ret.
  destruct (filterFn md) as [f|]; rewrite Hf;
    destruct (extra_specs _ []) as [ex|e]; simpl;
    rewrite ?map_vals_spread; simpl;
    (eexists; split; [reflexivity|]);
    (split; simpl; auto; intros c Hc; rewrite !lookup_delete;
     repeat case_decide; try done; lia).
Qed.

Lemma stable_selectEntities : stable rel_selectEntities.
Proof.
  apply stable_memo; [|apply stable_entities].
  repeat constructor; apply stable_field.
Qed.

Lemma stable_selectCount : stable rel_selectCount.
Proof.
  apply stable_memo; [|apply stable_count].
  repeat constructor; apply stable_field.
Qed.

Lemma stable_selectFiltered f : stable (rel_selectFiltered f).
Proof.
  apply stable_memo; [|apply stable_filtered].
  repeat constructor; [apply stable_selectEntities|apply stable_field].
Qed.

Lemma triple_project_filtered F Inv f s a :
  env_stable Inv ->
  triple_pre F Inv
    (fun w => rel_inputs [rel_selectEntities; rel_field "filter"]
                         (heap w) (calls w) s a)
    (project_filtered f a)
    (fun v w => rel_filtered f (heap w) (calls w) a v).
Proof.
  intros HI w r w' Hw Hpre Hm. unfold project_filtered, call_heap in Hm.
  apply rel_inputs_2 in Hpre as (es & pat & -> & HE & HP). simpl in Hm.
  destruct HE as (args & Hin & (keys & vals & ra & _ & _ & -> & Hra)).
  pose proof (filter_mono f (VRef ra) pat (heap w)) as Hmono.
  destruct (filter_run f (VRef ra) pat (heap w)) as [v h] eqn:Ef.
  simpl in Hmono. inversion Hm; subst. split; [|split].
  - apply evolves_env; simpl; auto. by exists [].
  - eapply HI; [exact Hw| | |]; simpl; auto.
  - intros v' [= <-]. simpl. exists (heap w), ra, vals. simpl. rewrite Ef.
    by repeat split.
Qed.

Lemma member_Spec_wf e0 md : wf_spec (member_Spec e0 md).
Proof.
  split.
  - intros p [->|[->|(f & _ & ->)]]; simpl; lia.
  - intros p [->|[->|(f & _ & ->)]]; simpl; repeat constructor;
      auto using stable_field, stable_selectEntities.
  - intros p [->|[->|(f & _ & ->)]]; simpl;
      auto using stable_entities, stable_count, stable_filtered.
  - intros p q c [->|[->|(f & Hf & ->)]] [->|[->|(g & Hg & ->)]];
      unfold ps_has; simpl; intros [H1|H1] [H2|H2]; try lia; try done.
    all: assert (f = g) as -> by congruence; done.
Qed.

Lemma Forall_obj_set {A} (P : A -> Prop) k v (ps : list (string * A)) :
  Forall (fun kv => P (snd kv)) ps -> P v ->
  Forall (fun kv => P (snd kv)) (obj_set k v ps).
Proof.
  intros H Hv. induction H as [|[k' v'] ps Hx Hps IH]; simpl.
  - by repeat constructor.
  - destruct (String.eqb k k'); constructor; auto.
Qed.

Lemma Forall_spread {A} (P : A -> Prop) (a b : list (string * A)) :
  Forall (fun kv => P (snd kv)) a -> Forall (fun kv => P (snd kv)) b ->
  Forall (fun kv => P (snd kv)) (spread a b).
Proof.
  unfold spread. intros Ha Hb. revert a Ha.
  induction Hb as [|[k v] b Hx _ IH]; simpl; intros a Ha; [done|].
  apply IH. by apply Forall_obj_set.
Qed.

Lemma Forall_extra_specs (P : spec_sel -> Prop) keys acc ex :
  (forall k, P (spec_field k)) ->
  Forall (fun kv => P (snd kv)) acc ->
  extra_specs keys acc = Ok ex ->
  Forall (fun kv => P (snd kv)) ex.
Proof.
  intros HP. revert acc. induction keys as [|k keys IH]; simpl; intros acc Hacc.
  - by intros [= <-].
  - destruct (selector_name k) as [name|]; [|done].
    apply IH. by apply Forall_obj_set.
Qed.

Section member_rules.
Context (Spec : pspec -> Prop) (Hwf : wf_spec Spec).
Context (e0 : nat) (md : EntityMetadata) (F : nat -> Prop).
Hypothesis Hsub : forall p, member_Spec e0 md p -> Spec p.
Hypothesis HF : forall c, fp_member e0 md c -> F c.

Let Inv := inv_of Spec.

Lemma member_size_ge : 4 <= member_size md.
Proof using Type. unfold member_size. destruct (filterFn md); lia. Qed.

Lemma triple_sel_field k c :
  triple F Inv (field k c) (fun v w => rel_field k (heap w) (calls w) c v).
Proof using Hwf. apply triple_field. by apply inv_of_env. Qed.

Lemma triple_sel_entities c :
  triple F Inv (sel_entities e0 c)
    (fun v w => rel_selectEntities (heap w) (calls w) c v /\
                cells w !! (1 + e0) = Some ([c], v)).
Proof using All.
  pose proof member_size_ge.
  apply (spec_triple Spec (ps_entities e0)); [exact Hwf| | | | |].
  - apply Hsub. by left.
  - apply HF. unfold fp_member. simpl. lia.
  - apply HF. unfold fp_member. simpl. lia.
  - each_input; intros s; apply triple_sel_field.
  - intros s args. apply triple_weaken_pre, triple_project_entities.
    by apply inv_of_env.
Qed.

Lemma triple_sel_count c :
  triple F Inv (sel_count e0 c)
    (fun v w => rel_selectCount (heap w) (calls w) c v /\
                cells w !! (3 + e0) = Some ([c], v)).
Proof using All.
  pose proof member_size_ge.
  apply (spec_triple Spec (ps_count e0)); [exact Hwf| | | | |].
  - apply Hsub. right. by left.
  - apply HF. unfold fp_member. simpl. lia.
  - apply HF. unfold fp_member. simpl. lia.
  - each_input; intros s; apply triple_sel_field.
  - intros s args. apply triple_weaken_pre, triple_project_count.
    by apply inv_of_env.
Qed.

Lemma triple_sel_filtered f c :
  filterFn md = Some f ->
  triple F Inv (sel_filtered e0 f c)
    (fun v w => rel_selectFiltered f (heap w) (calls w) c v /\
                cells w !! (5 + e0) = Some ([c], v)).
Proof using All.
  intros Hf.
  assert (member_size md = 6) as Hs by (unfold member_size; by rewrite Hf).
  apply (spec_triple Spec (ps_filtered e0 f)); [exact Hwf| | | | |].
  - apply Hsub. right. right. eauto.
  - apply HF. unfold fp_member. simpl. lia.
  - apply HF. unfold fp_member. simpl. lia.
  - each_input.
    + intros s. eapply triple_mono; [| |apply triple_sel_entities]; auto.
      by intros v w [? _].
    + intros s; apply triple_sel_field.
  - intros s args. apply triple_project_filtered. by apply inv_of_env.
Qed.

Lemma good_field k : good_member F Inv (spec_field k).
Proof using Hwf. split; [apply stable_field|]. intros c. apply triple_sel_field. Qed.

Lemma good_members ms :
  member_specs e0 md = Ok ms ->
  Forall (fun kv => good_member F Inv (snd kv)) ms.
Proof using All.
  unfold member_specs.
  destruct (extra_specs (extra_keys md) []) as [ex|] eqn:Ex; [|done].
  intros [= <-]. apply Forall_spread.
  - assert (good_member F Inv (sel_entities e0, rel_selectEntities)) as HE.
    { split; [apply stable_selectEntities|]. intros c.
      eapply triple_mono; [| |apply triple_sel_entities]; auto.
      by intros v w [? _]. }
    unfold member_builtin. each_input; simpl; try apply good_field; auto.
    + split; [apply stable_selectCount|].
      intros c. eapply triple_mono; [| |apply triple_sel_count]; auto.
      by intros v w [? _].
    + destruct (filterFn md) as [f|] eqn:Ef; [|done]. split.
      * apply stable_selectFiltered.
      * intros c. eapply triple_mono; [| |by apply triple_sel_filtered]; auto.
        by intros v w [? _].
  - eapply Forall_extra_specs; [|constructor|exact Ex]. apply good_field.
Qed.
End member_rules.

(** ** After the build *)

Lemma pair_inv_empty cs cp Rins Rp w :
  cells w !! cs = None -> cells w !! cp = None -> pair_inv cs cp Rins Rp w.
Proof. intros Hs Hp. split; intros ? ?; [rewrite Hp|rewrite Hs]; done. Qed.

Lemma built_member_inv md k w0 w1 :
  built k w0 w1 -> member_size md <= k -> member_inv (next_cell w0) md w1.
Proof.
  intros Hb Hk p Hp. apply pair_inv_empty; apply (bu_new _ _ _ Hb);
    destruct Hp as [->|[->|(f & Hf & ->)]]; simpl;
    pose proof (member_size_ge md); try lia;
    unfold member_size in Hk; rewrite Hf in Hk; lia.
Qed.

Lemma evolves_member_inv F e0 md w w' :
  member_inv e0 md w -> evolves F w w' ->
  (forall c, fp_member e0 md c -> ~ F c) -> member_inv e0 md w'.
Proof.
  intros Hw He HF p Hp. pose proof (member_Spec_wf e0 md) as Hwf.
  pose proof (member_size_ge md).
  eapply pair_inv_frame;
    [by eapply wf_stable_in|by eapply wf_stable_p|by apply Hw
    |apply He|by eapply evolves_suffix| |];
    apply (ev_cells _ _ _ He); apply HF; unfold fp_member;
    destruct Hp as [->|[->|(f & Hf & ->)]]; simpl; try lia;
    unfold member_size in *; rewrite Hf; lia.
Qed.

Lemma collection_view_inv h c i e keys em :
  collection_view h c = Some (i, e, keys, em) ->
  get_prop h c "ids" = Ok (VRef i) /\ get_prop h c "entities" = Ok (VRef e) /\
  h !! i = Some (OArr keys) /\ h !! e = Some (OObj em) /\
  forallb is_key keys = true.
Proof.
  unfold collection_view. destruct c as [| | | | |a|]; try done. simpl.
  destruct (h !! a) as [[ps|]|]; try done. unfold lookup_prop.
  destruct (assoc "ids" ps) as [[| | | | |i'|]|]; try done.
  destruct (assoc "entities" ps) as [[| | | | |e'|]|]; try done.
  destruct (h !! i') as [[|keys']|] eqn:Ei; try done.
  destruct (h !! e') as [[em'|]|] eqn:Ee; try done.
  destruct (forallb is_key keys') eqn:Ek; try done.
  by intros [= <- <- <- <-].
Qed.

Lemma collection_view_prefix h h' c x :
  h `prefix_of` h' -> collection_view h c = Some x -> collection_view h' c = Some x.
Proof.
  intros Hp. unfold collection_view. destruct c as [| | | | |a|]; try done.
  destruct (h !! a) as [[ps|]|] eqn:Ea; try done.
  rewrite (prefix_lookup_Some _ _ _ _ Ea Hp).
  destruct (assoc "ids" ps) as [[| | | | |i'|]|]; try done.
  destruct (assoc "entities" ps) as [[| | | | |e'|]|]; try done.
  destruct (h !! i') as [[|keys']|] eqn:Ei; try done.
  destruct (h !! e') as [[em'|]|] eqn:Ee; try done.
  by rewrite (prefix_lookup_Some _ _ _ _ Ei Hp), (prefix_lookup_Some _ _ _ _ Ee Hp).
Qed.

Lemma get_elem_entity h e em k :
  h !! e = Some (OObj em) -> is_key k = true ->
  get_elem h (VRef e) k = Ok (entity_at em k).
Proof.
  intros He Hk. unfold get_elem, entity_at.
  destruct k; try done; simpl; by rewrite He.
Qed.

Lemma map_result_entities h e em keys :
  h !! e = Some (OObj em) -> forallb is_key keys = true ->
  map_result (get_elem h (VRef e)) keys = Ok (map (entity_at em) keys).
Proof.
  intros He. induction keys as [|k keys IH]; [done|].
  cbn [map_result forallb map].
  intros [Hk Hks]%andb_prop. rewrite (get_elem_entity h e em k He Hk).
  by rewrite (IH Hks).
Qed.

Lemma get_prop_det h h' c k v v' :
  h `prefix_of` h' -> get_prop h c k = Ok v -> get_prop h' c k = Ok v' -> v = v'.
Proof.
  intros Hp H1 H2. rewrite (get_prop_prefix _ _ _ _ _ Hp H1) in H2. congruence.
Qed.

Lemma returns_field k c h w v :
  get_prop h c k = Ok v -> h `prefix_of` heap w -> returns (field k c) w.
Proof.
  intros H Hp. exists v, w. unfold field, read.
  by rewrite (get_prop_prefix _ _ _ _ _ Hp H).
Qed.

Lemma derives_spec k name : derives k name = true <-> selector_name k = Ok name.
Proof.
  unfold derives. destruct (selector_name k) as [n|e]; [|done].
  rewrite String.eqb_eq. split; congruence.
Qed.

Lemma declared_for_None name keys :
  declared_for name keys = None <->
  Forall (fun k => selector_name k <> Ok name) keys.
Proof.
  induction keys as [|k keys IH]; simpl.
  - split; [constructor|done].
  - destruct (declared_for name keys) eqn:E.
    + split; [done|]. intros [_ H]%Forall_cons. apply IH in H. done.
    + destruct (derives k name) eqn:Ed.
      * split; [done|]. intros [H _]%Forall_cons. by apply derives_spec in Ed.
      * split; [|done]. intros _. constructor; [|by apply IH].
        intros H%derives_spec. congruence.
Qed.


Lemma declared_for_Some name keys k :
  declared_for name keys = Some k -> k ∈ keys /\ selector_name k = Ok name.
Proof.
  induction keys as [|k0 keys IH]; simpl; [done|].
  destruct (declared_for name keys) as [k'|].
  - intros [= ->]. destruct (IH eq_refl). split; [by right|done].
  - destruct (derives k0 name) eqn:Ed; [|done]. intros [= ->].
    split; [left|by apply derives_spec].
Qed.

Lemma extra_specs_assoc keys acc ex name :
  extra_specs keys acc = Ok ex ->
  assoc name ex =
  match declared_for name keys with
  | Some k => Some (spec_field k)
  | None => assoc name acc
  end.
Proof.
  revert acc. induction keys as [|k keys IH]; simpl; intros acc.
  - by intros [= <-].
  - destruct (selector_name k) as [n|] eqn:En; [|done]. intros H.
    rewrite (IH _ H). destruct (declared_for name keys); [done|].
    unfold derives. rewrite En. destruct (String.eqb n name) eqn:E.
    + apply String.eqb_eq in E. subst. apply assoc_obj_set_eq.
    + apply String.eqb_neq in E. by apply assoc_obj_set_ne.
Qed.

Lemma extra_specs_NoDup keys acc ex :
  NoDup (map fst acc) -> extra_specs keys acc = Ok ex -> NoDup (map fst ex).
Proof.
  revert acc. induction keys as [|k keys IH]; simpl; intros acc Hacc.
  - by intros [= <-].
  - destruct (selector_name k) as [n|]; [|done].
    apply IH. by apply obj_set_NoDup.
Qed.

(** The build fails exactly when a declared field has the empty name. *)
Lemma extra_specs_ok keys acc :
  Forall (fun k => k <> "") keys -> exists ex, extra_specs keys acc = Ok ex.
Proof.
  intros H. revert acc. induction H as [|k keys Hk _ IH]; simpl; intros acc.
  - eauto.
  - destruct k as [|ch k]; [done|]. simpl. apply IH.
Qed.

Lemma extra_specs_err keys acc e :
  extra_specs keys acc = Err e -> e = TypeError /\ "" ∈ keys.
Proof.
  revert acc. induction keys as [|k keys IH]; simpl; intros acc; [done|].
  destruct k as [|ch k]; simpl.
  - intros [= <-]. split; [done|left].
  - intros H. destruct (IH _ H). split; [done|by right].
Qed.

Lemma member_builtin_NoDup e0 md : NoDup (map fst (member_builtin e0 md)).
Proof. simpl. apply NoDup_ListNoDup. repeat constructor; simpl; intuition congruence. Qed.

Lemma member_specs_NoDup e0 md specs :
  member_specs e0 md = Ok specs -> NoDup (map fst specs).
Proof.
  unfold member_specs. destruct (extra_specs _ []) as [ex|]; [|done].
  intros [= <-]. apply spread_NoDup, member_builtin_NoDup.
Qed.

(** A name of the returned object holds the accessor of the declared field
    that derives it, if any, and the built-in derivation otherwise. *)
Lemma member_specs_assoc e0 md specs name :
  member_specs e0 md = Ok specs ->
  assoc name specs =
  match declared_for name (extra_keys md) with
  | Some k => Some (spec_field k)
  | None => assoc name (member_builtin e0 md)
  end.
Proof.
  unfold member_specs.
  destruct (extra_specs (extra_keys md) []) as [ex|] eqn:Ex; [|done].
  intros [= <-]. rewrite assoc_spread.
  - rewrite (extra_specs_assoc _ _ _ name Ex). simpl.
    by destruct (declared_for name (extra_keys md)).
  - eapply extra_specs_NoDup; [|exact Ex]. constructor.
Qed.

Lemma createCollectionSelectors_ok md w0 ms w1 :
  createCollectionSelectors md w0 = (Ok ms, w1) ->
  exists specs,
    member_specs (next_cell w0) md = Ok specs /\ ms = map_vals fst specs /\
    built (member_size md) w0 w1.
Proof.
  destruct (createCollectionSelectors_run md w0) as (w' & -> & Hb).
  destruct (member_specs (next_cell w0) md) as [specs|]; simpl; [|done].
  intros [= <- <-]. eauto.
Qed.

(** ** The values of the member derivations on a well-formed collection *)

Lemma array_elems_arr h i keys :
  h !! i = Some (OArr keys) -> array_elems h (VRef i) = Ok keys.
Proof. intros H. simpl. by rewrite H. Qed.

Lemma returns_project_entities h i e keys em w :
  h !! i = Some (OArr keys) -> h !! e = Some (OObj em) ->
  forallb is_key keys = true -> h `prefix_of` heap w ->
  returns (project_entities [VRef i; VRef e]) w.
Proof.
  intros Hi He Hk Hp. unfold returns. rewrite project_entities_run.
  cbn [nth]. rewrite (array_elems_arr _ i keys) by by eapply prefix_lookup_Some.
  rewrite (map_result_entities _ e em) by (by eapply prefix_lookup_Some || done).
  unfold alloc. eauto.
Qed.

Section member_values.
Context (Spec : pspec -> Prop) (Hwf : wf_spec Spec).
Context (e0 : nat) (md : EntityMetadata) (F : nat -> Prop).
Hypothesis Hsub : forall p, member_Spec e0 md p -> Spec p.
Hypothesis HF : forall c, fp_member e0 md c -> F c.

Let Inv := inv_of Spec.

Lemma sel_entities_value c w i e keys em :
  Inv w -> collection_view (heap w) c = Some (i, e, keys, em) ->
  exists r w2,
    sel_entities e0 c w = (Ok (VRef r), w2) /\ evolves F w w2 /\ Inv w2 /\
    heap w2 !! r = Some (OArr (map (entity_at em) keys)) /\
    cells w2 !! (1 + e0) = Some ([c], VRef r).
Proof using All.
  intros Hw Hc.
  destruct (collection_view_inv _ _ _ _ _ _ Hc) as (Hids & Hents & Hi & He & Hk).
  pose proof member_size_ge md as Hsz.
  assert (returns (sel_entities e0 c) w) as (v & w2 & Hrun).
  { apply (spec_returns Spec (ps_entities e0) F); [exact Hwf| | | | | |exact Hw| |].
    - apply Hsub. by left.
    - apply HF. unfold fp_member. simpl. lia.
    - apply HF. unfold fp_member. simpl. lia.
    - each_input; intros s; by apply triple_sel_field.
    - intros s args. apply triple_weaken_pre, triple_project_entities.
      by apply inv_of_env.
    - each_input; intros w' Hev _; eapply returns_field; eauto; apply Hev.
    - intros args w' Hev _ Hin.
      apply rel_inputs_2 in Hin as (a & b & -> & Ha & Hb).
      pose proof (ev_heap _ _ _ Hev) as Hp.
      rewrite <- (get_prop_det _ _ _ _ _ _ Hp Hids Ha).
      rewrite <- (get_prop_det _ _ _ _ _ _ Hp Hents Hb).
      by eapply returns_project_entities. }
  destruct (triple_sel_entities Spec Hwf e0 md F Hsub HF c w _ _ Hw Hrun)
    as (Hev & Hi2 & HQ).
  destruct (HQ _ eq_refl) as [(args & Hin & Hrel) Hcell].
  apply rel_inputs_2 in Hin as (a & b & -> & Ha & Hb).
  pose proof (ev_heap _ _ _ Hev) as Hp.
  rewrite <- (get_prop_det _ _ _ _ _ _ Hp Hids Ha) in Hrel.
  rewrite <- (get_prop_det _ _ _ _ _ _ Hp Hents Hb) in Hrel.
  destruct Hrel as (keys' & vals & ra & Hk' & Hv & -> & Hra). cbn [nth] in *.
  rewrite (array_elems_arr _ i keys) in Hk' by by eapply prefix_lookup_Some.
  injection Hk' as <-.
  rewrite (map_result_entities _ e em) in Hv
    by (by eapply prefix_lookup_Some || done).
  injection Hv as <-. exists ra, w2.
  split; [done|]. split; [done|]. split; [exact Hi2|]. by split.
Qed.

Lemma sel_count_value c w i e keys em :
  Inv w -> collection_view (heap w) c = Some (i, e, keys, em) ->
  exists w2,
    sel_count e0 c w = (Ok (VNum (Z.of_nat (length keys))), w2) /\
    evolves F w w2 /\ Inv w2.
Proof using All.
  intros Hw Hc.
  destruct (collection_view_inv _ _ _ _ _ _ Hc) as (Hids & Hents & Hi & He & Hk).
  pose proof member_size_ge md as Hsz.
  assert (returns (sel_count e0 c) w) as (v & w2 & Hrun).
  { apply (spec_returns Spec (ps_count e0) F); [exact Hwf| | | | | |exact Hw| |].
    - apply Hsub. right. by left.
    - apply HF. unfold fp_member. simpl. lia.
    - apply HF. unfold fp_member. simpl. lia.
    - each_input; intros s; by apply triple_sel_field.
    - intros s args. apply triple_weaken_pre, triple_project_count.
      by apply inv_of_env.
    - each_input; intros w' Hev _; eapply returns_field; eauto; apply Hev.
    - intros args w' Hev _ Hin.
      apply rel_inputs_1 in Hin as (a & -> & Ha).
      pose proof (ev_heap _ _ _ Hev) as Hp.
      rewrite <- (get_prop_det _ _ _ _ _ _ Hp Hids Ha).
      unfold returns, project_count, read. simpl.
      rewrite (prefix_lookup_Some _ _ _ _ Hi Hp). simpl. eauto. }
  destruct (triple_sel_count Spec Hwf e0 md F Hsub HF c w _ _ Hw Hrun)
    as (Hev & Hi2 & HQ).
  destruct (HQ _ eq_refl) as [(args & Hin & Hrel) Hcell].
  apply rel_inputs_1 in Hin as (a & -> & Ha).
  pose proof (ev_heap _ _ _ Hev) as Hp.
  rewrite <- (get_prop_det _ _ _ _ _ _ Hp Hids Ha) in Hrel.
  unfold rel_count in Hrel. simpl in Hrel.
  rewrite (prefix_lookup_Some _ _ _ _ Hi Hp) in Hrel. simpl in Hrel.
  injection Hrel as <-. exists w2.
  split; [done|]. split; [done|]. exact Hi2.
Qed.
End member_values.

(** ** The names of the member derivations *)

(** The four derivations of lines 134-144 sit in the returned object under
    their names, unless a declared field derives the name. *)
Lemma member_lookup_builtin md w0 ms w1 name ss :
  createCollectionSelectors md w0 = (Ok ms, w1) ->
  assoc name (member_builtin (next_cell w0) md) = Some ss ->
  declared_for name (extra_keys md) = None ->
  assoc name ms = Some (fst ss).
Proof.
  intros Hb Hn Hd. apply createCollectionSelectors_ok in Hb as (specs & Hs & -> & _).
  rewrite assoc_map_vals, (member_specs_assoc _ _ _ name Hs), Hd, Hn. done.
Qed.

Lemma rel_selectEntities_view h l c v i e keys em :
  collection_view h c = Some (i, e, keys, em) ->
  rel_selectEntities h l c v ->
  exists r, v = VRef r /\ h !! r = Some (OArr (map (entity_at em) keys)).
Proof.
  intros Hc (args & Hin & Hrel).
  destruct (collection_view_inv _ _ _ _ _ _ Hc) as (Hids & Hents & Hi & He & Hk).
  apply rel_inputs_2 in Hin as (a & b & -> & Ha & Hb).
  unfold rel_field in Ha, Hb. rewrite Hids in Ha. rewrite Hents in Hb.
  injection Ha as <-. injection Hb as <-.
  destruct Hrel as (keys' & vals & ra & Hk' & Hv & -> & Hra). cbn [nth] in *.
  rewrite (array_elems_arr _ i keys Hi) in Hk'. injection Hk' as <-.
  rewrite (map_result_entities _ e em keys He Hk) in Hv. injection Hv as <-.
  eauto.
Qed.

Lemma get_prop_object h c i e keys em k :
  collection_view h c = Some (i, e, keys, em) -> exists v, get_prop h c k = Ok v.
Proof.
  unfold collection_view. destruct c as [| | | | |a|]; try done. simpl.
  destruct (h !! a) as [[ps|]|]; try done. eauto.
Qed.

Section filtered_value.
Context (Spec : pspec -> Prop) (Hwf : wf_spec Spec).
Context (e0 : nat) (md : EntityMetadata) (F : nat -> Prop).
Hypothesis Hsub : forall p, member_Spec e0 md p -> Spec p.
Hypothesis HF : forall c, fp_member e0 md c -> F c.

Let Inv := inv_of Spec.

(** With a predicate: the result is the predicate's, on the array of
    entities and the collection's filter pattern. *)
Lemma sel_filtered_value f c w i e keys em :
  filterFn md = Some f ->
  Inv w -> collection_view (heap w) c = Some (i, e, keys, em) ->
  exists v w2 r pat h1,
    sel_filtered e0 f c w = (Ok v, w2) /\ evolves F w w2 /\ Inv w2 /\
    get_prop (heap w) c "filter" = Ok pat /\
    rel_selectEntities (heap w2) (calls w2) c (VRef r) /\
    h1 `prefix_of` heap w2 /\
    h1 !! r = Some (OArr (map (entity_at em) keys)) /\
    v = (filter_run f (VRef r) pat h1).1.
Proof using All.
  intros Hf Hw Hc.
  destruct (get_prop_object _ _ _ _ _ _ "filter" Hc) as (pat & Hpat).
  assert (member_size md = 6) as Hs by (unfold member_size; by rewrite Hf).
  assert (Forall2 (fun (inp : selector) (R : rel val val) =>
            forall s, triple F (inv_of Spec) (inp s)
                             (fun v w => R (heap w) (calls w) s v))
            [sel_entities e0; field "filter"]
            [rel_selectEntities; rel_field "filter"]) as Hins.
  { each_input.
    - intros s. eapply triple_mono; [| |by apply (triple_sel_entities Spec Hwf e0 md F)];
        auto. by intros v w0 [? _].
    - intros s. by apply triple_sel_field. }
  assert (returns (sel_filtered e0 f c) w) as (v & w2 & Hrun).
  { apply (spec_returns Spec (ps_filtered e0 f) F); [exact Hwf| | | | | |exact Hw| |].
    - apply Hsub. right. right. eauto.
    - apply HF. unfold fp_member. simpl. lia.
    - apply HF. unfold fp_member. simpl. lia.
    - exact Hins.
    - intros s args. apply triple_project_filtered. by apply inv_of_env.
    - each_input.
      + intros w' Hev Hw'.
        destruct (sel_entities_value Spec Hwf e0 md F Hsub HF c w' i e keys em Hw')
          as (r & w3 & Hr & _).
        { eapply collection_view_prefix; [apply Hev|done]. }
        by exists (VRef r), w3.
      + intros w' Hev _. eapply returns_field; eauto. apply Hev.
    - intros args w' _ _ _. unfold returns, project_filtered, call_heap.
      destruct (filter_run f _ _ (heap w')) as [v' h']. eauto. }
  destruct (triple_sel_filtered Spec Hwf e0 md F Hsub HF f c Hf w _ _ Hw Hrun)
    as (Hev & Hi2 & HQ).
  destruct (HQ _ eq_refl) as [(args & Hin & Hrel) Hcell].
  apply rel_inputs_2 in Hin as (es & pat' & -> & Hes & Hpat').
  pose proof (ev_heap _ _ _ Hev) as Hp.
  assert (pat' = pat) as -> by (symmetry; by eapply get_prop_det).
  destruct Hrel as (h1 & ra & vals & H1 & Hra & Hh1 & Hv & H2).
  cbn [nth] in *. subst es.
  destruct (rel_selectEntities_view _ _ _ _ i e keys em
              (collection_view_prefix _ _ _ _ Hp Hc) Hes) as (r' & [= <-] & Hr').
  rewrite (prefix_lookup_Some _ _ _ _ Hh1 H1) in Hr'. injection Hr' as ->.
  exists v, w2, ra, pat, h1. by repeat (split; [done|]).
Qed.
End filtered_value.

Lemma constructor_run cacheName creator w :
  exists w',
    constructor cacheName creator w =
      (Ok (mk_factory (next_cell w) cacheName creator), w') /\
    built 2 w w'.
Proof.
  unfold constructor, createFeatureSelector, bind.
  destruct (createSelector_run [field cacheName] identity_projector w)
    as (w' & E & Hb).
  unfold identity_projector in E. rewrite E. by exists w'.
Qed.

Lemma createCollectionSelector_run this name w :
  exists w',
    createCollectionSelector this name w =
      (Ok (sel_collection this (next_cell w) name), w') /\
    built 2 w w'.
Proof. apply createSelector_run. Qed.

Lemma stable_cache cacheName : stable (rel_cache cacheName).
Proof.
  apply stable_memo; [|apply stable_identity].
  each_input. apply stable_field.
Qed.

Lemma stable_accessor cacheName name : stable (rel_accessor cacheName name).
Proof.
  apply stable_memo; [|apply stable_collection].
  each_input. apply stable_cache.
Qed.

Lemma rel_cache_inv cacheName h l s v :
  rel_cache cacheName h l s v <-> get_prop h s cacheName = Ok v.
Proof.
  split.
  - intros (args & Hin & Hid). apply rel_inputs_1 in Hin as (a & -> & Ha).
    unfold rel_identity in Hid. simpl in Hid. by subst.
  - intros H. exists [v]. split; [|done]. by each_input.
Qed.

Lemma rel_accessor_inv cacheName name h l s v :
  rel_accessor cacheName name h l s v <->
  exists cache st, get_prop h s cacheName = Ok cache /\
    stored_in h cache name = Ok st /\
    if truthy st then v = st else EvCreate name v ∈ l.
Proof.
  split.
  - intros (args & Hin & st & Hst & Hv).
    apply rel_inputs_1 in Hin as (cache & -> & Hc).
    apply rel_cache_inv in Hc. exists cache, st. by repeat split.
  - intros (cache & st & Hc & Hst & Hv). exists [cache]. split.
    + each_input. by apply rel_cache_inv.
    + by exists st.
Qed.

Lemma state_view_prefix h h' s cacheName name st :
  h `prefix_of` h' -> state_view h s cacheName name = Some st ->
  state_view h' s cacheName name = Some st.
Proof.
  intros Hp. unfold state_view.
  destruct (get_prop h s cacheName) as [cache|] eqn:Ec; [|done].
  rewrite (get_prop_prefix _ _ _ _ _ Hp Ec).
  destruct (stored_in h cache name) as [st'|] eqn:Es; [|done].
  by rewrite (stored_in_prefix _ _ _ _ _ Hp Es).
Qed.

(** The relation of the accessor, read against what is stored. *)
Lemma rel_accessor_view cacheName name h l s v st :
  state_view h s cacheName name = Some st ->
  rel_accessor cacheName name h l s v ->
  if truthy st then v = st else EvCreate name v ∈ l.
Proof.
  unfold state_view. intros Hv (cache & st' & Hc & Hst & Hr)%rel_accessor_inv.
  rewrite Hc, Hst in Hv. by injection Hv as <-.
Qed.

(** [getCollection] in closed form. *)
Lemma getCollection_run this name cache w :
  getCollection this name cache w =
  let w1 := match cache with
            | VUndefined => (alloc (OObj []) w).2
            | _ => w
            end in
  match stored_in (heap w) cache name with
  | Ok st =>
      if truthy st then (Ok st, w1)
      else
        let '(c, h) := creator_create (entityCollectionCreator this) name (heap w1) in
        (Ok c, World h (cells w) (next_cell w) (EvCreate name c :: calls w))
  | Err e => (Err e, w1)
  end.
Proof.
  unfold getCollection, bind.
  assert (forall w', cells w' = cells w ->
            next_cell w' = next_cell w -> calls w' = calls w ->
            forall st, (if truthy st then ret st
                        else c <- call_heap (creator_create (entityCollectionCreator this) name);;
                             tick (EvCreate name c);;; ret c) w' =
            if truthy st then (Ok st, w')
            else let '(c, h) := creator_create (entityCollectionCreator this) name (heap w') in
                 (Ok c, World h (cells w) (next_cell w) (EvCreate name c :: calls w)))
    as Hrest.
  { intros w' Hc Hn Hl st. destruct (truthy st); [done|].
    unfold bind, call_heap, tick, ret.
    destruct (creator_create _ name (heap w')) as [c h]. simpl.
    by rewrite Hc, Hn, Hl. }
  destruct cache; lazy beta iota; unfold stored_in;
    try (unfold ret at 1, read; lazy beta iota;
         destruct (get_elem (heap w) _ name) as [st|e]; [by apply Hrest|done]).
  (* the default parameter *)
  unfold alloc, read, get_elem. lazy beta iota. cbn [heap snd].
  destruct (to_key name) as [k|e]; [|done].
  simpl. rewrite list_lookup_middle by done. simpl.
  destruct (truthy (lookup_prop k [])); [done|].
  unfold call_heap. simpl. by destruct (creator_create _ name _).
Qed.

Lemma triple_getCollection F Inv this name a :
  env_stable Inv ->
  triple F Inv (getCollection this name (hd VUndefined a))
         (fun v w => rel_collection name (heap w) (calls w) a v).
Proof.
  intros HI. apply triple_env; [done|]. intros w r w'.
  rewrite getCollection_run. set (cache := hd VUndefined a).
  set (w1 := match cache with VUndefined => _ | _ => w end).
  assert (Hw1 : heap w `prefix_of` heap w1 /\ cells w1 = cells w /\
                next_cell w1 = next_cell w /\ calls w1 = calls w).
  { unfold w1. destruct cache; simpl; try done. split; [|done].
    by apply prefix_app_r. }
  destruct Hw1 as (Hh1 & Hc1 & Hn1 & Hl1). simpl.
  destruct (stored_in (heap w) cache name) as [st|e] eqn:Est.
  2:{ intros [= <- <-]. split; [done|]. split; [exists []; by rewrite Hl1|].
      split; [done|]. split; [done|]. intros ? [=]. }
  destruct (truthy st) eqn:Et.
  - intros [= <- <-]. split; [done|]. split; [exists []; by rewrite Hl1|].
    split; [done|]. split; [done|]. intros v [= <-]. exists st.
    split; [by eapply stored_in_prefix|]. by rewrite Et.
  - pose proof (creator_mono (entityCollectionCreator this) name (heap w1)) as Hm.
    destruct (creator_create _ name (heap w1)) as [c h]. simpl in Hm.
    intros [= <- <-]. simpl. split; [by etrans|].
    split; [exists [EvCreate name c]; split; [done|by repeat constructor]|].
    split; [done|]. split; [done|]. intros v [= <-]. exists st.
    split; [eapply stored_in_prefix; [|done]; by etrans|].
    rewrite Et. left.
Qed.

Lemma returns_getCollection this name cache st h w :
  stored_in h cache name = Ok st -> h `prefix_of` heap w ->
  returns (getCollection this name cache) w.
Proof.
  intros Hst Hp. unfold returns. rewrite getCollection_run.
  rewrite (stored_in_prefix _ _ _ _ _ Hp Hst). simpl.
  destruct (truthy st); [eauto|].
  destruct (creator_create _ _ _) as [c h']. eauto.
Qed.

Lemma accessor_Spec_wf f0 a0 cacheName name :
  2 + f0 <= a0 -> wf_spec (accessor_Spec f0 a0 cacheName name).
Proof.
  intros Hlt. split.
  - intros p [->| ->]; simpl; lia.
  - intros p [->| ->]; each_input; auto using stable_field, stable_cache.
  - intros p [->| ->]; simpl; auto using stable_identity, stable_collection.
  - intros p q c [->| ->] [->| ->]; unfold ps_has; simpl;
      intros [H1|H1] [H2|H2]; try lia; done.
Qed.

(** The build of the factory establishes the invariant of its feature
    selector, and the build of an accessor that of the accessor. *)
Lemma built_feature_inv cacheName w0 w1 :
  built 2 w0 w1 -> ps_inv (ps_feature (next_cell w0) cacheName) w1.
Proof.
  intros Hb. apply pair_inv_empty; apply (bu_new _ _ _ Hb); simpl; lia.
Qed.

Lemma built_accessor_inv f0 cacheName name wa w2 :
  built 2 wa w2 -> 2 + f0 <= next_cell wa ->
  ps_inv (ps_feature f0 cacheName) wa ->
  accessor_inv f0 (next_cell wa) cacheName name w2.
Proof.
  intros Hb Hlt Hfeat p [->| ->].
  - eapply pair_inv_frame; [| |exact Hfeat| | | |].
    + each_input. apply stable_field.
    + apply stable_identity.
    + by rewrite (bu_heap _ _ _ Hb).
    + by rewrite (bu_calls _ _ _ Hb).
    + apply (bu_old _ _ _ Hb). simpl. lia.
    + apply (bu_old _ _ _ Hb). simpl. lia.
  - apply pair_inv_empty; apply (bu_new _ _ _ Hb); simpl; lia.
Qed.

Section accessor_rules.
Context (Spec : pspec -> Prop) (Hwf : wf_spec Spec).
Context (f0 a0 : nat) (cacheName : string) (creator : Creator) (name : val).
Context (F : nat -> Prop).
Hypothesis Hsub : forall p, accessor_Spec f0 a0 cacheName name p -> Spec p.
Hypothesis HF : forall c, fp_accessor f0 a0 c -> F c.

Let Inv := inv_of Spec.
Let this := mk_factory f0 cacheName creator.

Lemma triple_feature s :
  triple F Inv (selectEntityCache this s)
    (fun v w => rel_cache cacheName (heap w) (calls w) s v).
Proof using All.
  eapply triple_mono;
    [| |apply (spec_triple Spec (ps_feature f0 cacheName) F
                 [field cacheName] identity_projector)]; auto.
  - by intros v w [? _].
  - apply Hsub. by left.
  - apply HF. unfold fp_accessor. simpl. lia.
  - apply HF. unfold fp_accessor. simpl. lia.
  - each_input. intros s'. apply triple_field. by apply inv_of_env.
  - intros s' args. apply triple_weaken_pre, triple_identity.
    by apply inv_of_env.
Qed.

Lemma returns_feature s h w v :
  Inv w -> get_prop h s cacheName = Ok v -> h `prefix_of` heap w ->
  returns (selectEntityCache this s) w.
Proof using All.
  intros Hw Hv Hp.
  apply (spec_returns Spec (ps_feature f0 cacheName) F);
    [exact Hwf| | | | | |exact Hw| |].
  - apply Hsub. by left.
  - apply HF. unfold fp_accessor. simpl. lia.
  - apply HF. unfold fp_accessor. simpl. lia.
  - each_input. intros s'. apply triple_field. by apply inv_of_env.
  - intros s' args. apply triple_weaken_pre, triple_identity.
    by apply inv_of_env.
  - each_input. intros w' Hev _. eapply returns_field; [exact Hv|].
    etrans; [exact Hp|apply Hev].
  - intros args w' _ _ _. by exists (hd VUndefined args), w'.
Qed.

Lemma triple_accessor s :
  triple F Inv (sel_collection this a0 name s)
    (fun v w => rel_accessor cacheName name (heap w) (calls w) s v /\
                cells w !! (1 + a0) = Some ([s], v)).
Proof using All.
  apply (spec_triple Spec (ps_accessor a0 cacheName name) F);
    [exact Hwf| | | | |].
  - apply Hsub. by right.
  - apply HF. unfold fp_accessor. simpl. lia.
  - apply HF. unfold fp_accessor. simpl. lia.
  - each_input. apply triple_feature.
  - intros s' args. apply triple_weaken_pre, triple_getCollection.
    by apply inv_of_env.
Qed.

(** The accessor returns on every state it can read, and what it returns
    is what is stored when that is truthy, else a collection the Creator
    made for this name. *)
Lemma accessor_value s w st :
  Inv w -> state_view (heap w) s cacheName name = Some st ->
  exists v w',
    sel_collection this a0 name s w = (Ok v, w') /\
    evolves F w w' /\ Inv w' /\
    (if truthy st then v = st else EvCreate name v ∈ calls w') /\
    cells w' !! (1 + a0) = Some ([s], v).
Proof using All.
  intros Hw Hv.
  assert (exists cache, get_prop (heap w) s cacheName = Ok cache /\
                        stored_in (heap w) cache name = Ok st)
    as (cache & Hc & Hst).
  { unfold state_view in Hv.
    destruct (get_prop (heap w) s cacheName) as [cache|]; [|done].
    destruct (stored_in (heap w) cache name) as [st'|] eqn:E; [|done].
    injection Hv as <-. eauto. }
  assert (returns (sel_collection this a0 name s) w) as (v & w' & Hrun).
  { apply (spec_returns Spec (ps_accessor a0 cacheName name) F);
      [exact Hwf| | | | | |exact Hw| |].
    - apply Hsub. by right.
    - apply HF. unfold fp_accessor. simpl. lia.
    - apply HF. unfold fp_accessor. simpl. lia.
    - each_input. apply triple_feature.
    - intros s' args. apply triple_weaken_pre, triple_getCollection.
      by apply inv_of_env.
    - each_input. intros w' Hev Hw'.
      eapply returns_feature; [done|exact Hc|apply Hev].
    - intros args w' Hev _ Hin.
      apply rel_inputs_1 in Hin as (cache' & -> & Hc').
      apply rel_cache_inv in Hc'. simpl.
      assert (cache' = cache) as ->.
      { symmetry. eapply get_prop_det; [apply Hev|done|done]. }
      eapply returns_getCollection; [exact Hst|apply Hev]. }
  destruct (triple_accessor s w _ _ Hw Hrun) as (Hev & Hw' & HQ).
  destruct (HQ _ eq_refl) as [Hrel Hcell].
  exists v, w'. repeat (split; [done|]). split; [|done].
  eapply rel_accessor_view; [|exact Hrel].
  eapply state_view_prefix; [apply Hev|done].
Qed.
End accessor_rules.

(** ** The log of the Collection Creator *)

Lemma keeps_bind {A B} P (m : M A) (k : A -> M B) :
  keeps P m -> (forall a, keeps P (k a)) -> keeps P (bind m k).
Proof.
  intros Hm Hk w r w' Hrun HP.
  apply bind_run in Hrun as [(a & w1 & H1 & H2)|(e & H1 & _)].
  - apply (Hk a w1 r w' H2). by apply (Hm w _ w1 H1).
  - by apply (Hm w _ w' H1).
Qed.

Lemma keeps_mapM P (inputs : list selector) s :
  Forall (fun inp : selector => keeps P (inp s)) inputs ->
  keeps P (mapM (fun fn : selector => fn s) inputs).
Proof.
  induction 1 as [|inp inputs Hinp _ IH]; simpl.
  - by intros w r w' [= <- <-].
  - apply keeps_bind; [done|]. intros y. apply keeps_bind; [done|].
    intros ys. by intros w r w' [= <- <-].
Qed.

Lemma keeps_memoize P c t args :
  (forall a r w, P w -> P (store c a r w)) ->
  keeps P (t args) -> keeps P (memoize c t args).
Proof.
  intros Hst Ht w r w' Hrun HP. rewrite memoize_unfold in Hrun.
  assert (recompute c t args w = (r, w') -> P w') as Hrec.
  { unfold recompute. destruct (t args w) as [[v|e] w1] eqn:E; intros [= <- <-].
    - apply Hst. by apply (Ht w _ w1 E).
    - by apply (Ht w _ w1 E). }
  destruct (cells w !! c) as [[la lr]|]; [|by apply Hrec].
  destruct (args_changed args la); [by apply Hrec|]. by injection Hrun as <- <-.
Qed.

Lemma keeps_memoized_selector P cs cp inputs proj s :
  (forall c a r w, P w -> P (store c a r w)) ->
  (forall e w, P w -> P (tick (EvProject cp e) w).2) ->
  Forall (fun inp : selector => forall s, keeps P (inp s)) inputs ->
  (forall args, keeps P (proj args)) ->
  keeps P (memoized_selector cs cp inputs proj s).
Proof.
  intros Hst Htick Hin Hproj. unfold memoized_selector.
  apply keeps_memoize; [apply Hst|]. simpl.
  apply keeps_bind.
  - apply keeps_mapM. eapply Forall_impl; [exact Hin|]. intros inp H. apply H.
  - intros args. apply keeps_memoize; [apply Hst|].
    apply keeps_bind; [|intros _; apply Hproj].
    intros w r w' [= <- <-] HP. by apply Htick.
Qed.

Lemma creator_log_grow creator w w' :
  heap w `prefix_of` heap w' -> calls w' = calls w ->
  creator_log creator w -> creator_log creator w'.
Proof.
  intros Hp Hc Hlog n v Hin. rewrite Hc in Hin.
  destruct (Hlog n v Hin) as (h & Hv & Hh). exists h. split; [done|]. by etrans.
Qed.

Lemma creator_log_project creator c a w :
  creator_log creator w -> creator_log creator (tick (EvProject c a) w).2.
Proof.
  intros Hlog n v Hin. simpl in Hin. apply elem_of_cons in Hin as [[=]|Hin].
  by apply Hlog.
Qed.

Lemma keeps_field creator k c : keeps (creator_log creator) (field k c).
Proof. by intros w r w' [= <- <-]. Qed.

(** [getCollection] logs what the Creator returned, on the heap it ran on. *)
Lemma keeps_getCollection this name cache :
  keeps (creator_log (entityCollectionCreator this)) (getCollection this name cache).
Proof.
  intros w r w' Hrun Hlog. rewrite getCollection_run in Hrun. cbv zeta in Hrun.
  set (w1 := match cache with
             | VUndefined => (alloc (OObj []) w).2
             | _ => w
             end) in *.
  assert (creator_log (entityCollectionCreator this) w1 /\ calls w1 = calls w)
    as [Hlog1 Hc1].
  { subst w1. destruct cache; try done. split; [|done].
    eapply creator_log_grow; [| |exact Hlog]; [by apply prefix_app_r|done]. }
  destruct (stored_in (heap w) cache name) as [st|e]; [|by injection Hrun as <- <-].
  destruct (truthy st); [by injection Hrun as <- <-|].
  pose proof (creator_mono (entityCollectionCreator this) name (heap w1)) as Hm.
  destruct (creator_create (entityCollectionCreator this) name (heap w1))
    as [c h] eqn:Ec.
  injection Hrun as <- <-. simpl in Hm.
  intros n v Hin. simpl in Hin |- *. apply elem_of_cons in Hin as [[= -> ->]|Hin].
  - exists (heap w1). by rewrite Ec.
  - rewrite <- Hc1 in Hin. destruct (Hlog1 n v Hin) as (h0 & Hv & Hh).
    exists h0. split; [done|]. by etrans.
Qed.

Lemma keeps_accessor f0 a0 cacheName creator name s :
  keeps (creator_log creator)
    (sel_collection (mk_factory f0 cacheName creator) a0 name s).
Proof.
  apply keeps_memoized_selector.
  - intros c a r w H. exact H.
  - intros e w. apply creator_log_project.
  - each_input. intros s'. apply keeps_memoized_selector.
    + intros c a r w H. exact H.
    + intros e w. apply creator_log_project.
    + each_input. intros ?. apply keeps_field.
    + intros args w r w' [= <- <-]. done.
  - intros args. apply (keeps_getCollection (mk_factory f0 cacheName creator)).
Qed.

Lemma foldM_add_root sc ms keys acc w :
  exists w',
    foldM (add_root sc ms) acc keys w =
      (Ok (root_entries sc ms (next_cell w) keys acc), w') /\
    built (2 * length keys) w w'.
Proof.
  revert acc w. induction keys as [|k keys IH]; intros acc w; simpl.
  - exists w. split; [done|apply built_refl].
  - unfold bind, add_root at 1, bind.
    destruct (createSelector_run [sc] (as_projector (assoc k ms)) w)
      as (w1 & E1 & B1).
    rewrite E1. unfold ret.
    destruct (IH (obj_set k (memoized_selector (1 + next_cell w) (next_cell w)
                               [sc] (as_projector (assoc k ms))) acc) w1)
      as (w' & E & B).
    rewrite (bu_next _ _ _ B1) in E. exists w'. split; [exact E|].
    replace (S (length keys + S (length keys + 0))) with (2 * length keys + 2) by lia.
    by eapply built_trans.
Qed.

Lemma root_entries_other sc ms n keys acc k :
  k ∉ keys -> assoc k (root_entries sc ms n keys acc) = assoc k acc.
Proof.
  revert n acc. induction keys as [|k' keys IH]; intros n acc Hk; simpl; [done|].
  apply not_elem_of_cons in Hk as [Hne Hk].
  rewrite IH by done. by apply assoc_obj_set_ne.
Qed.

Lemma root_entries_assoc sc ms n keys acc i k :
  NoDup keys -> keys !! i = Some k ->
  assoc k (root_entries sc ms n keys acc) =
  Some (memoized_selector (1 + (2 * i + n)) (2 * i + n) [sc]
          (as_projector (assoc k ms))).
Proof.
  revert n acc i. induction keys as [|k' keys IH]; intros n acc i Hnd; [done|].
  apply NoDup_cons in Hnd as [Hk' Hnd]. destruct i as [|i]; simpl.
  - intros [= ->]. rewrite root_entries_other by done.
    by rewrite assoc_obj_set_eq.
  - intros Hi. rewrite (IH _ _ i Hnd Hi).
    replace (2 * i + S (S n)) with (S (i + S (i + 0) + n)) by lia. done.
Qed.

Lemma root_entries_NoDup sc ms n keys acc :
  NoDup (map fst acc) -> NoDup (map fst (root_entries sc ms n keys acc)).
Proof.
  revert n acc. induction keys as [|k keys IH]; intros n acc Hacc; simpl; [done|].
  apply IH. by apply obj_set_NoDup.
Qed.

(** [create] in closed form. *)
Lemma create_run this md w :
  exists w',
    create this md w =
      (result_map (root_set this (next_cell w) md)
                  (member_specs (2 + next_cell w) md), w') /\
    forall specs, member_specs (2 + next_cell w) md = Ok specs ->
      built (2 * length specs + member_size md + 2) w w'.
Proof.
  unfold create, bind.
  destruct (createCollectionSelector_run this (entityName md) w) as (w1 & E1 & B1).
  rewrite E1.
  destruct (createCollectionSelectors_run md w1) as (w2 & E2 & B2).
  rewrite E2, (bu_next _ _ _ B1).
  destruct (member_specs (2 + next_cell w) md) as [specs|e] eqn:Es; simpl.
  - destruct (foldM_add_root (sel_collection this (next_cell w) (entityName md))
                (map_vals fst specs) (Object_keys (map_vals fst specs)) [] w2)
      as (w3 & E3 & B3).
    rewrite E3. unfold ret. exists w3. split.
    + unfold root_set, root_base. rewrite (bu_next _ _ _ B2), (bu_next _ _ _ B1).
      unfold Object_keys. by rewrite keys_map_vals.
    + intros ? [= <-]. unfold Object_keys in B3.
      rewrite length_map in B3. unfold map_vals in B3. rewrite length_map in B3.
      assert (built (2 * length specs + (member_size md + 2)) w w3) as Hb.
      { eapply built_trans; [|exact B3]. eapply built_trans; [exact B1|exact B2]. }
      match goal with
      | |- built ?k _ _ =>
          replace k with (2 * length specs + (member_size md + 2)) by lia
      end. exact Hb.
  - exists w2. split; [done|]. intros ? [=].
Qed.

Lemma selector_name_select k n :
  selector_name k = Ok n -> exists rest, n = "select" +:+ rest.
Proof. destruct k; [done|]. intros [= <-]. eauto. Qed.

Lemma declared_for_not_select name keys :
  (forall rest, name <> "select" +:+ rest) -> declared_for name keys = None.
Proof.
  intros H. apply declared_for_None. apply Forall_forall. intros k _ Hk.
  apply selector_name_select in Hk as (rest & ->). by eapply H.
Qed.

Section root_lookup.
Context (this : EntitySelectorsFactory) (a0 : nat) (md : EntityMetadata).
Context (specs : list (string * spec_sel)).
Hypothesis Hspecs : member_specs (2 + a0) md = Ok specs.

Let sc := sel_collection this a0 (entityName md).
Let entries :=
  root_entries sc (map_vals fst specs) (root_base a0 md) (map fst specs) [].

Lemma entries_NoDup : NoDup (map fst (map_vals ESel entries)).
Proof using Type.
  rewrite keys_map_vals. apply root_entries_NoDup. constructor.
Qed.

(** Every member derivation has its root derivation under its name. *)
Lemma root_set_member i k ss :
  specs !! i = Some (k, ss) ->
  assoc k (root_set this a0 md specs) = Some (ESel (root_sel this a0 md i (fst ss))).
Proof using Hspecs.
  intros Hi. pose proof (member_specs_NoDup _ _ _ Hspecs) as Hnd.
  unfold root_set. rewrite assoc_spread by apply entries_NoDup.
  rewrite assoc_map_vals.
  rewrite (root_entries_assoc _ _ _ _ _ i k Hnd).
  2:{ by rewrite list_lookup_fmap, Hi. }
  simpl. rewrite assoc_map_vals, (assoc_lookup i k ss specs Hnd Hi). done.
Qed.

Lemma root_set_other k :
  assoc k specs = None ->
  assoc k (root_set this a0 md specs) =
  assoc k [("entityName", EVal (entityName md)); ("selectCollection", ESel sc)].
Proof using Type.
  intros Hk. unfold root_set. rewrite assoc_spread by apply entries_NoDup.
  rewrite assoc_map_vals, root_entries_other; [done|].
  by apply assoc_None.
Qed.

Lemma root_set_entityName :
  assoc "entityName" (root_set this a0 md specs) = Some (EVal (entityName md)).
Proof using Hspecs.
  rewrite root_set_other; [done|].
  rewrite (member_specs_assoc _ _ _ "entityName" Hspecs).
  rewrite declared_for_not_select; [done|]. intros rest. discriminate.
Qed.

Lemma root_set_selectCollection :
  declared_for "selectCollection" (extra_keys md) = None ->
  assoc "selectCollection" (root_set this a0 md specs) = Some (ESel sc).
Proof using Hspecs.
  intros Hd. rewrite root_set_other; [done|].
  by rewrite (member_specs_assoc _ _ _ "selectCollection" Hspecs), Hd.
Qed.

(** And there is nothing else in the set. *)
Lemma root_set_entries k en :
  assoc k (root_set this a0 md specs) = Some en ->
  en = EVal (entityName md) \/ en = ESel sc \/
  exists i ss, specs !! i = Some (k, ss) /\
               en = ESel (root_sel this a0 md i (fst ss)).
Proof using Hspecs.
  intros Hk. destruct (assoc k specs) as [ss|] eqn:Ea.
  - apply assoc_Some_elem, list_elem_of_lookup in Ea as (i & Hi).
    rewrite (root_set_member i k ss Hi) in Hk. injection Hk as <-.
    right. right. eauto.
  - rewrite (root_set_other k Ea) in Hk. simpl in Hk.
    destruct (String.eqb k "entityName"); [injection Hk as <-; by left|].
    destruct (String.eqb k "selectCollection"); [injection Hk as <-|done].
    right. by left.
Qed.
End root_lookup.

Lemma member_specs_stable e0 md specs :
  member_specs e0 md = Ok specs ->
  Forall (fun kv => stable (snd (snd kv))) specs.
Proof.
  unfold member_specs.
  destruct (extra_specs (extra_keys md) []) as [ex|] eqn:Ex; [|done].
  intros [= <-].
  apply (Forall_spread (fun ss : spec_sel => stable (snd ss))).
  - unfold member_builtin. each_input; simpl;
      auto using stable_field, stable_selectEntities, stable_selectCount.
    destruct (filterFn md); simpl;
      auto using stable_selectEntities, stable_selectFiltered.
  - eapply (Forall_extra_specs (fun ss : spec_sel => stable (snd ss)));
      [|constructor|exact Ex]. intros k. apply stable_field.
Qed.

Lemma root_Spec_wf f0 a0 cacheName md :
  2 + f0 <= a0 -> wf_spec (root_Spec f0 a0 cacheName md).
Proof.
  intros Hlt.
  pose proof (accessor_Spec_wf f0 a0 cacheName (entityName md) Hlt) as Wa.
  pose proof (member_Spec_wf (2 + a0) md) as Wm.
  pose proof (member_size_ge md) as Hsz.
  assert (Hacc : forall p c, accessor_Spec f0 a0 cacheName (entityName md) p ->
                             ps_has p c -> fp_accessor f0 a0 c).
  { intros p c [->| ->] [->| ->]; unfold fp_accessor; simpl; lia. }
  assert (Hmem : forall p c, member_Spec (2 + a0) md p -> ps_has p c ->
                             fp_member (2 + a0) md c).
  { intros p c [->|[->|(f & Hf & ->)]] [->| ->]; unfold fp_member; simpl;
      try lia; unfold member_size; rewrite Hf; lia. }
  split.
  - intros p [H|[H|(specs & i & k & ss & _ & _ & ->)]];
      [by apply (wf_ne _ Wa)|by apply (wf_ne _ Wm)|simpl; lia].
  - intros p [H|[H|(specs & i & k & ss & _ & _ & ->)]];
      [by apply (wf_stable_in _ Wa)|by apply (wf_stable_in _ Wm)|].
    each_input. apply stable_accessor.
  - intros p [H|[H|(specs & i & k & ss & Hs & Hi & ->)]];
      [by apply (wf_stable_p _ Wa)|by apply (wf_stable_p _ Wm)|].
    simpl. apply stable_apply.
    pose proof (member_specs_stable _ _ _ Hs) as HS.
    rewrite Forall_forall in HS.
    apply (HS (k, ss)). by eapply list_elem_of_lookup_2.
  - intros p q c [Hp|[Hp|(specs & i & k & ss & Hs & Hi & ->)]]
                 [Hq|[Hq|(specs' & j & k' & ss' & Hs' & Hj & ->)]] Hpc Hqc.
    + by apply (wf_disj _ Wa p q c).
    + apply (Hacc _ _ Hp) in Hpc. apply (Hmem _ _ Hq) in Hqc.
      unfold fp_accessor, fp_member in *. lia.
    + apply (Hacc _ _ Hp) in Hpc. unfold fp_accessor, ps_has, root_base in *.
      simpl in *. lia.
    + apply (Hacc _ _ Hq) in Hqc. apply (Hmem _ _ Hp) in Hpc.
      unfold fp_accessor, fp_member in *. lia.
    + by apply (wf_disj _ Wm p q c).
    + apply (Hmem _ _ Hp) in Hpc. unfold fp_member, ps_has, root_base in *.
      simpl in *. lia.
    + apply (Hacc _ _ Hq) in Hqc. unfold fp_accessor, ps_has, root_base in *.
      simpl in *. lia.
    + apply (Hmem _ _ Hq) in Hqc. unfold fp_member, ps_has, root_base in *.
      simpl in *. lia.
    + assert (i = j) as <- by (unfold ps_has in *; simpl in *; lia).
      rewrite Hs in Hs'. injection Hs' as <-. rewrite Hi in Hj.
      by injection Hj as <- <-.
Qed.

Lemma built_root_inv f0 a0 cacheName md specs wa w2 :
  member_specs (2 + a0) md = Ok specs ->
  built (2 * length specs + member_size md + 2) wa w2 ->
  a0 = next_cell wa -> 2 + f0 <= a0 ->
  ps_inv (ps_feature f0 cacheName) wa ->
  root_inv f0 a0 cacheName md w2.
Proof.
  intros Hs Hb -> Hlt Hfeat p Hp. pose proof (member_size_ge md) as Hsz.
  destruct Hp as [[->| ->]|[Hp|(specs' & i & k' & ss & Hs' & Hi & ->)]].
  - eapply pair_inv_frame; [| |exact Hfeat| | | |].
    + each_input. apply stable_field.
    + apply stable_identity.
    + by rewrite (bu_heap _ _ _ Hb).
    + by rewrite (bu_calls _ _ _ Hb).
    + apply (bu_old _ _ _ Hb). simpl. lia.
    + apply (bu_old _ _ _ Hb). simpl. lia.
  - apply pair_inv_empty; apply (bu_new _ _ _ Hb); simpl; lia.
  - assert (forall c, ps_has p c -> fp_member (2 + next_cell wa) md c) as Hc.
    { intros c. destruct Hp as [->|[->|(f & Hf & ->)]]; intros [->| ->];
        unfold fp_member; simpl; try lia; unfold member_size; rewrite Hf; lia. }
    apply pair_inv_empty; apply (bu_new _ _ _ Hb).
    + specialize (Hc (ps_cs p) (or_introl eq_refl)). unfold fp_member in Hc. lia.
    + specialize (Hc (ps_cp p) (or_intror eq_refl)). unfold fp_member in Hc. lia.
  - rewrite Hs in Hs'. injection Hs' as <-. apply lookup_lt_Some in Hi.
    apply pair_inv_empty; apply (bu_new _ _ _ Hb); simpl; unfold root_base; lia.
Qed.

Section root_rules.
Context (f0 a0 : nat) (cacheName : string) (creator : Creator).
Context (md : EntityMetadata) (specs : list (string * spec_sel)).
Hypothesis Hlt : 2 + f0 <= a0.
Hypothesis Hspecs : member_specs (2 + a0) md = Ok specs.

Let name := entityName md.
Let Spec := root_Spec f0 a0 cacheName md.
Let Inv := inv_of Spec.
Let this := mk_factory f0 cacheName creator.
Let sc := sel_collection this a0 name.

Lemma root_wf : wf_spec Spec.
Proof using Hlt. by apply root_Spec_wf. Qed.

Lemma triple_root_accessor (F : nat -> Prop) s :
  (forall c, fp_accessor f0 a0 c -> F c) ->
  triple F Inv (sc s)
    (fun v w => rel_accessor cacheName name (heap w) (calls w) s v /\
                cells w !! (1 + a0) = Some ([s], v)).
Proof using Hlt.
  intros HF. apply (triple_accessor Spec root_wf f0 a0 cacheName creator name F);
    [|done]. intros p Hp. by left.
Qed.

Lemma root_accessor_value (F : nat -> Prop) s w st :
  (forall c, fp_accessor f0 a0 c -> F c) ->
  Inv w -> state_view (heap w) s cacheName name = Some st ->
  exists v w',
    sc s w = (Ok v, w') /\ evolves F w w' /\ Inv w' /\
    (if truthy st then v = st else EvCreate name v ∈ calls w') /\
    cells w' !! (1 + a0) = Some ([s], v).
Proof using Hlt.
  intros HF. apply (accessor_value Spec root_wf f0 a0 cacheName creator name F);
    [|done]. intros p Hp. by left.
Qed.

Lemma triple_root_member (F : nat -> Prop) i k ss c :
  specs !! i = Some (k, ss) ->
  (forall c, fp_member (2 + a0) md c -> F c) ->
  triple F Inv (fst ss c) (fun v w => snd ss (heap w) (calls w) c v).
Proof using Hlt Hspecs.
  intros Hi HF.
  pose proof (good_members Spec root_wf (2 + a0) md F
                (fun p Hp => or_intror (or_introl Hp)) HF specs Hspecs) as Hg.
  rewrite Forall_forall in Hg.
  destruct (Hg (k, ss)) as [_ Ht]; [by eapply list_elem_of_lookup_2|].
  apply Ht.
Qed.

Lemma root_Spec_root i k ss :
  specs !! i = Some (k, ss) ->
  Spec (ps_root (root_base a0 md) cacheName name i (snd ss)).
Proof using Hspecs. intros Hi. right. right. by exists specs, i, k, ss. Qed.

(** The value of a root derivation at a state is the member derivation's
    at a collection the accessor gives for that state. *)
Lemma triple_root i k ss s :
  specs !! i = Some (k, ss) ->
  triple (fp_root f0 a0 md i) Inv (root_sel this a0 md i (fst ss) s)
    (fun v w =>
       (exists col, rel_accessor cacheName name (heap w) (calls w) s col /\
                    snd ss (heap w) (calls w) col v) /\
       cells w !! (1 + (2 * i + root_base a0 md)) = Some ([s], v)).
Proof using Hlt Hspecs.
  intros Hi.
  eapply triple_mono;
    [| |apply (spec_triple Spec (ps_root (root_base a0 md) cacheName name i (snd ss))
                 (fp_root f0 a0 md i) [sc] (as_projector (Some (fst ss))))].
  - auto.
  - intros v w [(args & Hin & Hp) Hc]. split; [|done].
    apply rel_inputs_1 in Hin as (col & -> & Hcol). by exists col.
  - apply root_wf.
  - by eapply root_Spec_root.
  - simpl. unfold fp_root. auto.
  - simpl. unfold fp_root. auto.
  - each_input. intros s'. eapply triple_mono; [| |apply triple_root_accessor].
    + intros c Hc. exact Hc.
    + by intros v w [? _].
    + intros c Hc. by left.
  - intros s' args. apply triple_weaken_pre. simpl.
    eapply triple_mono; [| |apply (triple_root_member _ i k ss _ Hi)].
    + intros c Hc. exact Hc.
    + by intros v w H.
    + intros c Hc. right. by left.
Qed.

(** A root derivation returns where the accessor and the member
    derivation do. *)
Lemma returns_root i k ss s w :
  specs !! i = Some (k, ss) -> Inv w ->
  (forall w', evolves (fp_root f0 a0 md i) w w' -> Inv w' -> returns (sc s) w') ->
  (forall col w', evolves (fp_root f0 a0 md i) w w' -> Inv w' ->
     rel_accessor cacheName name (heap w') (calls w') s col ->
     returns (fst ss col) w') ->
  returns (root_sel this a0 md i (fst ss) s) w.
Proof using Hlt Hspecs.
  intros Hi Hw Hacc Hmem.
  apply (spec_returns Spec (ps_root (root_base a0 md) cacheName name i (snd ss))
           (fp_root f0 a0 md i) [sc] (as_projector (Some (fst ss))));
    [apply root_wf|by eapply root_Spec_root| | | | |exact Hw| |].
  - simpl. unfold fp_root. auto.
  - simpl. unfold fp_root. auto.
  - each_input. intros s'. eapply triple_mono; [| |apply triple_root_accessor].
    + intros c Hc. exact Hc.
    + by intros v w0 [? _].
    + intros c Hc. by left.
  - intros s' args. apply triple_weaken_pre. simpl.
    eapply triple_mono; [| |apply (triple_root_member _ i k ss _ Hi)].
    + intros c Hc. exact Hc.
    + by intros v w0 H.
    + intros c Hc. right. by left.
  - each_input. exact Hacc.
  - intros args w' Hev Hw' Hin.
    apply rel_inputs_1 in Hin as (col & -> & Hcol). simpl. by apply Hmem.
Qed.
End root_rules.

Lemma create_ok cacheName creator w0 this w1 md wa rs w2 :
  constructor cacheName creator w0 = (Ok this, w1) ->
  create this md wa = (Ok rs, w2) ->
  this = mk_factory (next_cell w0) cacheName creator /\
  exists specs,
    member_specs (2 + next_cell wa) md = Ok specs /\
    rs = root_set this (next_cell wa) md specs /\
    built (2 * length specs + member_size md + 2) wa w2.
Proof.
  intros Hthis Hrs.
  destruct (constructor_run cacheName creator w0) as (w1' & E1 & _).
  rewrite E1 in Hthis. injection Hthis as <- <-. split; [done|].
  destruct (create_run (mk_factory (next_cell w0) cacheName creator) md wa)
    as (w2' & E2 & Hb).
  rewrite E2 in Hrs.
  destruct (member_specs (2 + next_cell wa) md) as [specs|]; [|done].
  injection Hrs as <- <-. exists specs. auto.
Qed.

(** The member derivation set [create] composes is the one
    [createCollectionSelectors] returns there. *)
Lemma create_parts this md wa specs :
  member_specs (2 + next_cell wa) md = Ok specs ->
  exists wb wc,
    createCollectionSelector this (entityName md) wa =
      (Ok (sel_collection this (next_cell wa) (entityName md)), wb) /\
    createCollectionSelectors md wb = (Ok (map_vals fst specs), wc).
Proof.
  intros Hs.
  destruct (createCollectionSelector_run this (entityName md) wa) as (wb & E1 & B1).
  destruct (createCollectionSelectors_run md wb) as (wc & E2 & _).
  rewrite (bu_next _ _ _ B1), Hs in E2. by exists wb, wc.
Qed.

Lemma field_again k : memoized_on_identity (field k).
Proof.
  intros s w v w'. unfold field, read. intros [= H <-]. by rewrite H.
Qed.

Lemma memoized_again cs cp inputs proj :
  memoized_on_identity (memoized_selector cs cp inputs proj).
Proof. intros s w v w'. apply memoized_selector_again. Qed.

Lemma member_specs_again e0 md specs :
  member_specs e0 md = Ok specs ->
  Forall (fun kv => memoized_on_identity (fst (snd kv))) specs.
Proof.
  unfold member_specs.
  destruct (extra_specs (extra_keys md) []) as [ex|] eqn:Ex; [|done].
  intros [= <-].
  apply (Forall_spread (fun ss : spec_sel => memoized_on_identity (fst ss))).
  - unfold member_builtin. each_input; simpl;
      try apply field_again;
      try (intros s w v w'; apply memoized_selector_again).
    destruct (filterFn md); intros s w v w'; apply memoized_selector_again.
  - eapply (Forall_extra_specs (fun ss : spec_sel => memoized_on_identity (fst ss)));
      [|constructor|exact Ex]. intros k. apply field_again.
Qed.

(** A state miss whose single input gives the argument the projector's cell
    holds: the stored result is reused and the projector does not run. *)
Lemma memo_reuse cs cp (inp : selector) proj s w y w3 v :
  (forall la lr, cells w !! cs = Some (la, lr) -> args_changed [s] la = true) ->
  inp s w = (Ok y, w3) -> cells w3 !! cp = Some ([y], v) ->
  memoized_selector cs cp [inp] proj s w = (Ok v, store cs [s] v w3).
Proof.
  intros Hmiss Hin Hcp. unfold memoized_selector. rewrite memoize_unfold.
  assert (recompute cs
            (fun st => let state := hd VUndefined st in
                       args <- mapM (fun fn : selector => fn state) [inp];;
                       memoize cp (fun a => tick (EvProject cp a);;; proj a) args)
            [s] w = (Ok v, store cs [s] v w3)) as Hrec.
  { unfold recompute. simpl. unfold bind at 1. unfold bind at 1. rewrite Hin.
    unfold bind at 1. unfold ret at 1. unfold ret at 1.
    rewrite memoize_unfold, Hcp. simpl.
    unfold strict_eq. by rewrite bool_decide_eq_true_2. }
  destruct (cells w !! cs) as [[la lr]|] eqn:Ecs; [|done].
  by rewrite (Hmiss _ _ eq_refl).
Qed.

Lemma hero_member_inv md :
  member_inv 0 md (createCollectionSelectors md hero_world).2.
Proof.
  destruct (createCollectionSelectors_run md hero_world) as (w' & E & Hb).
  rewrite E. by apply (built_member_inv md (member_size md) hero_world).
Defined.

Lemma hero_accessor_inv name :
  accessor_inv 0 2 "entityCache" name
    (createCollectionSelector hero_factory name factory_world).2.
Proof.
  intros p [->| ->]; apply pair_inv_empty; reflexivity.
Defined.

Lemma hero_constructor :
  constructor "entityCache" empty_creator hero_world = (Ok hero_factory, factory_world).
Proof. reflexivity. Defined.

Lemma hero_create md specs :
  member_specs 4 md = Ok specs ->
  create hero_factory md factory_world =
    (Ok (root_set hero_factory 2 md specs), root_world md).
Proof.
  intros Hs. unfold root_world.
  destruct (create_run hero_factory md factory_world) as (w' & E & _).
  rewrite E. change (2 + next_cell factory_world) with 4. by rewrite Hs.
Defined.

Lemma hero_root_inv md specs :
  member_specs 4 md = Ok specs ->
  root_inv 0 2 "entityCache" md (root_world md).
Proof.
  intros Hs. unfold root_world.
  destruct (create_run hero_factory md factory_world) as (w' & E & Hb).
  rewrite E. apply (built_root_inv 0 2 "entityCache" md specs factory_world).
  - exact Hs.
  - by apply Hb.
  - reflexivity.
  - lia.
  - apply pair_inv_empty; reflexivity.
Defined.

Lemma hero_specs f :
  member_specs 4 (hero_md f None) = Ok (member_builtin 4 (hero_md f None)).
Proof. reflexivity. Defined.

Lemma hero_filtered_run :
  sel_filtered 0 name_filter (VRef 5)
    (createCollectionSelectors (hero_md (Some name_filter) None) hero_world).2 =
  (Ok (VRef 12),
   (sel_filtered 0 name_filter (VRef 5)
      (createCollectionSelectors (hero_md (Some name_filter) None) hero_world).2).2).
Proof. vm_compute. reflexivity. Defined.

Lemma hero_members md specs :
  member_specs 0 md = Ok specs ->
  createCollectionSelectors md hero_world =
    (Ok (map_vals fst specs), (createCollectionSelectors md hero_world).2).
Proof.
  intros Hs. destruct (createCollectionSelectors_run md hero_world) as (w' & E & _).
  rewrite E. change (next_cell hero_world) with 0. by rewrite Hs.
Defined.

(** * The claims *)

(** C1: on a well-formed collection [c], in every world the member
    derivations can be in, [selectEntities(c)] is the array of the entities
    found in [selectEntityMap(c)] under the keys of [selectKeys(c)], in key
    order; its length is that of the keys and equals [selectCount(c)], and
    its [n]-th element is [selectEntityMap(c)[selectKeys(c)[n]]]. *)
Theorem C1_entities_follow_keys md w0 ms w1 w c i e keys em :
  createCollectionSelectors md w0 = (Ok ms, w1) ->
  member_inv (next_cell w0) md w ->
  collection_view (heap w) c = Some (i, e, keys, em) ->
  let e0 := next_cell w0 in
  (forall name sel,
     (name, sel) ∈ [("selectKeys", field "ids");
                    ("selectEntityMap", field "entities");
                    ("selectEntities", sel_entities e0);
                    ("selectCount", sel_count e0)] ->
     declared_for name (extra_keys md) = None -> assoc name ms = Some sel) /\
  exists r vals w2 w3,
    field "ids" c w = (Ok (VRef i), w) /\
    field "entities" c w = (Ok (VRef e), w) /\
    sel_entities e0 c w = (Ok (VRef r), w2) /\
    heap w2 !! r = Some (OArr vals) /\
    vals = map (entity_at em) keys /\
    sel_count e0 c w2 = (Ok (VNum (Z.of_nat (length keys))), w3) /\
    member_inv e0 md w2 /\ member_inv e0 md w3 /\
    length vals = length keys /\
    forall n k, keys !! n = Some k ->
      exists v, vals !! n = Some v /\ get_elem (heap w) (VRef e) k = Ok v.
Proof.
  intros Hb Hw Hc e0. split.
  - intros name sel Hin Hd.
    assert (exists ss, assoc name (member_builtin e0 md) = Some ss /\ fst ss = sel)
      as (ss & Hss & <-).
    { rewrite !elem_of_cons in Hin.
      destruct Hin as [[= -> ->]|[[= -> ->]|[[= -> ->]|[[= -> ->]|Hin]]]];
        [..|by apply elem_of_nil in Hin]; simpl; eauto. }
    by eapply member_lookup_builtin.
  - pose proof (member_Spec_wf e0 md) as Hwf.
    destruct (collection_view_inv _ _ _ _ _ _ Hc) as (Hids & Hents & Hi & He & Hk).
    destruct (sel_entities_value (member_Spec e0 md) Hwf e0 md (fp_member e0 md)
                (fun p H => H) (fun c H => H) c w i e keys em Hw Hc)
      as (r & w2 & Hrun & Hev & Hw2 & Hr & _).
    assert (Hc2 : collection_view (heap w2) c = Some (i, e, keys, em)).
    { eapply collection_view_prefix; [apply Hev|done]. }
    destruct (sel_count_value (member_Spec e0 md) Hwf e0 md (fp_member e0 md)
                (fun p H => H) (fun c H => H) c w2 i e keys em Hw2 Hc2)
      as (w3 & Hrun3 & Hev3 & Hw3).
    exists r, (map (entity_at em) keys), w2, w3.
    unfold field, read. rewrite Hids, Hents.
    repeat (split; [done|]). split; [by rewrite length_map|].
    intros n k Hn. exists (entity_at em k). split.
    + by rewrite list_lookup_fmap, Hn.
    + apply get_elem_entity; [done|].
      rewrite forallb_forall in Hk. apply Hk.
      apply list_elem_of_In. by eapply list_elem_of_lookup_2.
Qed.

Lemma C1_witness :
  exists r vals w2,
    sel_entities 0 (VRef 5) (createCollectionSelectors (hero_md None None) hero_world).2
      = (Ok (VRef r), w2) /\
    heap w2 !! r = Some (OArr vals) /\ vals = [VRef 0; VRef 1].
Proof.
  destruct (C1_entities_follow_keys (hero_md None None) hero_world
              (match (createCollectionSelectors (hero_md None None) hero_world).1 with
               | Ok ms => ms
               | Err _ => []
               end)
              (createCollectionSelectors (hero_md None None) hero_world).2
              (createCollectionSelectors (hero_md None None) hero_world).2
              (VRef 5) 2 3 [VNum 1; VNum 2] [("1", VRef 0); ("2", VRef 1)])
    as (_ & r & vals & w2 & w3 & _ & _ & Hrun & Hr & Hv & _).
  - reflexivity.
  - apply hero_member_inv.
  - reflexivity.
  - exists r, vals, w2. split; [exact Hrun|]. split; [exact Hr|].
    rewrite Hv. reflexivity.
Defined.

(** C2 (as amended): on the states it can read (an object whose cache is
    absent or an object) the collection accessor built by
    [createCollectionSelector] returns, and there is no error: it returns
    what the cache gives under the type name when that is truthy (the
    stored collection), and otherwise a value that the Collection Creator
    returned for this type name, made of objects that are in the heap; the
    state it was given is left as it was, so a type absent from the stored
    cache is still absent after the call. *)
Theorem C2_accessor_returns cacheName creator name w0 this w1 wa sel w2 w s st :
  constructor cacheName creator w0 = (Ok this, w1) ->
  2 + next_cell w0 <= next_cell wa ->
  createCollectionSelector this name wa = (Ok sel, w2) ->
  accessor_inv (next_cell w0) (next_cell wa) cacheName name w ->
  creator_log creator w ->
  state_view (heap w) s cacheName name = Some st ->
  exists v w',
    sel s w = (Ok v, w') /\
    (if truthy st then v = st
     else EvCreate name v ∈ calls w' /\
          exists h, v = (creator_create creator name h).1 /\
                    (creator_create creator name h).2 `prefix_of` heap w') /\
    heap w `prefix_of` heap w' /\
    state_view (heap w') s cacheName name = Some st /\
    accessor_inv (next_cell w0) (next_cell wa) cacheName name w' /\
    creator_log creator w'.
Proof.
  intros Hthis Hlt Hsel Hw Hlog Hst.
  destruct (constructor_run cacheName creator w0) as (w1' & E1 & _).
  rewrite E1 in Hthis. injection Hthis as <- <-.
  destruct (createCollectionSelector_run
              (mk_factory (next_cell w0) cacheName creator) name wa)
    as (w2' & E2 & _).
  rewrite E2 in Hsel. injection Hsel as <- <-.
  destruct (accessor_value (accessor_Spec (next_cell w0) (next_cell wa) cacheName name)
              (accessor_Spec_wf _ _ _ _ Hlt) (next_cell w0) (next_cell wa)
              cacheName creator name (fp_accessor (next_cell w0) (next_cell wa))
              (fun p H => H) (fun c H => H) s w st Hw Hst)
    as (v & w' & Hrun & Hev & Hw' & Hv & _).
  pose proof (keeps_accessor _ _ _ _ _ _ _ _ _ Hrun Hlog) as Hlog'.
  exists v, w'. split; [done|]. split.
  { destruct (truthy st); [done|]. split; [done|]. by apply Hlog'. }
  split; [apply Hev|]. split; [|done].
  eapply state_view_prefix; [apply Hev|done].
Qed.

Lemma hero_villain_run :
  sel_collection hero_factory 2 (VStr "Villain") (VRef 7)
    (accessor_at hero_heap (VStr "Villain")) =
  (Ok (VRef 14),
   (sel_collection hero_factory 2 (VStr "Villain") (VRef 7)
      (accessor_at hero_heap (VStr "Villain"))).2).
Proof. vm_compute. reflexivity. Defined.

(** The heroes are stored; no villains are stored in the first state, and
    the accessor returns the empty collection the Creator makes at the end
    of the heap. *)
Lemma C2_witness :
  (exists w',
     sel_collection hero_factory 2 (VStr "Hero") (VRef 7)
       (accessor_at hero_heap (VStr "Hero")) = (Ok (VRef 5), w')) /\
  (exists w' h,
     sel_collection hero_factory 2 (VStr "Villain") (VRef 7)
       (accessor_at hero_heap (VStr "Villain")) = (Ok (VRef 14), w') /\
     VRef 14 = (empty_create (VStr "Villain") h).1 /\
     (empty_create (VStr "Villain") h).2 `prefix_of` heap w' /\
     state_view (heap w') (VRef 7) "entityCache" (VStr "Villain") = Some VUndefined).
Proof.
  split.
  - destruct (C2_accessor_returns "entityCache" empty_creator (VStr "Hero")
                (fresh hero_heap) hero_factory (factory_at hero_heap)
                (factory_at hero_heap)
                (sel_collection hero_factory 2 (VStr "Hero"))
                (accessor_at hero_heap (VStr "Hero"))
                (accessor_at hero_heap (VStr "Hero"))
                (VRef 7) (VRef 5))
      as (v & w' & Hrun & Hv & _).
    + reflexivity.
    + vm_compute. lia.
    + reflexivity.
    + intros p [->| ->]; apply pair_inv_empty; reflexivity.
    + intros n v Hin. by apply elem_of_nil in Hin.
    + reflexivity.
    + simpl in Hv. subst v. by exists w'.
  - destruct (C2_accessor_returns "entityCache" empty_creator (VStr "Villain")
                (fresh hero_heap) hero_factory (factory_at hero_heap)
                (factory_at hero_heap)
                (sel_collection hero_factory 2 (VStr "Villain"))
                (accessor_at hero_heap (VStr "Villain"))
                (accessor_at hero_heap (VStr "Villain"))
                (VRef 7) VUndefined)
      as (v & w' & Hrun & Hv & _ & Hst & _).
    + reflexivity.
    + vm_compute. lia.
    + reflexivity.
    + intros p [->| ->]; apply pair_inv_empty; reflexivity.
    + intros n v Hin. by apply elem_of_nil in Hin.
    + reflexivity.
    + simpl in Hv. destruct Hv as (_ & h & Hh1 & Hh2).
      rewrite hero_villain_run in Hrun. injection Hrun as <- <-.
      eexists _, h. split; [exact hero_villain_run|].
      split; [exact Hh1|]. split; [exact Hh2|exact Hst].
Defined.

(** Not every state and not every name: on a state whose cache is [null]
    the accessor throws a [TypeError]; and for the name [constructor], which
    the cache does not store, it returns what the cache object inherits and
    does not call the Collection Creator. *)
Lemma C2_counterexample :
  (exists w',
     sel_collection hero_factory 2 (VStr "Hero") (VRef 11)
       (accessor_at edge_heap (VStr "Hero")) = (Err TypeError, w')) /\
  (exists w',
     assoc "constructor" [("Hero", VRef 5)] = None /\
     sel_collection hero_factory 2 (VStr "constructor") (VRef 7)
       (accessor_at hero_heap (VStr "constructor")) =
       (Ok (VNative "constructor"), w') /\
     forall n v, EvCreate n v ∉ calls w').
Proof.
  split.
  - eexists. vm_compute. reflexivity.
  - eexists. split; [reflexivity|]. split; [vm_compute; reflexivity|].
    intros n v Hin. vm_compute in Hin.
    apply elem_of_cons in Hin as [[=]|Hin].
    apply elem_of_cons in Hin as [[=]|Hin]. by apply elem_of_nil in Hin.
Qed.

(** C3: every derivation of a root derivation set, every derivation of a
    member derivation set, and the collection accessor are memoized on the
    identity of their input: called again with the same input they return
    the same output and run nothing (no projector, and in particular not
    the Collection Creator: the call log is unchanged). *)
Theorem C3_memoized_on_identity cacheName creator md w0 this w1 wa rs w2 :
  constructor cacheName creator w0 = (Ok this, w1) ->
  create this md wa = (Ok rs, w2) ->
  (forall k sel, assoc k rs = Some (ESel sel) -> memoized_on_identity sel) /\
  (forall name wb sc wc,
     createCollectionSelector this name wb = (Ok sc, wc) ->
     memoized_on_identity sc /\
     forall s w v w', sc s w = (Ok v, w') ->
       exists w'', sc s w' = (Ok v, w'') /\ calls w'' = calls w') /\
  (forall wb ms wc k sel,
     createCollectionSelectors md wb = (Ok ms, wc) ->
     assoc k ms = Some sel -> memoized_on_identity sel).
Proof.
  intros Hthis Hrs. split; [|split].
  - destruct (create_ok _ _ _ _ _ _ _ _ _ Hthis Hrs) as (-> & specs & Hs & -> & _).
    intros k sel Hk.
    destruct (root_set_entries _ _ _ _ Hs k _ Hk) as [?|[[= ->]|(i & ss & _ & [= ->])]];
      [done| |]; intros s w v w'; apply memoized_selector_again.
  - intros name wb sc wc Hsc.
    destruct (createCollectionSelector_run this name wb) as (wc' & E & _).
    rewrite E in Hsc. injection Hsc as <- <-.
    split; [intros s w v w'; apply memoized_selector_again|].
    intros s w v w' Hrun. exists w'. split; [|done].
    by apply (memoized_selector_again _ _ _ _ s w).
  - intros wb ms wc k sel Hms Hk.
    apply createCollectionSelectors_ok in Hms as (specs & Hs & -> & _).
    rewrite assoc_map_vals in Hk.
    destruct (assoc k specs) as [ss|] eqn:Ea; [|done]. injection Hk as <-.
    pose proof (member_specs_again _ _ _ Hs) as HA. rewrite Forall_forall in HA.
    apply (HA (k, ss)). by apply assoc_Some_elem.
Qed.

Lemma C3_witness :
  memoized_on_identity (sel_collection hero_factory 2 (VStr "Hero")) /\
  forall w v w',
    sel_entities 4 (VRef 5) w = (Ok v, w') -> sel_entities 4 (VRef 5) w' = (Ok v, w').
Proof.
  destruct (C3_memoized_on_identity "entityCache" empty_creator (hero_md None None)
              hero_world hero_factory factory_world factory_world
              (root_set hero_factory 2 (hero_md None None)
                 (member_builtin 4 (hero_md None None)))
              (root_world (hero_md None None))
              hero_constructor (hero_create _ _ (hero_specs None)))
    as (_ & Hacc & Hmem).
  split.
  - apply (Hacc (VStr "Hero") factory_world _
             (createCollectionSelector hero_factory (VStr "Hero") factory_world).2).
    reflexivity.
  - destruct (createCollectionSelectors_run (hero_md None None)
                (createCollectionSelector hero_factory (VStr "Hero") factory_world).2)
      as (wc & E & _).
    change (next_cell (createCollectionSelector hero_factory (VStr "Hero")
                         factory_world).2) with 4 in E.
    rewrite hero_specs in E.
    apply (Hmem _ _ _ "selectEntities" (sel_entities 4) E). reflexivity.
Defined.

(** C4 (as amended): the root derivation set built by [create] holds the
    configured name under [entityName]; the collection accessor under
    [selectCollection], unless a declared field took that name; and, for
    every member derivation [m], under the same name a root derivation whose
    value at a state [s] is a value of [m] at a collection the accessor
    gives for [s], and which returns where the accessor and [m] do. *)
Theorem C4_root_composes_members cacheName creator md w0 this w1 wa rs w2 :
  constructor cacheName creator w0 = (Ok this, w1) ->
  2 + next_cell w0 <= next_cell wa ->
  create this md wa = (Ok rs, w2) ->
  let f0 := next_cell w0 in
  let a0 := next_cell wa in
  let name := entityName md in
  exists sc specs wb wc,
    createCollectionSelector this name wa = (Ok sc, wb) /\
    createCollectionSelectors md wb = (Ok (map_vals fst specs), wc) /\
    member_specs (2 + a0) md = Ok specs /\
    assoc "entityName" rs = Some (EVal name) /\
    (declared_for "selectCollection" (extra_keys md) = None ->
     assoc "selectCollection" rs = Some (ESel sc)) /\
    forall k m R, assoc k specs = Some (m, R) ->
      exists root,
        assoc k rs = Some (ESel root) /\
        forall s w, root_inv f0 a0 cacheName md w ->
          (forall r w', root s w = (r, w') ->
             root_inv f0 a0 cacheName md w' /\ heap w `prefix_of` heap w' /\
             forall v, r = Ok v ->
               exists col,
                 rel_accessor cacheName name (heap w') (calls w') s col /\
                 R (heap w') (calls w') col v) /\
          ((forall w', heap w `prefix_of` heap w' ->
              root_inv f0 a0 cacheName md w' -> returns (sc s) w') ->
           (forall col w', heap w `prefix_of` heap w' ->
              root_inv f0 a0 cacheName md w' ->
              rel_accessor cacheName name (heap w') (calls w') s col ->
              returns (m col) w') ->
           returns (root s) w).
Proof.
  intros Hthis Hlt Hrs f0 a0 name.
  destruct (create_ok _ _ _ _ _ _ _ _ _ Hthis Hrs) as (-> & specs & Hs & -> & Hb).
  destruct (create_parts (mk_factory f0 cacheName creator) md wa specs Hs)
    as (wb & wc & E1 & E2).
  exists (sel_collection (mk_factory f0 cacheName creator) a0 name), specs, wb, wc.
  split; [done|]. split; [done|]. split; [done|].
  split; [by apply root_set_entityName|].
  split; [by apply root_set_selectCollection|].
  intros k m R Hk.
  apply assoc_Some_elem, list_elem_of_lookup in Hk as (i & Hi).
  exists (root_sel (mk_factory f0 cacheName creator) a0 md i m).
  split; [by apply (root_set_member _ _ _ _ Hs i k (m, R))|].
  intros s w Hw. split.
  - intros r w' Hrun.
    destruct (triple_root f0 a0 cacheName creator md specs Hlt Hs i k (m, R) s Hi
                w r w' Hw Hrun) as (Hev & Hw' & HQ).
    split; [done|]. split; [apply Hev|]. intros v Hv.
    by destruct (HQ v Hv) as [? _].
  - intros Hacc Hmem.
    apply (returns_root f0 a0 cacheName creator md specs Hlt Hs i k (m, R) s w Hi Hw).
    + intros w' Hev Hw'. apply Hacc; [apply Hev|done].
    + intros col w' Hev Hw' Hcol. apply Hmem; [apply Hev|done|done].
Qed.

Lemma C4_witness :
  exists rs w2,
    create hero_factory (hero_md None None) factory_world = (Ok rs, w2) /\
    assoc "entityName" rs = Some (EVal (VStr "Hero")) /\
    assoc "selectCollection" rs =
      Some (ESel (sel_collection hero_factory 2 (VStr "Hero"))) /\
    exists root, assoc "selectLoaded" rs = Some (ESel root).
Proof.
  destruct (C4_root_composes_members "entityCache" empty_creator (hero_md None None)
              hero_world hero_factory factory_world factory_world
              (root_set hero_factory 2 (hero_md None None)
                 (member_builtin 4 (hero_md None None)))
              (root_world (hero_md None None))
              hero_constructor)
    as (sc & specs & wb & wc & Hsc & _ & Hs & Hname & Hcoll & Hroot).
  - vm_compute. lia.
  - apply hero_create, hero_specs.
  - eexists _, _. split; [apply hero_create, hero_specs|].
    split; [exact Hname|]. split.
    + destruct (createCollectionSelector_run hero_factory (VStr "Hero") factory_world)
        as (wb' & E & _).
      simpl in Hsc. rewrite E in Hsc. injection Hsc as <- _.
      apply Hcoll. reflexivity.
    + change (2 + next_cell factory_world) with 4 in Hs.
      rewrite hero_specs in Hs. injection Hs as <-.
      destruct (Hroot "selectLoaded" (field "loaded") (rel_field "loaded") eq_refl)
        as (root & Hr & _).
      by exists root.
Defined.

(** A declared field [collection] takes the name [selectCollection] of the
    root derivation set, which then returns the field [collection] of the
    collection (here [7]) and not the collection (the object at [5]). *)
Lemma C4_counterexample :
  exists rs w2 sel w',
    create hero_factory (hero_md None (Some [("collection", VNum 0)])) factory_world
      = (Ok rs, w2) /\
    assoc "selectCollection" rs = Some (ESel sel) /\
    state_view (heap w2) (VRef 7) "entityCache" (VStr "Hero") = Some (VRef 5) /\
    sel (VRef 7) w2 = (Ok (VNum 7), w').
Proof.
  assert (member_specs 4 (hero_md None (Some [("collection", VNum 0)])) =
          Ok (spread (member_builtin 4 (hero_md None (Some [("collection", VNum 0)])))
                [("selectCollection", spec_field "collection")])) as Hs
    by reflexivity.
  eexists _, _, _, _. split; [exact (hero_create _ _ Hs)|].
  split.
  - apply (root_set_member hero_factory 2 _ _ Hs 9 "selectCollection"
             (field "collection", rel_field "collection")).
    reflexivity.
  - split; vm_compute; reflexivity.
Qed.

(** C5: two states that store the same collection object for the type,
    whatever else they hold: a root derivation of the type that returned
    [v1] on the first returns the same [v1] on the second; only the
    accessor's projectors may run for that, the member derivation is not
    run again. *)
Theorem C5_isolation cacheName creator md w0 this w1 wa rs w2
    w s1 s2 a k root v1 w' :
  constructor cacheName creator w0 = (Ok this, w1) ->
  2 + next_cell w0 <= next_cell wa ->
  create this md wa = (Ok rs, w2) ->
  let f0 := next_cell w0 in
  let a0 := next_cell wa in
  let name := entityName md in
  root_inv f0 a0 cacheName md w ->
  state_view (heap w) s1 cacheName name = Some (VRef a) ->
  state_view (heap w) s2 cacheName name = Some (VRef a) ->
  assoc k rs = Some (ESel root) ->
  root s1 w = (Ok v1, w') ->
  exists w'',
    root s2 w' = (Ok v1, w'') /\
    root_inv f0 a0 cacheName md w'' /\
    exists new, calls w'' = new ++ calls w' /\
                Forall (event_in (fp_accessor f0 a0)) new.
Proof.
  intros Hthis Hlt Hrs f0 a0 name Hw Hs1 Hs2 Hk Hrun.
  destruct (create_ok _ _ _ _ _ _ _ _ _ Hthis Hrs) as (-> & specs & Hs & -> & Hb).
  fold f0 a0 in Hs, Hk |- *.
  destruct (root_set_entries _ _ _ _ Hs k _ Hk) as [?|[[= ->]|(i & ss & Hi & [= ->])]];
    [done| |].
  - (* the accessor itself *)
    destruct (triple_root_accessor f0 a0 cacheName creator md Hlt
                (fp_accessor f0 a0) s1 (fun c H => H) w _ _ Hw Hrun)
      as (Hev & Hw' & HQ).
    destruct (HQ _ eq_refl) as [Hrel _].
    pose proof (rel_accessor_view _ _ _ _ _ _ _
                  (state_view_prefix _ _ _ _ _ _ (ev_heap _ _ _ Hev) Hs1) Hrel) as Hv1.
    simpl in Hv1. subst v1.
    destruct (root_accessor_value f0 a0 cacheName creator md Hlt
                (fp_accessor f0 a0) s2 w' (VRef a) (fun c H => H) Hw')
      as (v & w'' & Hrun2 & Hev2 & Hw'' & Hv & _).
    { eapply state_view_prefix; [apply Hev|done]. }
    simpl in Hv. subst v. exists w''. split; [done|]. split; [done|].
    apply Hev2.
  - (* the root derivation of a member derivation *)
    destruct (triple_root f0 a0 cacheName creator md specs Hlt Hs i k ss s1 Hi
                w _ _ Hw Hrun) as (Hev & Hw' & HQ).
    destruct (HQ _ eq_refl) as [_ Hcs].
    pose proof (ev_heap _ _ _ Hev) as Hp.
    assert (Hcp : cells w' !! (2 * i + root_base a0 md) = Some ([VRef a], v1)).
    { destruct (Hw' (ps_root (root_base a0 md) cacheName name i (snd ss)))
        as [_ Hlink]; [by eapply root_Spec_root|].
      destruct (Hlink _ _ Hcs) as (s & args & [= <-] & Hcp & Hin).
      apply rel_inputs_1 in Hin as (col & -> & Hcol).
      pose proof (rel_accessor_view _ _ _ _ _ _ _
                    (state_view_prefix _ _ _ _ _ _ Hp Hs1) Hcol) as Hc.
      simpl in Hc. by subst col. }
    destruct (decide (s2 = s1)) as [->|Hne].
    + exists w'. split; [by eapply memoized_selector_again|].
      split; [done|]. by exists [].
    + destruct (root_accessor_value f0 a0 cacheName creator md Hlt
                  (fp_accessor f0 a0) s2 w' (VRef a) (fun c H => H) Hw')
        as (v & w3 & Hrun2 & Hev2 & Hw3 & Hv & _).
      { eapply state_view_prefix; [exact Hp|done]. }
      simpl in Hv. subst v.
      assert (root_sel (mk_factory f0 cacheName creator) a0 md i (fst ss) s2 w' =
              (Ok v1, store (1 + (2 * i + root_base a0 md)) [s2] v1 w3)) as Hrun3.
      { apply (memo_reuse _ _ _ _ s2 w' (VRef a) w3 v1).
        - intros la lr Hc. rewrite Hcs in Hc. injection Hc as <- <-. simpl.
          unfold strict_eq. by rewrite bool_decide_eq_false_2.
        - exact Hrun2.
        - rewrite (ev_cells _ _ _ Hev2); [done|].
          unfold fp_accessor, root_base. pose proof (member_size_ge md). lia. }
      eexists. split; [exact Hrun3|].
      destruct (triple_root f0 a0 cacheName creator md specs Hlt Hs i k ss s2 Hi
                  w' _ _ Hw' Hrun3) as (_ & Hw4 & _).
      split; [done|]. simpl. apply Hev2.
Qed.

(** The first state stores the heroes only; the second also villains and a
    router state: the root [selectEntities] gives the same array. *)
Lemma C5_witness :
  exists w' w'',
    root_sel hero_factory 2 (hero_md None None) 1 (sel_entities 4) (VRef 7)
      (root_world (hero_md None None)) = (Ok (VRef 11), w') /\
    root_sel hero_factory 2 (hero_md None None) 1 (sel_entities 4) (VRef 10) w'
      = (Ok (VRef 11), w'').
Proof.
  exists (root_sel hero_factory 2 (hero_md None None) 1 (sel_entities 4) (VRef 7)
            (root_world (hero_md None None))).2.
  assert (root_sel hero_factory 2 (hero_md None None) 1 (sel_entities 4) (VRef 7)
            (root_world (hero_md None None)) =
          (Ok (VRef 11),
           (root_sel hero_factory 2 (hero_md None None) 1 (sel_entities 4) (VRef 7)
              (root_world (hero_md None None))).2)) as Hrun1
    by (vm_compute; reflexivity).
  destruct (C5_isolation "entityCache" empty_creator (hero_md None None)
              hero_world hero_factory factory_world factory_world
              (root_set hero_factory 2 (hero_md None None)
                 (member_builtin 4 (hero_md None None)))
              (root_world (hero_md None None))
              (root_world (hero_md None None))
              (VRef 7) (VRef 10) 5 "selectEntities"
              (root_sel hero_factory 2 (hero_md None None) 1 (sel_entities 4))
              (VRef 11)
              (root_sel hero_factory 2 (hero_md None None) 1 (sel_entities 4) (VRef 7)
                 (root_world (hero_md None None))).2
              hero_constructor)
    as (w'' & Hrun & _).
  - vm_compute. lia.
  - apply hero_create, hero_specs.
  - by eapply hero_root_inv, hero_specs.
  - vm_compute. reflexivity.
  - vm_compute. reflexivity.
  - apply (root_set_member hero_factory 2 (hero_md None None) _ (hero_specs None)
             1 "selectEntities" (sel_entities 4, rel_selectEntities)).
    reflexivity.
  - exact Hrun1.
  - exists w''. split; [exact Hrun1|exact Hrun].
Defined.

(** C6: with a filter predicate [f] configured, [selectFilteredEntities(c)]
    returns, on every well-formed collection [c], what [f] returns on
    [selectEntities(c)] (the array of the collection's entities in key
    order) and [selectFilter(c)]. *)
Theorem C6_filtered_applies_predicate md f w0 ms w1 w c i e keys em :
  filterFn md = Some f ->
  createCollectionSelectors md w0 = (Ok ms, w1) ->
  member_inv (next_cell w0) md w ->
  collection_view (heap w) c = Some (i, e, keys, em) ->
  let e0 := next_cell w0 in
  (declared_for "selectFilteredEntities" (extra_keys md) = None ->
   assoc "selectFilteredEntities" ms = Some (sel_filtered e0 f)) /\
  exists v w2 r pat h1,
    sel_filtered e0 f c w = (Ok v, w2) /\
    field "filter" c w = (Ok pat, w) /\
    rel_selectEntities (heap w2) (calls w2) c (VRef r) /\
    h1 `prefix_of` heap w2 /\
    h1 !! r = Some (OArr (map (entity_at em) keys)) /\
    v = (filter_run f (VRef r) pat h1).1 /\
    member_inv e0 md w2.
Proof.
  intros Hf Hb Hw Hc e0. split.
  - intros Hd.
    apply (member_lookup_builtin md w0 ms w1 "selectFilteredEntities"
             (sel_filtered e0 f, rel_selectFiltered f)); auto.
    simpl. by rewrite Hf.
  - pose proof (member_Spec_wf e0 md) as Hwf.
    destruct (sel_filtered_value (member_Spec e0 md) Hwf e0 md (fp_member e0 md)
                (fun p H => H) (fun c H => H) f c w i e keys em Hf Hw Hc)
      as (v & w2 & r & pat & h1 & Hrun & Hev & Hw2 & Hpat & Hes & H1 & Hr & Hv).
    exists v, w2, r, pat, h1. unfold field, read. rewrite Hpat.
    by repeat (split; [done|]).
Qed.

(** The example of the specification: the heroes named "a" and "b", the
    pattern "a", and the predicate that matches a substring of the name. *)
Lemma C6_witness :
  exists w2 h1,
    sel_filtered 0 name_filter (VRef 5)
      (createCollectionSelectors (hero_md (Some name_filter) None) hero_world).2
    = (Ok (VRef 12), w2) /\
    heap w2 !! 11 = Some (OArr [VRef 0; VRef 1]) /\
    heap w2 !! 12 = Some (OArr [VRef 0]) /\
    exists r, h1 !! r = Some (OArr [VRef 0; VRef 1]) /\
              VRef 12 = (filter_by_name (VRef r) (VStr "a") h1).1.
Proof.
  destruct (C6_filtered_applies_predicate (hero_md (Some name_filter) None)
              name_filter hero_world
              (map_vals fst (member_builtin 0 (hero_md (Some name_filter) None)))
              (createCollectionSelectors (hero_md (Some name_filter) None) hero_world).2
              (createCollectionSelectors (hero_md (Some name_filter) None) hero_world).2
              (VRef 5) 2 3 [VNum 1; VNum 2] [("1", VRef 0); ("2", VRef 1)]
              eq_refl
              (hero_members (hero_md (Some name_filter) None)
                 (member_builtin 0 (hero_md (Some name_filter) None)) eq_refl)
              (hero_member_inv _))
    as (_ & v & w2 & r & pat & h1 & Hrun & Hpat & _ & _ & Hr & Hv & _).
  - vm_compute. reflexivity.
  - assert (pat = VStr "a") as ->.
    { revert Hpat. vm_compute. by intros [= <-]. }
    pose proof (eq_trans (eq_sym Hrun) hero_filtered_run) as Heq.
    injection Heq as -> ->.
    eexists _, h1. split; [exact hero_filtered_run|].
    split; [vm_compute; reflexivity|]. split; [vm_compute; reflexivity|].
    exists r. split; [exact Hr|exact Hv].
Defined.

(** C7: with no filter predicate configured, the derivation built for
    [selectFilteredEntities] is the derivation built for [selectEntities]
    itself: the same function on the same two cells, and no cell is taken
    for a further memoization layer. *)
Theorem C7_unfiltered_is_selectEntities md w0 ms w1 :
  filterFn md = None ->
  createCollectionSelectors md w0 = (Ok ms, w1) ->
  let e0 := next_cell w0 in
  assoc "selectFilteredEntities" (member_builtin e0 md) =
    assoc "selectEntities" (member_builtin e0 md) /\
  next_cell w1 = 4 + next_cell w0 /\
  (declared_for "selectFilteredEntities" (extra_keys md) = None ->
   declared_for "selectEntities" (extra_keys md) = None ->
   exists sel,
     assoc "selectFilteredEntities" ms = Some sel /\
     assoc "selectEntities" ms = Some sel /\
     sel = sel_entities e0 /\
     forall c w, sel c w = sel_entities e0 c w).
Proof.
  intros Hf Hb e0. split; [|split].
  - simpl. by rewrite Hf.
  - apply createCollectionSelectors_ok in Hb as (specs & _ & _ & Hbu).
    rewrite (bu_next _ _ _ Hbu). unfold member_size. by rewrite Hf.
  - intros H1 H2. exists (sel_entities e0). split; [|split; [|done]].
    + apply (member_lookup_builtin md w0 ms w1 "selectFilteredEntities"
               (sel_entities e0, rel_selectEntities)); auto.
      simpl. by rewrite Hf.
    + by apply (member_lookup_builtin md w0 ms w1 "selectEntities"
                  (sel_entities e0, rel_selectEntities)).
Qed.

Lemma C7_witness :
  assoc "selectFilteredEntities"
    (map_vals fst (member_builtin 0 (hero_md None None))) =
  assoc "selectEntities" (map_vals fst (member_builtin 0 (hero_md None None))) /\
  next_cell (createCollectionSelectors (hero_md None None) hero_world).2 = 4.
Proof.
  destruct (C7_unfiltered_is_selectEntities (hero_md None None) hero_world
              (map_vals fst (member_builtin 0 (hero_md None None)))
              (createCollectionSelectors (hero_md None None) hero_world).2
              eq_refl
              (hero_members (hero_md None None)
                 (member_builtin 0 (hero_md None None)) eq_refl))
    as (_ & Hn & Hsame).
  split; [|exact Hn].
  destruct (Hsame eq_refl eq_refl) as (sel & H1 & H2 & _).
  by rewrite H1, H2.
Defined.




(** C9 (as amended): a configuration without [entityName] raises no
    configuration error at build time.  Whenever the declared field names
    are non-empty, [create] returns a root derivation set, whose
    [entityName] is [undefined]; and the only error [create] can raise is
    the [TypeError] of a declared field with the empty name. *)
Theorem C9_missing_name_builds this md w :
  entityName md = VUndefined ->
  (Forall (fun k => k <> "") (extra_keys md) ->
   exists rs w',
     create this md w = (Ok rs, w') /\
     assoc "entityName" rs = Some (EVal VUndefined)) /\
  (forall e w', create this md w = (Err e, w') ->
     e = TypeError /\ "" ∈ extra_keys md).
Proof.
  intros Hn. destruct (create_run this md w) as (w' & E & _). split.
  - intros Hk. destruct (extra_specs_ok (extra_keys md) [] Hk) as (ex & Hex).
    assert (member_specs (2 + next_cell w) md =
            Ok (spread (member_builtin (2 + next_cell w) md) ex)) as Hs.
    { unfold member_specs. by rewrite Hex. }
    rewrite Hs in E. simpl in E. eexists _, w'. split; [exact E|].
    rewrite (root_set_entityName _ _ _ _ Hs). by rewrite Hn.
  - intros e w1 He. rewrite E in He. unfold member_specs in He.
    destruct (extra_specs (extra_keys md) []) as [ex|e'] eqn:Ex; [done|].
    simpl in He. injection He as <- _. by eapply extra_specs_err.
Qed.

Lemma C9_witness :
  exists rs w',
    create hero_factory nameless_md factory_world = (Ok rs, w') /\
    assoc "entityName" rs = Some (EVal VUndefined).
Proof.
  destruct (C9_missing_name_builds hero_factory nameless_md factory_world eq_refl)
    as [Hok _].
  apply Hok. constructor.
Defined.

(** No configuration error for the missing name: the build does not fail. *)
Lemma C9_counterexample :
  ~ exists e w', create hero_factory nameless_md factory_world = (Err e, w').
Proof.
  intros (e & w1 & H).
  destruct (create_run hero_factory nameless_md factory_world) as (w' & E & _).
  rewrite E in H. discriminate H.
Qed.

(** C10: in a configuration whose declared field names are non-empty,
    [createCollectionSelectors] raises no error; a built-in name that a
    declared field derives holds the accessor of a declared field (the last
    one deriving it), the built-in derivation being shadowed; a built-in
    name that no declared field derives holds the built-in derivation, so
    without collision all nine are in the returned set. *)
Theorem C10_extras_shadow_builtins md w0 :
  Forall (fun k => k <> "") (extra_keys md) ->
  exists ms w1,
    createCollectionSelectors md w0 = (Ok ms, w1) /\
    length (member_builtin (next_cell w0) md) = 9 /\
    forall name b,
      assoc name (member_builtin (next_cell w0) md) = Some b ->
      (forall k, k ∈ extra_keys md -> selector_name k = Ok name ->
         exists k', k' ∈ extra_keys md /\ selector_name k' = Ok name /\
                    declared_for name (extra_keys md) = Some k' /\
                    assoc name ms = Some (field k')) /\
      (Forall (fun k => selector_name k <> Ok name) (extra_keys md) ->
       assoc name ms = Some (fst b)).
Proof.
  intros Hne.
  destruct (createCollectionSelectors_run md w0) as (w1 & E & _).
  destruct (extra_specs_ok (extra_keys md) [] Hne) as (ex & Hex).
  assert (member_specs (next_cell w0) md =
          Ok (spread (member_builtin (next_cell w0) md) ex)) as Hs.
  { unfold member_specs. by rewrite Hex. }
  rewrite Hs in E. simpl in E. eexists _, w1. split; [exact E|].
  split; [done|]. intros name b Hb. split.
  - intros k Hk Hn.
    destruct (declared_for name (extra_keys md)) as [k'|] eqn:Hd.
    + destruct (declared_for_Some _ _ _ Hd) as [Hin Hn'].
      exists k'. repeat (split; [done|]).
      by rewrite assoc_map_vals, (member_specs_assoc _ _ _ _ Hs), Hd.
    + apply declared_for_None in Hd. rewrite Forall_forall in Hd.
      by destruct (Hd k Hk).
  - intros Hnone. apply declared_for_None in Hnone.
    by rewrite assoc_map_vals, (member_specs_assoc _ _ _ _ Hs), Hnone, Hb.
Qed.

(** A declared field [count] takes the name [selectCount]. *)
Lemma C10_witness :
  exists ms w1,
    createCollectionSelectors (hero_md None (Some [("count", VNum 0)])) hero_world
      = (Ok ms, w1) /\
    assoc "selectCount" ms = Some (field "count") /\
    assoc "selectEntities" ms = Some (sel_entities 0).
Proof.
  destruct (C10_extras_shadow_builtins (hero_md None (Some [("count", VNum 0)]))
              hero_world)
    as (ms & w1 & Hms & _ & Hall).
  - repeat constructor. discriminate.
  - exists ms, w1. split; [exact Hms|]. split.
    + destruct (Hall "selectCount" (sel_count 0, rel_selectCount) eq_refl)
        as [Hsh _].
      destruct (Hsh "count") as (k' & _ & _ & Hd & Hk'); [left|reflexivity|].
      injection Hd as <-. exact Hk'.
    + destruct (Hall "selectEntities" (sel_entities 0, rel_selectEntities) eq_refl)
        as [_ Hb].
      apply Hb. repeat constructor. discriminate.
Defined.

(** * Further properties of the factory *)

(** ** Builds in a fresh world *)

Lemma fresh_members h md specs :
  member_specs 0 md = Ok specs ->
  createCollectionSelectors md (fresh h) = (Ok (map_vals fst specs), members_at h md).
Proof.
  intros Hs. unfold members_at.
  destruct (createCollectionSelectors_run md (fresh h)) as (w' & E & _).
  rewrite E. change (next_cell (fresh h)) with 0. by rewrite Hs.
Defined.

Lemma fresh_member_inv h md : member_inv 0 md (members_at h md).
Proof.
  unfold members_at.
  destruct (createCollectionSelectors_run md (fresh h)) as (w' & E & Hb).
  rewrite E. by apply (built_member_inv md (member_size md) (fresh h)).
Defined.

Lemma fresh_constructor h :
  constructor "entityCache" empty_creator (fresh h) = (Ok hero_factory, factory_at h).
Proof. reflexivity. Defined.

Lemma fresh_accessor h name :
  createCollectionSelector hero_factory name (factory_at h) =
    (Ok (sel_collection hero_factory 2 name), accessor_at h name).
Proof. reflexivity. Defined.

Lemma fresh_accessor_inv h name :
  accessor_inv 0 2 "entityCache" name (accessor_at h name).
Proof.
  intros p [->| ->]; apply pair_inv_empty; reflexivity.
Defined.

Lemma plain_specs e0 : member_specs e0 plain_md = Ok (member_builtin e0 plain_md).
Proof. reflexivity. Defined.

Lemma edge_entities_run :
  sel_entities 0 (VRef 3) (members_at edge_heap plain_md) =
  (Ok (VRef 17), (sel_entities 0 (VRef 3) (members_at edge_heap plain_md)).2).
Proof. vm_compute. reflexivity. Defined.

Lemma edge_entities_run2 :
  sel_entities 0 (VRef 6) (sel_entities 0 (VRef 3) (members_at edge_heap plain_md)).2 =
  (Ok (VRef 18),
   (sel_entities 0 (VRef 6)
      (sel_entities 0 (VRef 3) (members_at edge_heap plain_md)).2).2).
Proof. vm_compute. reflexivity. Defined.

Lemma villain_specs e0 : member_specs e0 villain_md = Ok (member_builtin e0 villain_md).
Proof. reflexivity. Defined.

Lemma villain_create :
  create hero_factory villain_md (root_world plain_md) =
    (Ok (root_set hero_factory (next_cell (root_world plain_md)) villain_md
           (member_builtin (2 + next_cell (root_world plain_md)) villain_md)),
     two_types_world).
Proof.
  unfold two_types_world.
  destruct (create_run hero_factory villain_md (root_world plain_md)) as (w' & E & _).
  rewrite E, villain_specs. reflexivity.
Defined.

Lemma two_types_run :
  root_sel hero_factory 2 plain_md 1 (sel_entities 4) (VRef 10) two_types_world =
  (Ok (VRef 11),
   (root_sel hero_factory 2 plain_md 1 (sel_entities 4) (VRef 10) two_types_world).2).
Proof. vm_compute. reflexivity. Defined.

Lemma edge_accessor_run :
  sel_collection hero_factory 2 (VStr "Hero") (VRef 13)
    (accessor_at edge_heap (VStr "Hero")) =
  (Ok (VRef 20),
   (sel_collection hero_factory 2 (VStr "Hero") (VRef 13)
      (accessor_at edge_heap (VStr "Hero"))).2).
Proof. vm_compute. reflexivity. Defined.

(** ** Failing builds *)

Lemma extra_specs_empty keys acc :
  "" ∈ keys -> extra_specs keys acc = Err TypeError.
Proof.
  revert acc. induction keys as [|k keys IH]; intros acc Hin.
  - by apply elem_of_nil in Hin.
  - apply elem_of_cons in Hin as [<-|Hin]; [done|].
    destruct k as [|c k]; [done|]. simpl. by apply IH.
Qed.

Lemma member_specs_ok e0 md :
  "" ∉ extra_keys md -> exists specs, member_specs e0 md = Ok specs.
Proof.
  intros Hn. unfold member_specs.
  destruct (extra_specs_ok (extra_keys md) []) as (ex & ->); [|eauto].
  apply Forall_forall. by intros k Hk ->.
Qed.

Lemma member_specs_empty e0 md :
  "" ∈ extra_keys md -> member_specs e0 md = Err TypeError.
Proof. intros Hin. unfold member_specs. by rewrite extra_specs_empty. Qed.

(** X1: [createCollectionSelectors] and [create] throw exactly when a
    declared field name is the empty string ([k[0]] is [undefined] then, and
    [toUpperCase] of it a TypeError); for every other configuration they
    return. *)
Theorem X1_build_throws_iff_empty_name this md w :
  ((exists w', createCollectionSelectors md w = (Err TypeError, w')) <->
   "" ∈ extra_keys md) /\
  ((exists ms w', createCollectionSelectors md w = (Ok ms, w')) <->
   "" ∉ extra_keys md) /\
  ((exists w', create this md w = (Err TypeError, w')) <-> "" ∈ extra_keys md) /\
  ((exists rs w', create this md w = (Ok rs, w')) <-> "" ∉ extra_keys md).
Proof.
  destruct (createCollectionSelectors_run md w) as (w1 & E1 & _).
  destruct (create_run this md w) as (w2 & E2 & _).
  rewrite E1, E2.
  destruct (decide ("" ∈ extra_keys md)) as [Hin|Hn].
  - rewrite !(member_specs_empty _ _ Hin). simpl.
    repeat split; try done; try (by intros; eauto).
    all: by intros (? & ? & [=]).
  - destruct (member_specs_ok (next_cell w) md Hn) as (s1 & ->).
    destruct (member_specs_ok (2 + next_cell w) md Hn) as (s2 & ->). simpl.
    repeat split; try done; try (by intros; eauto).
    all: by intros (? & [=]).
Qed.

(** ** The names of the returned objects *)

Lemma filter_ext_elem {A} (P Q : A -> Prop) `{!forall x, Decision (P x)}
    `{!forall x, Decision (Q x)} (l : list A) :
  (forall x, x ∈ l -> P x <-> Q x) -> filter P l = filter Q l.
Proof.
  induction l as [|x l IH]; intros Hext; [done|].
  rewrite !filter_cons.
  rewrite IH by (intros y Hy; apply Hext; by right).
  destruct (decide (P x)) as [HP|HP], (decide (Q x)) as [HQ|HQ]; try done.
  - destruct HQ. apply Hext; [by left|done].
  - destruct HP. apply Hext; [by left|done].
Qed.

(** The names of [{...a, ...b}]: those of [a], then the new ones of [b]. *)
Lemma spread_keys {A} (a b : list (string * A)) :
  NoDup (map fst b) ->
  map fst (spread a b) = map fst a ++ filter (fun k => k ∉ map fst a) (map fst b).
Proof.
  unfold spread. revert a. induction b as [|[k v] b IH]; intros a Hnd; simpl.
  - by rewrite filter_nil, app_nil_r.
  - apply NoDup_cons in Hnd as [Hk Hnd]. rewrite IH by done.
    rewrite obj_set_keys, filter_cons.
    destruct (assoc k a) as [x|] eqn:Ea.
    + rewrite decide_False; [done|].
      intros Hn. apply assoc_None in Hn. congruence.
    + apply assoc_None in Ea. rewrite decide_True by done.
      rewrite <- app_assoc. simpl. do 2 f_equal.
      apply filter_ext_elem. intros x Hx. rewrite elem_of_app, list_elem_of_singleton.
      split; [tauto|]. intros Hx2 [?| ->]; done.
Qed.

Lemma extra_specs_keys keys ex name :
  extra_specs keys [] = Ok ex ->
  name ∈ map fst ex <-> exists k, k ∈ keys /\ selector_name k = Ok name.
Proof.
  intros He. pose proof (extra_specs_assoc _ _ _ name He) as Ha. simpl in Ha.
  split.
  - intros Hin. destruct (declared_for name keys) as [k|] eqn:Ed.
    + exists k. by apply declared_for_Some.
    + apply assoc_None in Ha. done.
  - intros (k & Hk & Hn). destruct (declared_for name keys) as [k'|] eqn:Ed.
    + destruct (decide (name ∈ map fst ex)) as [|Hno]; [done|].
      apply assoc_None in Hno. congruence.
    + rewrite declared_for_None, Forall_forall in Ed. by destruct (Ed k Hk).
Qed.

Lemma member_specs_keys e0 md specs :
  member_specs e0 md = Ok specs ->
  exists ex, extra_specs (extra_keys md) [] = Ok ex /\
    map fst specs =
      builtin_names ++ filter (fun k => k ∉ builtin_names) (map fst ex).
Proof.
  unfold member_specs. destruct (extra_specs (extra_keys md) []) as [ex|] eqn:He; [|done].
  intros [= <-]. exists ex. split; [done|].
  rewrite spread_keys; [done|].
  eapply extra_specs_NoDup; [|exact He]. apply NoDup_nil_2.
Qed.

Lemma member_keys_select e0 md specs k :
  member_specs e0 md = Ok specs -> k ∈ map fst specs ->
  exists rest, k = "select" +:+ rest.
Proof.
  intros Hs Hk. destruct (member_specs_keys _ _ _ Hs) as (ex & He & Hkeys).
  rewrite Hkeys, elem_of_app, list_elem_of_filter in Hk.
  destruct Hk as [Hk|[_ Hk]].
  - unfold builtin_names in Hk. rewrite !elem_of_cons in Hk.
    destruct Hk as [->|[->|[->|[->|[->|[->|[->|[->|[->|Hk]]]]]]]]];
      [eexists; reflexivity..|by apply elem_of_nil in Hk].
  - apply (extra_specs_keys _ _ _ He) in Hk as (k' & _ & Hn).
    by eapply selector_name_select.
Qed.

Lemma root_entries_keys sc ms n keys acc :
  NoDup (map fst acc ++ keys) ->
  map fst (root_entries sc ms n keys acc) = map fst acc ++ keys.
Proof.
  revert n acc. induction keys as [|k keys IH]; intros n acc Hnd; simpl.
  - by rewrite app_nil_r.
  - assert (assoc k acc = None) as Hk.
    { apply assoc_None. apply NoDup_app in Hnd as (_ & Hd & _).
      intros Hin. apply (Hd _ Hin). by left. }
    rewrite obj_set_fresh by done. rewrite IH.
    + rewrite map_app. simpl. by rewrite <- app_assoc.
    + rewrite map_app. simpl. by rewrite <- app_assoc.
Qed.

Lemma root_set_keys this a0 md specs :
  member_specs (2 + a0) md = Ok specs ->
  map fst (root_set this a0 md specs) =
    "entityName" :: "selectCollection" ::
      filter (fun k => k <> "selectCollection") (map fst specs).
Proof.
  intros Hs. pose proof (member_specs_NoDup _ _ _ Hs) as Hnd.
  unfold root_set. rewrite spread_keys.
  - rewrite keys_map_vals, root_entries_keys by done. simpl. do 2 f_equal.
    apply filter_ext_elem. intros k Hk.
    destruct (member_keys_select _ _ _ _ Hs Hk) as (rest & ->).
    rewrite !elem_of_cons, elem_of_nil. split.
    + intros Hn Heq. apply Hn. right. left. exact Heq.
    + intros Hn [Heq|[Heq|[]]]; [discriminate Heq|done].
  - rewrite keys_map_vals, root_entries_keys by done. done.
Qed.

(** The fields whose derived name is [selectCollection]. *)
Lemma selector_name_collection k :
  selector_name k = Ok "selectCollection" <-> k = "collection" \/ k = "Collection".
Proof.
  split.
  - destruct k as [|c r]; [done|]. simpl. intros [= Hc ->].
    destruct c as [[] [] [] [] [] [] [] []]; try discriminate Hc; first [by left|by right].
  - by intros [->| ->].
Qed.

Lemma declared_for_collection keys :
  declared_for "selectCollection" keys = None <->
  ("collection" ∉ keys) /\ ("Collection" ∉ keys).
Proof.
  rewrite declared_for_None, Forall_forall. split.
  - intros H. split; intros Hin; by apply (H _ Hin).
  - intros [H1 H2] k Hk Hn. apply selector_name_collection in Hn as [->| ->]; done.
Qed.

(** X2: the names of the member derivation set.  The nine built-in names
    come first, in the order of the object literal; no name occurs twice;
    and a name is in the set exactly when it is built-in or derived from a
    declared field. *)
Theorem X2_member_names md w ms w' :
  createCollectionSelectors md w = (Ok ms, w') ->
  take 9 (Object_keys ms) = builtin_names /\
  NoDup (Object_keys ms) /\
  forall name,
    name ∈ Object_keys ms <->
    name ∈ builtin_names \/
    exists k, k ∈ extra_keys md /\ selector_name k = Ok name.
Proof.
  intros Hb. apply createCollectionSelectors_ok in Hb as (specs & Hs & -> & _).
  unfold Object_keys. rewrite keys_map_vals.
  destruct (member_specs_keys _ _ _ Hs) as (ex & He & Hkeys).
  split; [by rewrite Hkeys|]. split; [by eapply member_specs_NoDup|].
  intros name. rewrite Hkeys, elem_of_app, list_elem_of_filter.
  rewrite (extra_specs_keys _ _ name He).
  destruct (decide (name ∈ builtin_names)); tauto.
Qed.

Lemma X2_witness :
  exists ms w',
    createCollectionSelectors
      (hero_md None (Some [("loadedAt", VNum 0); ("count", VNum 0)])) hero_world
      = (Ok ms, w') /\
    take 9 (Object_keys ms) = builtin_names /\
    "selectLoadedAt" ∈ Object_keys ms.
Proof.
  assert (member_specs 0 (hero_md None (Some [("loadedAt", VNum 0); ("count", VNum 0)])) =
          Ok (spread (member_builtin 0 (hero_md None
                        (Some [("loadedAt", VNum 0); ("count", VNum 0)])))
                [("selectLoadedAt", spec_field "loadedAt");
                 ("selectCount", spec_field "count")])) as Hs by reflexivity.
  destruct (X2_member_names _ _ _ _ (fresh_members hero_heap _ _ Hs))
    as (Ht & _ & Hmem).
  eexists _, _. split; [exact (fresh_members hero_heap _ _ Hs)|].
  split; [exact Ht|]. apply Hmem. right. exists "loadedAt". split; [|reflexivity].
  left.
Defined.

(** X3: the names of the root derivation set are [entityName],
    [selectCollection], and then the names of the member derivation set in
    their order (a member named [selectCollection] does not come twice). *)
Theorem X3_root_names this md w rs w' wb ms wc :
  create this md w = (Ok rs, w') ->
  createCollectionSelectors md wb = (Ok ms, wc) ->
  Object_keys rs =
    "entityName" :: "selectCollection" ::
      filter (fun k => k <> "selectCollection") (Object_keys ms).
Proof.
  intros Hc Hb.
  destruct (create_run this md w) as (w2 & E & _). rewrite E in Hc.
  destruct (member_specs (2 + next_cell w) md) as [specs|] eqn:Hs; [|done].
  injection Hc as <- <-.
  apply createCollectionSelectors_ok in Hb as (specs' & Hs' & -> & _).
  unfold Object_keys. rewrite keys_map_vals, (root_set_keys _ _ _ _ Hs).
  destruct (member_specs_keys _ _ _ Hs) as (ex & He & ->).
  destruct (member_specs_keys _ _ _ Hs') as (ex' & He' & ->).
  rewrite He in He'. by injection He' as <-.
Qed.

Lemma X3_witness :
  exists rs w',
    create hero_factory (hero_md None (Some [("collection", VNum 0)])) factory_world
      = (Ok rs, w') /\
    Object_keys rs = "entityName" :: "selectCollection" :: builtin_names.
Proof.
  assert (forall e0, member_specs e0 (hero_md None (Some [("collection", VNum 0)])) =
          Ok (spread (member_builtin e0 (hero_md None (Some [("collection", VNum 0)])))
                [("selectCollection", spec_field "collection")])) as Hs
    by reflexivity.
  pose proof (X3_root_names _ _ _ _ _ _ _ _ (hero_create _ _ (Hs 4))
                (fresh_members hero_heap _ _ (Hs 0))) as Hk.
  eexists _, _. split; [exact (hero_create _ _ (Hs 4))|].
  rewrite Hk. reflexivity.
Defined.

(** X4: under [selectCollection] the root derivation set holds the accessor
    that [createCollectionSelector] builds, if no declared field is named
    [collection] or [Collection]; if one is, it holds the root derivation
    of the accessor of such a field instead. *)
Theorem X4_selectCollection_entry this md w rs w' :
  create this md w = (Ok rs, w') ->
  exists sc wa,
    createCollectionSelector this (entityName md) w = (Ok sc, wa) /\
    (("collection" ∉ extra_keys md) -> ("Collection" ∉ extra_keys md) ->
     assoc "selectCollection" rs = Some (ESel sc)) /\
    (("collection" ∈ extra_keys md) \/ ("Collection" ∈ extra_keys md) ->
     exists k cs cp,
       (k = "collection" \/ k = "Collection") /\ k ∈ extra_keys md /\
       assoc "selectCollection" rs =
         Some (ESel (memoized_selector cs cp [sc] (as_projector (Some (field k)))))).
Proof.
  intros Hc.
  destruct (create_run this md w) as (w2 & E & _). rewrite E in Hc.
  destruct (member_specs (2 + next_cell w) md) as [specs|] eqn:Hs; [|done].
  injection Hc as <- <-.
  destruct (createCollectionSelector_run this (entityName md) w) as (wa & Ea & _).
  exists (sel_collection this (next_cell w) (entityName md)), wa.
  split; [done|]. split.
  - intros H1 H2. apply (root_set_selectCollection _ _ _ _ Hs).
    by apply declared_for_collection.
  - intros Hin.
    destruct (declared_for "selectCollection" (extra_keys md)) as [k|] eqn:Ed.
    + apply declared_for_Some in Ed as Hk. destruct Hk as [Hk Hn].
      apply selector_name_collection in Hn.
      pose proof (member_specs_assoc _ _ _ "selectCollection" Hs) as Ha.
      rewrite Ed in Ha.
      apply assoc_Some_elem, list_elem_of_lookup in Ha as (i & Hi).
      exists k, (1 + (2 * i + root_base (next_cell w) md)),
             (2 * i + root_base (next_cell w) md).
      split; [done|]. split; [done|].
      by rewrite (root_set_member _ _ _ _ Hs i _ _ Hi).
    + apply declared_for_collection in Ed. tauto.
Qed.

Lemma X4_witness :
  exists rs w' wa,
    create hero_factory plain_md factory_world = (Ok rs, w') /\
    createCollectionSelector hero_factory (VStr "Hero") factory_world =
      (Ok (sel_collection hero_factory 2 (VStr "Hero")), wa) /\
    assoc "selectCollection" rs =
      Some (ESel (sel_collection hero_factory 2 (VStr "Hero"))).
Proof.
  destruct (X4_selectCollection_entry _ _ _ _ _ (hero_create _ _ (plain_specs 4)))
    as (sc & wa & Hsc & Hkeep & _).
  destruct (createCollectionSelector_run hero_factory (VStr "Hero") factory_world)
    as (wa' & E & _).
  simpl in Hsc. rewrite E in Hsc. injection Hsc as <- <-.
  eexists _, _, wa'. split; [exact (hero_create _ _ (plain_specs 4))|].
  split; [exact E|]. apply Hkeep; apply not_elem_of_nil.
Defined.

(** ** Where a memoized selector fails *)

Lemma memoize_err c t args w e w' :
  memoize c t args w = (Err e, w') -> t args w = (Err e, w').
Proof.
  rewrite memoize_unfold. unfold recompute.
  destruct (cells w !! c) as [[la lr]|].
  - destruct (args_changed args la); [|done].
    destruct (t args w) as [[r|e'] w1]; [done|]. by intros [= <- <-].
  - destruct (t args w) as [[r|e'] w1]; [done|]. by intros [= <- <-].
Qed.

(** A memoized selector fails where one of its inputs fails, or where its
    projector fails on what the inputs gave; nothing is stored then. *)
Lemma memoized_selector_err cs cp inputs proj s w e w' :
  memoized_selector cs cp inputs proj s w = (Err e, w') ->
  mapM (fun fn : selector => fn s) inputs w = (Err e, w') \/
  exists args w1,
    mapM (fun fn : selector => fn s) inputs w = (Ok args, w1) /\
    proj args (tick (EvProject cp args) w1).2 = (Err e, w').
Proof.
  intros H. apply memoize_err in H. simpl in H.
  apply bind_run in H as [(args & w1 & Hin & H)|(e' & Hin & [= <-])]; [|by left].
  right. exists args, w1. split; [done|].
  apply memoize_err in H. by apply bind_run in H as [(? & ? & [= <- <-] & H)|(? & [=] & _)].
Qed.

Lemma get_prop_nullish h c k : nullish c -> get_prop h c k = Err TypeError.
Proof. by intros [-> | ->]. Qed.

Lemma field_nullish k c w : nullish c -> field k c w = (Err TypeError, w).
Proof. intros Hc. unfold field, read. by rewrite get_prop_nullish. Qed.

Section member_errors.
Context (e0 : nat) (md : EntityMetadata).

Let Spec := member_Spec e0 md.
Let F := fp_member e0 md.
Let Inv := member_inv e0 md.

Lemma sel_entities_nullish c w r w' :
  Inv w -> nullish c -> sel_entities e0 c w = (r, w') ->
  r = Err TypeError /\ w' = w.
Proof.
  intros Hw Hc Hrun. destruct r as [v|e].
  - destruct (triple_sel_entities Spec (member_Spec_wf e0 md) e0 md F
                (fun p H => H) (fun c H => H) c w _ _ Hw Hrun) as (_ & _ & HQ).
    destruct (HQ _ eq_refl) as [(args & Hin & _) _].
    apply rel_inputs_2 in Hin as (a & b & _ & Ha & _).
    unfold rel_field in Ha. by rewrite get_prop_nullish in Ha.
  - apply memoized_selector_err in Hrun as [H|(args & w1 & H & _)];
      simpl in H; unfold bind in H; rewrite field_nullish in H by done;
      by inversion H.
Qed.

Lemma sel_count_nullish c w r w' :
  Inv w -> nullish c -> sel_count e0 c w = (r, w') ->
  r = Err TypeError /\ w' = w.
Proof.
  intros Hw Hc Hrun. destruct r as [v|e].
  - destruct (triple_sel_count Spec (member_Spec_wf e0 md) e0 md F
                (fun p H => H) (fun c H => H) c w _ _ Hw Hrun) as (_ & _ & HQ).
    destruct (HQ _ eq_refl) as [(args & Hin & _) _].
    apply rel_inputs_1 in Hin as (a & _ & Ha).
    unfold rel_field in Ha. by rewrite get_prop_nullish in Ha.
  - apply memoized_selector_err in Hrun as [H|(args & w1 & H & _)];
      simpl in H; unfold bind in H; rewrite field_nullish in H by done;
      by inversion H.
Qed.

Lemma sel_filtered_nullish f c w r w' :
  filterFn md = Some f ->
  Inv w -> nullish c -> sel_filtered e0 f c w = (r, w') ->
  r = Err TypeError /\ w' = w.
Proof.
  intros Hf Hw Hc Hrun. destruct r as [v|e].
  - destruct (triple_sel_filtered Spec (member_Spec_wf e0 md) e0 md F
                (fun p H => H) (fun c H => H) f c Hf w _ _ Hw Hrun) as (_ & _ & HQ).
    destruct (HQ _ eq_refl) as [(args & Hin & _) _].
    apply rel_inputs_2 in Hin as (a & b & _ & _ & Hb).
    unfold rel_field in Hb. by rewrite get_prop_nullish in Hb.
  - apply memoized_selector_err in Hrun as [H|(args & w1 & H & _)];
      simpl in H; unfold bind in H;
      destruct (sel_entities e0 c w) as [r1 w1'] eqn:E1;
      destruct (sel_entities_nullish _ _ _ _ Hw Hc E1) as [-> ->];
      by inversion H.
Qed.

Lemma member_nullish specs :
  member_specs e0 md = Ok specs ->
  Forall (fun kv : string * spec_sel =>
            forall c w r w', Inv w -> nullish c -> fst (snd kv) c w = (r, w') ->
                             r = Err TypeError /\ w' = w) specs.
Proof.
  intros Hs. unfold member_specs in Hs.
  destruct (extra_specs (extra_keys md) []) as [ex|] eqn:He; [|done].
  injection Hs as <-.
  assert (forall k c w r w', Inv w -> nullish c -> field k c w = (r, w') ->
                             r = Err TypeError /\ w' = w) as Hfield.
  { intros k c w r w' _ Hc H. rewrite field_nullish in H by done. by inversion H. }
  apply (Forall_spread (fun ss : spec_sel =>
           forall c w r w', Inv w -> nullish c -> fst ss c w = (r, w') ->
                            r = Err TypeError /\ w' = w)).
  - unfold member_builtin. each_input; simpl;
      try apply Hfield; try apply sel_entities_nullish; try apply sel_count_nullish.
    destruct (filterFn md) as [f|] eqn:Hf; simpl.
    + intros c w r w'. by apply sel_filtered_nullish.
    + apply sel_entities_nullish.
  - eapply (Forall_extra_specs (fun ss : spec_sel =>
           forall c w r w', Inv w -> nullish c -> fst ss c w = (r, w') ->
                            r = Err TypeError /\ w' = w)); [|apply Forall_nil_2|exact He].
    intros k. apply Hfield.
Qed.
End member_errors.

(** X5: every derivation of the member set throws a TypeError on
    [undefined] and on [null], and leaves the world as it was. *)
Theorem X5_member_selectors_need_a_collection md w0 ms w1 w name sel c :
  createCollectionSelectors md w0 = (Ok ms, w1) ->
  member_inv (next_cell w0) md w ->
  assoc name ms = Some sel ->
  c = VUndefined \/ c = VNull ->
  sel c w = (Err TypeError, w).
Proof.
  intros Hb Hw Hsel Hc.
  apply createCollectionSelectors_ok in Hb as (specs & Hs & -> & _).
  rewrite assoc_map_vals in Hsel.
  destruct (assoc name specs) as [ss|] eqn:Ea; [|done]. injection Hsel as <-.
  pose proof (member_nullish _ _ _ Hs) as HA. rewrite Forall_forall in HA.
  apply assoc_Some_elem in Ea.
  destruct (fst ss c w) as [r w'] eqn:E.
  by destruct (HA _ Ea c w r w' Hw Hc E) as [-> ->].
Qed.

Lemma X5_witness :
  sel_entities 0 VUndefined (members_at hero_heap plain_md) =
    (Err TypeError, members_at hero_heap plain_md).
Proof.
  apply (X5_member_selectors_need_a_collection plain_md (fresh hero_heap)
           (map_vals fst (member_builtin 0 plain_md)) (members_at hero_heap plain_md)
           (members_at hero_heap plain_md) "selectEntities").
  - apply fresh_members, plain_specs.
  - apply fresh_member_inv.
  - reflexivity.
  - by left.
Defined.

(** ** Collections that lack [ids] or [entities] *)

(** A value with a property that is not [length] is an object, where every
    property can be read. *)
Lemma get_prop_total h c k v k' :
  get_prop h c k = Ok v -> k <> "length" -> exists v', get_prop h c k' = Ok v'.
Proof.
  destruct c; try done. simpl.
  destruct (h !! a) as [[ps|es]|]; [eauto| |done].
  intros H Hk. destruct (String.eqb k "length") eqn:E; [|done].
  by apply String.eqb_eq in E.
Qed.

Lemma rel_selectEntities_ids h0 h l c v x :
  h0 `prefix_of` h -> get_prop h0 c "ids" = Ok x ->
  rel_selectEntities h l c v ->
  exists y, get_prop h c "entities" = Ok y /\ rel_entities h l [x; y] v.
Proof.
  intros Hp Hx (args & Hin & Hrel).
  apply rel_inputs_2 in Hin as (a & b & -> & Ha & Hb).
  rewrite <- (get_prop_det _ _ _ _ _ _ Hp Hx Ha) in Hrel. eauto.
Qed.

Lemma rel_entities_no_ids h l y v : ~ rel_entities h l [VUndefined; y] v.
Proof. by intros (keys & vals & ra & Hk & _). Qed.

Lemma mapM_fields2 k1 k2 c w x y :
  get_prop (heap w) c k1 = Ok x -> get_prop (heap w) c k2 = Ok y ->
  mapM (fun fn : selector => fn c) [field k1; field k2] w = (Ok [x; y], w).
Proof. intros H1 H2. simpl. unfold bind, field, read, ret. by rewrite H1, H2. Qed.

Lemma mapM_fields1 k1 c w x :
  get_prop (heap w) c k1 = Ok x ->
  mapM (fun fn : selector => fn c) [field k1] w = (Ok [x], w).
Proof. intros H1. simpl. unfold bind, field, read, ret. by rewrite H1. Qed.

Section partial_collections.
Context (e0 : nat) (md : EntityMetadata).

Let Spec := member_Spec e0 md.
Let F := fp_member e0 md.
Let Inv := member_inv e0 md.

Lemma sel_entities_no_ids c w r w' :
  Inv w -> get_prop (heap w) c "ids" = Ok VUndefined ->
  sel_entities e0 c w = (r, w') ->
  r = Err TypeError /\ heap w' = heap w /\ cells w' = cells w.
Proof.
  intros Hw Hids Hrun.
  destruct (get_prop_total _ _ _ _ "entities" Hids) as (y & Hy); [done|].
  destruct r as [v|e].
  - destruct (triple_sel_entities Spec (member_Spec_wf e0 md) e0 md F
                (fun p H => H) (fun c H => H) c w _ _ Hw Hrun) as (Hev & _ & HQ).
    destruct (HQ _ eq_refl) as [Hrel _].
    destruct (rel_selectEntities_ids _ _ _ _ _ _ (ev_heap _ _ _ Hev) Hids Hrel)
      as (y' & _ & Hre).
    by apply rel_entities_no_ids in Hre.
  - apply memoized_selector_err in Hrun as [H|(args & w1 & H & Hp)];
      rewrite (mapM_fields2 _ _ _ _ _ _ Hids Hy) in H; [done|].
    injection H as <- <-. rewrite project_entities_run in Hp. simpl in Hp.
    by injection Hp as <- <-.
Qed.

Lemma sel_count_no_ids c w r w' :
  Inv w -> get_prop (heap w) c "ids" = Ok VUndefined ->
  sel_count e0 c w = (r, w') ->
  r = Err TypeError /\ heap w' = heap w /\ cells w' = cells w.
Proof.
  intros Hw Hids Hrun. destruct r as [v|e].
  - destruct (triple_sel_count Spec (member_Spec_wf e0 md) e0 md F
                (fun p H => H) (fun c H => H) c w _ _ Hw Hrun) as (Hev & _ & HQ).
    destruct (HQ _ eq_refl) as [(args & Hin & Hrel) _].
    apply rel_inputs_1 in Hin as (a & -> & Ha).
    rewrite <- (get_prop_det _ _ _ _ _ _ (ev_heap _ _ _ Hev) Hids Ha) in Hrel.
    done.
  - apply memoized_selector_err in Hrun as [H|(args & w1 & H & Hp)];
      rewrite (mapM_fields1 _ _ _ _ Hids) in H; [done|].
    injection H as <- <-. unfold project_count, read in Hp. simpl in Hp.
    by injection Hp as <- <-.
Qed.

Lemma sel_filtered_no_ids f c w r w' :
  filterFn md = Some f ->
  Inv w -> get_prop (heap w) c "ids" = Ok VUndefined ->
  sel_filtered e0 f c w = (r, w') ->
  r = Err TypeError /\ heap w' = heap w /\ cells w' = cells w.
Proof.
  intros Hf Hw Hids Hrun. destruct r as [v|e].
  - destruct (triple_sel_filtered Spec (member_Spec_wf e0 md) e0 md F
                (fun p H => H) (fun c H => H) f c Hf w _ _ Hw Hrun) as (Hev & _ & HQ).
    destruct (HQ _ eq_refl) as [(args & Hin & _) _].
    apply rel_inputs_2 in Hin as (a & b & _ & Ha & _).
    destruct (rel_selectEntities_ids _ _ _ _ _ _ (ev_heap _ _ _ Hev) Hids Ha)
      as (y' & _ & Hre).
    by apply rel_entities_no_ids in Hre.
  - apply memoized_selector_err in Hrun as [H|(args & w1 & H & _)];
      simpl in H; unfold bind in H;
      destruct (sel_entities e0 c w) as [r1 w1'] eqn:E1;
      destruct (sel_entities_no_ids _ _ _ _ Hw Hids E1) as (-> & Hh & Hc);
      by inversion H; subst.
Qed.

(** [selectCount] reads [ids] only. *)
Lemma sel_count_ids c w i keys :
  Inv w -> get_prop (heap w) c "ids" = Ok (VRef i) ->
  heap w !! i = Some (OArr keys) ->
  exists w2,
    sel_count e0 c w = (Ok (VNum (Z.of_nat (length keys))), w2) /\
    evolves F w w2 /\ Inv w2.
Proof.
  intros Hw Hids Hi.
  pose proof (member_Spec_wf e0 md) as Hwf.
  pose proof member_size_ge md as Hsz.
  assert (returns (sel_count e0 c) w) as (v & w2 & Hrun).
  { apply (spec_returns Spec (ps_count e0) F); [exact Hwf| | | | | |exact Hw| |].
    - right. by left.
    - unfold F, fp_member. simpl. lia.
    - unfold F, fp_member. simpl. lia.
    - each_input; intros s; by apply triple_sel_field.
    - intros s args. apply triple_weaken_pre, triple_project_count.
      by apply inv_of_env.
    - each_input; intros w' Hev _; eapply returns_field; eauto; apply Hev.
    - intros args w' Hev _ Hin.
      apply rel_inputs_1 in Hin as (a & -> & Ha).
      pose proof (ev_heap _ _ _ Hev) as Hp.
      rewrite <- (get_prop_det _ _ _ _ _ _ Hp Hids Ha).
      unfold returns, project_count, read. simpl.
      rewrite (prefix_lookup_Some _ _ _ _ Hi Hp). simpl. eauto. }
  destruct (triple_sel_count Spec Hwf e0 md F (fun p H => H) (fun c H => H)
              c w _ _ Hw Hrun) as (Hev & Hi2 & HQ).
  destruct (HQ _ eq_refl) as [(args & Hin & Hrel) Hcell].
  apply rel_inputs_1 in Hin as (a & -> & Ha).
  pose proof (ev_heap _ _ _ Hev) as Hp.
  rewrite <- (get_prop_det _ _ _ _ _ _ Hp Hids Ha) in Hrel.
  unfold rel_count in Hrel. simpl in Hrel.
  rewrite (prefix_lookup_Some _ _ _ _ Hi Hp) in Hrel. simpl in Hrel.
  injection Hrel as <-. exists w2.
  split; [done|]. split; [done|]. exact Hi2.
Qed.

Lemma sel_entities_no_map_empty c w i :
  Inv w -> get_prop (heap w) c "ids" = Ok (VRef i) ->
  heap w !! i = Some (OArr []) ->
  get_prop (heap w) c "entities" = Ok VUndefined ->
  exists r w2,
    sel_entities e0 c w = (Ok (VRef r), w2) /\ heap w2 !! r = Some (OArr []).
Proof.
  intros Hw Hids Hi Hents.
  pose proof (member_Spec_wf e0 md) as Hwf.
  pose proof member_size_ge md as Hsz.
  assert (returns (sel_entities e0 c) w) as (v & w2 & Hrun).
  { apply (spec_returns Spec (ps_entities e0) F); [exact Hwf| | | | | |exact Hw| |].
    - by left.
    - unfold F, fp_member. simpl. lia.
    - unfold F, fp_member. simpl. lia.
    - each_input; intros s; by apply triple_sel_field.
    - intros s args. apply triple_weaken_pre, triple_project_entities.
      by apply inv_of_env.
    - each_input; intros w' Hev _; eapply returns_field; eauto; apply Hev.
    - intros args w' Hev _ Hin.
      apply rel_inputs_2 in Hin as (a & b & -> & Ha & Hb).
      pose proof (ev_heap _ _ _ Hev) as Hp.
      rewrite <- (get_prop_det _ _ _ _ _ _ Hp Hids Ha).
      unfold returns. rewrite project_entities_run. simpl.
      rewrite (prefix_lookup_Some _ _ _ _ Hi Hp). simpl. eauto. }
  destruct (triple_sel_entities Spec Hwf e0 md F (fun p H => H) (fun c H => H)
              c w _ _ Hw Hrun) as (Hev & Hi2 & HQ).
  destruct (HQ _ eq_refl) as [Hrel _].
  pose proof (ev_heap _ _ _ Hev) as Hp.
  destruct (rel_selectEntities_ids _ _ _ _ _ _ Hp Hids Hrel)
    as (y & _ & keys' & vals & ra & Hk' & Hv & -> & Hra).
  cbn [nth] in *.
  rewrite (array_elems_arr _ i []) in Hk' by by eapply prefix_lookup_Some.
  injection Hk' as <-. simpl in Hv. injection Hv as <-. eauto.
Qed.

Lemma sel_entities_no_map c w i k keys r w' :
  Inv w -> get_prop (heap w) c "ids" = Ok (VRef i) ->
  heap w !! i = Some (OArr (k :: keys)) ->
  get_prop (heap w) c "entities" = Ok VUndefined ->
  sel_entities e0 c w = (r, w') ->
  r = Err TypeError /\ heap w' = heap w /\ cells w' = cells w.
Proof.
  intros Hw Hids Hi Hents Hrun. destruct r as [v|e].
  - destruct (triple_sel_entities Spec (member_Spec_wf e0 md) e0 md F
                (fun p H => H) (fun c H => H) c w _ _ Hw Hrun) as (Hev & _ & HQ).
    destruct (HQ _ eq_refl) as [(args & Hin & Hrel) _].
    apply rel_inputs_2 in Hin as (a & b & -> & Ha & Hb).
    pose proof (ev_heap _ _ _ Hev) as Hp.
    rewrite <- (get_prop_det _ _ _ _ _ _ Hp Hids Ha) in Hrel.
    rewrite <- (get_prop_det _ _ _ _ _ _ Hp Hents Hb) in Hrel.
    destruct Hrel as (keys' & vals & ra & Hk' & Hv & _). cbn [nth] in *.
    rewrite (array_elems_arr _ i (k :: keys)) in Hk' by by eapply prefix_lookup_Some.
    injection Hk' as <-. done.
  - apply memoized_selector_err in Hrun as [H|(args & w1 & H & Hp)];
      rewrite (mapM_fields2 _ _ _ _ _ _ Hids Hents) in H; [done|].
    injection H as <- <-. rewrite project_entities_run in Hp. simpl in Hp.
    rewrite Hi in Hp. simpl in Hp. by injection Hp as <- <-.
Qed.
End partial_collections.

(** X6: on a collection without [ids], [selectEntities], [selectCount] and
    [selectFilteredEntities] throw a TypeError, allocate nothing and store
    nothing in their cells; [selectKeys] returns [undefined]. *)
Theorem X6_missing_ids md w0 ms w1 w c :
  createCollectionSelectors md w0 = (Ok ms, w1) ->
  member_inv (next_cell w0) md w ->
  get_prop (heap w) c "ids" = Ok VUndefined ->
  (forall name, declared_for name (extra_keys md) = None ->
     name ∈ ["selectEntities"; "selectCount"; "selectFilteredEntities"] ->
     exists sel w',
       assoc name ms = Some sel /\ sel c w = (Err TypeError, w') /\
       heap w' = heap w /\ cells w' = cells w) /\
  (declared_for "selectKeys" (extra_keys md) = None ->
   exists sel, assoc "selectKeys" ms = Some sel /\ sel c w = (Ok VUndefined, w)).
Proof.
  intros Hb Hw Hids. set (e0 := next_cell w0) in *.
  assert (forall name ss, declared_for name (extra_keys md) = None ->
            assoc name (member_builtin e0 md) = Some ss ->
            assoc name ms = Some (fst ss)) as Hlink.
  { intros name ss Hd Hss. by eapply member_lookup_builtin. }
  split.
  - intros name Hd Hin. rewrite !elem_of_cons in Hin.
    destruct Hin as [->|[->|[->|Hin]]]; [| | |by apply elem_of_nil in Hin].
    + destruct (sel_entities e0 c w) as [r w'] eqn:E.
      destruct (sel_entities_no_ids _ _ _ _ _ _ Hw Hids E) as (-> & Hh & Hc).
      exists (sel_entities e0), w'. split; [|done].
      by apply (Hlink _ (sel_entities e0, rel_selectEntities) Hd).
    + destruct (sel_count e0 c w) as [r w'] eqn:E.
      destruct (sel_count_no_ids _ _ _ _ _ _ Hw Hids E) as (-> & Hh & Hc).
      exists (sel_count e0), w'. split; [|done].
      by apply (Hlink _ (sel_count e0, rel_selectCount) Hd).
    + destruct (filterFn md) as [f|] eqn:Hf.
      * destruct (sel_filtered e0 f c w) as [r w'] eqn:E.
        destruct (sel_filtered_no_ids _ _ _ _ _ _ _ Hf Hw Hids E) as (-> & Hh & Hc).
        exists (sel_filtered e0 f), w'. split; [|done].
        apply (Hlink _ (sel_filtered e0 f, rel_selectFiltered f) Hd).
        simpl. by rewrite Hf.
      * destruct (sel_entities e0 c w) as [r w'] eqn:E.
        destruct (sel_entities_no_ids _ _ _ _ _ _ Hw Hids E) as (-> & Hh & Hc).
        exists (sel_entities e0), w'. split; [|done].
        apply (Hlink _ (sel_entities e0, rel_selectEntities) Hd).
        simpl. by rewrite Hf.
  - intros Hd. exists (field "ids"). split.
    + by apply (Hlink _ (spec_field "ids") Hd).
    + unfold field, read. by rewrite Hids.
Qed.

Lemma X6_witness :
  exists sel w',
    assoc "selectCount" (map_vals fst (member_builtin 0 plain_md)) = Some sel /\
    sel (VRef 10) (members_at edge_heap plain_md) = (Err TypeError, w').
Proof.
  destruct (X6_missing_ids plain_md (fresh edge_heap)
              (map_vals fst (member_builtin 0 plain_md)) (members_at edge_heap plain_md)
              (members_at edge_heap plain_md) (VRef 10)) as [Hthrow _].
  - apply fresh_members, plain_specs.
  - apply fresh_member_inv.
  - reflexivity.
  - destruct (Hthrow "selectCount") as (sel & w' & Ha & Hrun & _).
    + reflexivity.
    + right. left.
    + by exists sel, w'.
Defined.

(** X7: on a collection whose [ids] is an array and that has no [entities],
    [selectCount] returns the number of keys, and [selectEntities] returns a
    new empty array when there is no key and throws a TypeError when there
    is one. *)
Theorem X7_missing_entity_map md w0 ms w1 w c i keys :
  createCollectionSelectors md w0 = (Ok ms, w1) ->
  member_inv (next_cell w0) md w ->
  get_prop (heap w) c "ids" = Ok (VRef i) ->
  heap w !! i = Some (OArr keys) ->
  get_prop (heap w) c "entities" = Ok VUndefined ->
  let e0 := next_cell w0 in
  (forall name sel,
     (name, sel) ∈ [("selectEntities", sel_entities e0);
                    ("selectCount", sel_count e0)] ->
     declared_for name (extra_keys md) = None -> assoc name ms = Some sel) /\
  (exists w',
     sel_count e0 c w = (Ok (VNum (Z.of_nat (length keys))), w')) /\
  (keys = [] ->
   exists r w', sel_entities e0 c w = (Ok (VRef r), w') /\
                heap w' !! r = Some (OArr [])) /\
  (keys <> [] ->
   exists w', sel_entities e0 c w = (Err TypeError, w') /\
              heap w' = heap w /\ cells w' = cells w).
Proof.
  intros Hb Hw Hids Hi Hents e0. split; [|split; [|split]].
  - intros name sel Hin Hd.
    assert (exists ss, assoc name (member_builtin e0 md) = Some ss /\ fst ss = sel)
      as (ss & Hss & <-).
    { rewrite !elem_of_cons in Hin.
      destruct Hin as [[= -> ->]|[[= -> ->]|Hin]];
        [..|by apply elem_of_nil in Hin]; simpl; eauto. }
    by eapply member_lookup_builtin.
  - destruct (sel_count_ids e0 md c w i keys Hw Hids Hi) as (w' & Hrun & _). eauto.
  - intros ->. by apply (sel_entities_no_map_empty e0 md c w i).
  - intros Hne. destruct keys as [|k keys]; [done|].
    destruct (sel_entities e0 c w) as [r w'] eqn:E.
    destruct (sel_entities_no_map _ _ _ _ _ _ _ _ _ Hw Hids Hi Hents E) as (-> & Hh & Hc).
    by exists w'.
Qed.

Lemma X7_witness :
  (exists w', sel_count 0 (VRef 7) (members_at edge_heap plain_md) = (Ok (VNum 1), w')) /\
  (exists w', sel_entities 0 (VRef 7) (members_at edge_heap plain_md)
              = (Err TypeError, w')) /\
  (exists r w', sel_entities 0 (VRef 9) (members_at edge_heap plain_md)
                = (Ok (VRef r), w') /\ heap w' !! r = Some (OArr [])).
Proof.
  destruct (X7_missing_entity_map plain_md (fresh edge_heap)
              (map_vals fst (member_builtin 0 plain_md)) (members_at edge_heap plain_md)
              (members_at edge_heap plain_md) (VRef 7) 0 [VNum 1])
    as (_ & Hcount & _ & Hthrow).
  { apply fresh_members, plain_specs. }
  { apply fresh_member_inv. }
  { reflexivity. }
  { reflexivity. }
  { reflexivity. }
  destruct (X7_missing_entity_map plain_md (fresh edge_heap)
              (map_vals fst (member_builtin 0 plain_md)) (members_at edge_heap plain_md)
              (members_at edge_heap plain_md) (VRef 9) 8 [])
    as (_ & _ & Hempty & _).
  { apply fresh_members, plain_specs. }
  { apply fresh_member_inv. }
  { reflexivity. }
  { reflexivity. }
  { reflexivity. }
  split; [exact Hcount|]. split.
  - destruct Hthrow as (w' & Hrun & _); [done|]. by exists w'.
  - by apply Hempty.
Defined.

(** ** The accessor on a cache that is [null] *)

(** The feature selector allocates nothing and does not call the Creator. *)
Lemma feature_run f0 cacheName creator s w r w' :
  selectEntityCache (mk_factory f0 cacheName creator) s w = (r, w') ->
  heap w' = heap w /\
  forall n v, EvCreate n v ∈ calls w' -> EvCreate n v ∈ calls w.
Proof.
  unfold mk_factory, selectEntityCache, memoized_selector.
  rewrite memoize_unfold.
  assert (forall w1 a r1 w2,
            memoize f0 (fun a => tick (EvProject f0 a) ;;; identity_projector a) a w1
              = (r1, w2) ->
            heap w2 = heap w1 /\
            forall n v, EvCreate n v ∈ calls w2 -> EvCreate n v ∈ calls w1) as Hp.
  { intros w1 a r1 w2. rewrite memoize_unfold. unfold recompute, bind, tick,
      identity_projector, ret, store. simpl.
    destruct (cells w1 !! f0) as [[la lr]|]; [destruct (args_changed a la)|];
      intros [= <- <-]; simpl; split; try done;
      intros n v Hin; apply elem_of_cons in Hin as [[=]|Hin]; done. }
  assert (recompute (1 + f0)
            (fun st => let state := hd VUndefined st in
                       args <- mapM (fun fn : selector => fn state) [field cacheName] ;;
                       memoize f0 (fun a => tick (EvProject f0 a) ;;;
                                            identity_projector a) args)
            [s] w = (r, w') ->
          heap w' = heap w /\
          forall n v, EvCreate n v ∈ calls w' -> EvCreate n v ∈ calls w) as Hrec.
  { unfold recompute. simpl. unfold bind at 1 2. unfold field, read.
    destruct (get_prop (heap w) s cacheName) as [cache|e]; simpl.
    - unfold bind, ret.
      destruct (memoize f0 _ [cache] w) as [[r1|e1] w2] eqn:E;
        destruct (Hp _ _ _ _ E) as [Hh Hc]; intros [= <- <-]; simpl; done.
    - by intros [= <- <-]. }
  destruct (cells w !! (1 + f0)) as [[la lr]|]; [|exact Hrec].
  destruct (args_changed [s] la); [exact Hrec|]. by intros [= <- <-].
Qed.

(** X8: on a state whose cache is [null] the accessor throws a TypeError
    (the default [{}] of [getCollection] replaces [undefined] only); it
    allocates nothing and does not call the Collection Creator. *)
Theorem X8_null_cache cacheName creator name w0 this w1 wa sel w2 w s :
  constructor cacheName creator w0 = (Ok this, w1) ->
  2 + next_cell w0 <= next_cell wa ->
  createCollectionSelector this name wa = (Ok sel, w2) ->
  accessor_inv (next_cell w0) (next_cell wa) cacheName name w ->
  get_prop (heap w) s cacheName = Ok VNull ->
  exists w',
    sel s w = (Err TypeError, w') /\ heap w' = heap w /\
    forall n v, EvCreate n v ∈ calls w' -> EvCreate n v ∈ calls w.
Proof.
  intros Hthis Hlt Hsel Hw Hnull.
  destruct (constructor_run cacheName creator w0) as (w1' & E1 & _).
  rewrite E1 in Hthis. injection Hthis as <- <-.
  destruct (createCollectionSelector_run
              (mk_factory (next_cell w0) cacheName creator) name wa)
    as (w2' & E2 & _).
  rewrite E2 in Hsel. injection Hsel as <- <-.
  set (f0 := next_cell w0) in *. set (a0 := next_cell wa) in *.
  set (Spec := accessor_Spec f0 a0 cacheName name).
  pose proof (accessor_Spec_wf f0 a0 cacheName name Hlt) as Hwf.
  destruct (sel_collection (mk_factory f0 cacheName creator) a0 name s w)
    as [r w'] eqn:Hrun.
  exists w'. destruct r as [v|e].
  - destruct (triple_accessor Spec Hwf f0 a0 cacheName creator name
                (fp_accessor f0 a0) (fun p H => H) (fun c H => H) s w _ _ Hw Hrun)
      as (Hev & _ & HQ).
    destruct (HQ _ eq_refl) as [Hrel _].
    apply rel_accessor_inv in Hrel as (cache & st & Hc & Hst & _).
    rewrite <- (get_prop_det _ _ _ _ _ _ (ev_heap _ _ _ Hev) Hnull Hc) in Hst.
    done.
  - apply memoized_selector_err in Hrun as [H|(args & wf & H & Hp)];
      cbn [mapM] in H; unfold bind, mk_factory in H; cbn [selectEntityCache] in H;
      destruct (memoized_selector (1 + f0) f0 [field cacheName] identity_projector s w)
        as [rf wf'] eqn:Ef.
    + destruct (returns_feature Spec Hwf f0 a0 cacheName creator name
                  (fp_accessor f0 a0) (fun p H => H) (fun c H => H)
                  s (heap w) w VNull Hw Hnull) as (v & wv & Hv); [done|].
      unfold mk_factory in Hv. cbn [selectEntityCache] in Hv.
      rewrite Ef in Hv. injection Hv as -> ->. done.
    + destruct rf as [cache|]; [|done]. injection H as <- <-.
      destruct (triple_feature Spec Hwf f0 a0 cacheName creator name
                  (fp_accessor f0 a0) (fun p H => H) (fun c H => H) s w _ _ Hw Ef)
        as (Hev & _ & HQ).
      pose proof (HQ _ eq_refl) as Hrel. apply rel_cache_inv in Hrel.
      rewrite <- (get_prop_det _ _ _ _ _ _ (ev_heap _ _ _ Hev) Hnull Hrel) in Hp.
      destruct (feature_run f0 cacheName creator s w _ _ Ef) as [Hh Hc].
      unfold getCollection, bind, ret, read in Hp. simpl in Hp.
      injection Hp as <- <-. simpl. split; [done|]. split; [done|].
      intros n v Hin. apply elem_of_cons in Hin as [[=]|Hin]. by apply Hc.
Qed.

Lemma X8_witness :
  exists w',
    sel_collection hero_factory 2 (VStr "Hero") (VRef 11)
      (accessor_at edge_heap (VStr "Hero")) = (Err TypeError, w') /\
    heap w' = edge_heap.
Proof.
  destruct (X8_null_cache "entityCache" empty_creator (VStr "Hero")
              (fresh edge_heap) hero_factory (factory_at edge_heap)
              (factory_at edge_heap) (sel_collection hero_factory 2 (VStr "Hero"))
              (accessor_at edge_heap (VStr "Hero"))
              (accessor_at edge_heap (VStr "Hero")) (VRef 11))
    as (w' & Hrun & Hh & _).
  - apply fresh_constructor.
  - vm_compute. lia.
  - apply fresh_accessor.
  - apply fresh_accessor_inv.
  - reflexivity.
  - exists w'. split; [exact Hrun|]. rewrite Hh. reflexivity.
Defined.

(** ** Building is lazy *)

Lemma create_built this md w :
  exists k, built k w (create this md w).2.
Proof.
  unfold create, bind.
  destruct (createCollectionSelector_run this (entityName md) w) as (w1 & E1 & B1).
  rewrite E1.
  destruct (createCollectionSelectors_run md w1) as (w2 & E2 & B2).
  rewrite E2.
  destruct (member_specs (next_cell w1) md) as [specs|e] eqn:Es; simpl.
  - destruct (foldM_add_root (sel_collection this (next_cell w) (entityName md))
                (map_vals fst specs) (Object_keys (map_vals fst specs)) [] w2)
      as (w3 & E3 & B3).
    rewrite E3. simpl. eexists.
    eapply built_trans; [|exact B3]. eapply built_trans; [exact B1|exact B2].
  - eexists. eapply built_trans; [exact B1|exact B2].
Qed.

(** X9: [create] is lazy.  Whatever it returns, it leaves the heap and the
    log of the runs of the Creator and of the projectors as they were, it
    leaves the cells that existed as they were, and the cells it takes are
    empty. *)
Theorem X9_build_is_lazy this md w r w' :
  create this md w = (r, w') ->
  heap w' = heap w /\ calls w' = calls w /\
  next_cell w <= next_cell w' /\
  (forall c, c < next_cell w -> cells w' !! c = cells w !! c) /\
  (forall c, next_cell w <= c < next_cell w' -> cells w' !! c = None).
Proof.
  intros Hrun. destruct (create_built this md w) as (k & [Hh Hc Hn Hnew Hold]).
  rewrite Hrun in *. simpl in *.
  split; [done|]. split; [done|]. split; [lia|]. split.
  - intros c Hlt. apply Hold. by left.
  - intros c Hlt. apply Hnew. lia.
Qed.

Lemma X9_witness :
  heap (root_world plain_md) = hero_heap /\ calls (root_world plain_md) = [].
Proof.
  destruct (X9_build_is_lazy hero_factory plain_md factory_world _ _
              (hero_create _ _ (plain_specs 4))) as (Hh & Hc & _).
  split; [rewrite Hh|rewrite Hc]; reflexivity.
Defined.

(** ** Root derivations on a state that stores the collection *)

Lemma root_stored f0 a0 cacheName creator md specs i k ss s w st :
  2 + f0 <= a0 ->
  member_specs (2 + a0) md = Ok specs ->
  specs !! i = Some (k, ss) ->
  root_inv f0 a0 cacheName md w ->
  state_view (heap w) s cacheName (entityName md) = Some st ->
  truthy st = true ->
  (forall w', evolves (fp_root f0 a0 md i) w w' ->
              root_inv f0 a0 cacheName md w' -> returns (fst ss st) w') ->
  exists v w',
    root_sel (mk_factory f0 cacheName creator) a0 md i (fst ss) s w = (Ok v, w') /\
    root_inv f0 a0 cacheName md w' /\ heap w `prefix_of` heap w' /\
    snd ss (heap w') (calls w') st v.
Proof.
  intros Hlt Hs Hi Hw Hst Ht Hmem.
  assert (returns (root_sel (mk_factory f0 cacheName creator) a0 md i (fst ss) s) w)
    as (v & w' & Hrun).
  { apply (returns_root f0 a0 cacheName creator md specs Hlt Hs i k ss s w Hi Hw).
    - intros w' Hev Hw'.
      destruct (root_accessor_value f0 a0 cacheName creator md Hlt
                  (fp_root f0 a0 md i) s w' st (fun c H => or_introl H) Hw')
        as (v & w'' & Hrun & _); [|by exists v, w''].
      eapply state_view_prefix; [apply Hev|done].
    - intros col w' Hev Hw' Hcol.
      pose proof (rel_accessor_view _ _ _ _ _ _ _
                    (state_view_prefix _ _ _ _ _ _ (ev_heap _ _ _ Hev) Hst) Hcol) as Hc.
      rewrite Ht in Hc. subst col. by apply Hmem. }
  exists v, w'.
  destruct (triple_root f0 a0 cacheName creator md specs Hlt Hs i k ss s Hi
              w _ _ Hw Hrun) as (Hev & Hw' & HQ).
  destruct (HQ _ eq_refl) as [(col & Hcol & Hv) _].
  pose proof (rel_accessor_view _ _ _ _ _ _ _
                (state_view_prefix _ _ _ _ _ _ (ev_heap _ _ _ Hev) Hst) Hcol) as Hc.
  rewrite Ht in Hc. subst col.
  split; [done|]. split; [done|]. split; [apply Hev|done].
Qed.

Lemma rel_selectCount_view h l c v i e keys em :
  collection_view h c = Some (i, e, keys, em) ->
  rel_selectCount h l c v -> v = VNum (Z.of_nat (length keys)).
Proof.
  intros Hc (args & Hin & Hrel).
  destruct (collection_view_inv _ _ _ _ _ _ Hc) as (Hids & _ & Hi & _).
  apply rel_inputs_1 in Hin as (a & -> & Ha).
  unfold rel_field in Ha. rewrite Hids in Ha. injection Ha as <-.
  unfold rel_count in Hrel. simpl in Hrel. rewrite Hi in Hrel. simpl in Hrel.
  by injection Hrel as <-.
Qed.

(** X10: on a state that stores a well-formed collection for the type,
    the root [selectEntities] returns an array of the collection's entities
    in key order, and the root [selectCount] the number of its keys. *)
Theorem X10_root_entities_and_count cacheName creator md w0 this w1 wa rs w2
    w s a i e keys em :
  constructor cacheName creator w0 = (Ok this, w1) ->
  2 + next_cell w0 <= next_cell wa ->
  create this md wa = (Ok rs, w2) ->
  root_inv (next_cell w0) (next_cell wa) cacheName md w ->
  state_view (heap w) s cacheName (entityName md) = Some (VRef a) ->
  collection_view (heap w) (VRef a) = Some (i, e, keys, em) ->
  (declared_for "selectEntities" (extra_keys md) = None ->
   exists root r w',
     assoc "selectEntities" rs = Some (ESel root) /\
     root s w = (Ok (VRef r), w') /\
     heap w' !! r = Some (OArr (map (entity_at em) keys)) /\
     root_inv (next_cell w0) (next_cell wa) cacheName md w') /\
  (declared_for "selectCount" (extra_keys md) = None ->
   exists root w',
     assoc "selectCount" rs = Some (ESel root) /\
     root s w = (Ok (VNum (Z.of_nat (length keys))), w') /\
     root_inv (next_cell w0) (next_cell wa) cacheName md w').
Proof.
  intros Hthis Hlt Hrs Hw Hst Hc.
  destruct (create_ok _ _ _ _ _ _ _ _ _ Hthis Hrs) as (-> & specs & Hs & -> & Hb).
  set (f0 := next_cell w0) in *. set (a0 := next_cell wa) in *.
  pose proof (root_Spec_wf f0 a0 cacheName md Hlt) as Hwf.
  assert (forall p, member_Spec (2 + a0) md p -> root_Spec f0 a0 cacheName md p)
    as Hsub by (intros p Hp; right; by left).
  split; intros Hd.
  - pose proof (member_specs_assoc _ _ _ "selectEntities" Hs) as Ha.
    rewrite Hd in Ha. simpl in Ha.
    apply assoc_Some_elem, list_elem_of_lookup in Ha as (n & Hn).
    destruct (root_stored f0 a0 cacheName creator md specs n _ _ s w (VRef a)
                Hlt Hs Hn Hw Hst eq_refl) as (v & w' & Hrun & Hw' & Hp & Hv).
    { intros w' Hev Hw'.
      destruct (sel_entities_value (root_Spec f0 a0 cacheName md) Hwf (2 + a0) md
                  (fp_root f0 a0 md n) Hsub (fun c H => or_intror (or_introl H))
                  (VRef a) w' i e keys em Hw') as (r & w'' & Hrun & _).
      - eapply collection_view_prefix; [apply Hev|done].
      - by exists (VRef r), w''. }
    simpl in Hv.
    destruct (rel_selectEntities_view _ _ _ _ _ _ _ _
                (collection_view_prefix _ _ _ _ Hp Hc) Hv) as (r & -> & Hr).
    eexists _, r, w'. split; [by apply (root_set_member _ _ _ _ Hs n _ _ Hn)|].
    done.
  - pose proof (member_specs_assoc _ _ _ "selectCount" Hs) as Ha.
    rewrite Hd in Ha. simpl in Ha.
    apply assoc_Some_elem, list_elem_of_lookup in Ha as (n & Hn).
    destruct (root_stored f0 a0 cacheName creator md specs n _ _ s w (VRef a)
                Hlt Hs Hn Hw Hst eq_refl) as (v & w' & Hrun & Hw' & Hp & Hv).
    { intros w' Hev Hw'.
      destruct (sel_count_value (root_Spec f0 a0 cacheName md) Hwf (2 + a0) md
                  (fp_root f0 a0 md n) Hsub (fun c H => or_intror (or_introl H))
                  (VRef a) w' i e keys em Hw') as (w'' & Hrun & _).
      - eapply collection_view_prefix; [apply Hev|done].
      - by eexists _, w''. }
    simpl in Hv.
    rewrite (rel_selectCount_view _ _ _ _ _ _ _ _
                (collection_view_prefix _ _ _ _ Hp Hc) Hv) in Hrun.
    eexists _, w'. split; [by apply (root_set_member _ _ _ _ Hs n _ _ Hn)|].
    done.
Qed.

Lemma X10_witness :
  exists root r w',
    assoc "selectEntities" (root_set hero_factory 2 plain_md (member_builtin 4 plain_md))
      = Some (ESel root) /\
    root (VRef 7) (root_world plain_md) = (Ok (VRef r), w') /\
    heap w' !! r = Some (OArr [VRef 0; VRef 1]).
Proof.
  destruct (X10_root_entities_and_count "entityCache" empty_creator plain_md
              hero_world hero_factory factory_world factory_world
              (root_set hero_factory 2 plain_md (member_builtin 4 plain_md))
              (root_world plain_md) (root_world plain_md) (VRef 7) 5
              2 3 [VNum 1; VNum 2] [("1", VRef 0); ("2", VRef 1)])
    as [Hent _].
  - apply hero_constructor.
  - vm_compute. lia.
  - apply hero_create, plain_specs.
  - by eapply hero_root_inv, plain_specs.
  - vm_compute. reflexivity.
  - vm_compute. reflexivity.
  - destruct Hent as (root & r & w' & Ha & Hrun & Hr & _); [reflexivity|].
    by exists root, r, w'.
Defined.

(** ** When [selectEntities] recomputes *)

(** The state is new, the inputs give the arguments the projector has seen
    last: the projector does not run. *)
Lemma memo_hit_projector cs cp inputs proj s w args w1 v :
  (forall la lr, cells w !! cs = Some (la, lr) -> args_changed [s] la = true) ->
  mapM (fun fn : selector => fn s) inputs w = (Ok args, w1) ->
  cells w1 !! cp = Some (args, v) ->
  memoized_selector cs cp inputs proj s w = (Ok v, store cs [s] v w1).
Proof.
  intros Hcs Hin Hcp. unfold memoized_selector. rewrite memoize_unfold.
  assert (recompute cs
            (fun st => let state := hd VUndefined st in
                       args <- mapM (fun fn : selector => fn state) inputs ;;
                       memoize cp (fun a => tick (EvProject cp a) ;;; proj a) args)
            [s] w = (Ok v, store cs [s] v w1)) as Hrec.
  { unfold recompute. simpl. unfold bind at 1. rewrite Hin.
    rewrite memoize_unfold, Hcp, args_changed_same. done. }
  destruct (cells w !! cs) as [[la lr]|] eqn:Ec; [|done].
  by rewrite (Hcs _ _ eq_refl).
Qed.

(** The state is new and so are the arguments: the projector runs. *)
Lemma memo_miss_projector cs cp inputs proj s w args w1 :
  (forall la lr, cells w !! cs = Some (la, lr) -> args_changed [s] la = true) ->
  mapM (fun fn : selector => fn s) inputs w = (Ok args, w1) ->
  (forall la lr, cells w1 !! cp = Some (la, lr) -> args_changed args la = true) ->
  memoized_selector cs cp inputs proj s w =
  match proj args (tick (EvProject cp args) w1).2 with
  | (Ok r, w2) => (Ok r, store cs [s] r (store cp args r w2))
  | (Err e, w2) => (Err e, w2)
  end.
Proof.
  intros Hcs Hin Hcp. unfold memoized_selector. rewrite memoize_unfold.
  assert (recompute cs
            (fun st => let state := hd VUndefined st in
                       args <- mapM (fun fn : selector => fn state) inputs ;;
                       memoize cp (fun a => tick (EvProject cp a) ;;; proj a) args)
            [s] w =
          match proj args (tick (EvProject cp args) w1).2 with
          | (Ok r, w2) => (Ok r, store cs [s] r (store cp args r w2))
          | (Err e, w2) => (Err e, w2)
          end) as Hrec.
  { unfold recompute. simpl. unfold bind at 1. rewrite Hin.
    rewrite memoize_unfold.
    assert (recompute cp (fun a => tick (EvProject cp a) ;;; proj a) args w1 =
            match proj args (tick (EvProject cp args) w1).2 with
            | (Ok r, w2) => (Ok r, store cp args r w2)
            | (Err e, w2) => (Err e, w2)
            end) as Hp.
    { unfold recompute, bind. simpl.
      by destruct (proj args _) as [[r|e] w2]. }
    destruct (cells w1 !! cp) as [[la lr]|] eqn:Ec.
    - rewrite (Hcp _ _ eq_refl), Hp. by destruct (proj args _) as [[r|e] w2].
    - rewrite Hp. by destruct (proj args _) as [[r|e] w2]. }
  destruct (cells w !! cs) as [[la lr]|] eqn:Ec; [|done].
  by rewrite (Hcs _ _ eq_refl).
Qed.

Lemma args_changed_state s s' : s <> s' -> args_changed [s] [s'] = true.
Proof.
  intros Hne. simpl. unfold strict_eq. by rewrite bool_decide_eq_false_2.
Qed.

Lemma args_changed_head a args b last :
  a <> b -> args_changed (a :: args) (b :: last) = true.
Proof.
  intros Hne. simpl. unfold strict_eq. by rewrite bool_decide_eq_false_2.
Qed.

Section entities_memo.
Context (e0 : nat) (md : EntityMetadata).

Let Spec := member_Spec e0 md.
Let F := fp_member e0 md.
Let Inv := member_inv e0 md.

(** What the two cells of [selectEntities] hold after a call. *)
Lemma sel_entities_cells c w v w' x y :
  Inv w -> sel_entities e0 c w = (Ok v, w') ->
  get_prop (heap w') c "ids" = Ok x -> get_prop (heap w') c "entities" = Ok y ->
  Inv w' /\ heap w `prefix_of` heap w' /\
  cells w' !! (1 + e0) = Some ([c], v) /\ cells w' !! e0 = Some ([x; y], v) /\
  exists r, v = VRef r /\ r < length (heap w').
Proof.
  intros Hw Hrun Hx Hy.
  destruct (triple_sel_entities Spec (member_Spec_wf e0 md) e0 md F
              (fun p H => H) (fun c H => H) c w _ _ Hw Hrun) as (Hev & Hw' & HQ).
  destruct (HQ _ eq_refl) as [_ Hcs].
  split; [done|]. split; [apply Hev|]. split; [done|].
  destruct (Hw' (ps_entities e0)) as [Hres Hlink]; [by left|].
  destruct (Hlink _ _ Hcs) as (s & args & [= <-] & Hcp & Hin).
  destruct (Hres _ _ Hcp) as (_ & keys & vals & ra & _ & _ & -> & Hra).
  apply rel_inputs_2 in Hin as (a & b & -> & Ha & Hb).
  unfold rel_field in Ha, Hb. simpl in Ha, Hb. rewrite Hx in Ha. rewrite Hy in Hb.
  injection Ha as <-. injection Hb as <-.
  split; [done|]. exists ra. split; [done|]. by eapply lookup_lt_Some.
Qed.
End entities_memo.

(** X11: two collection objects with the same [ids] and the same
    [entities] objects: after [selectEntities] returned an array for the
    first, it returns the same array for the second and the projector does
    not run (the heap and the log are unchanged). *)
Theorem X11_entities_reused md w0 ms w1 w sel c1 c2 x y v w' :
  createCollectionSelectors md w0 = (Ok ms, w1) ->
  declared_for "selectEntities" (extra_keys md) = None ->
  assoc "selectEntities" ms = Some sel ->
  member_inv (next_cell w0) md w ->
  get_prop (heap w) c1 "ids" = Ok x -> get_prop (heap w) c1 "entities" = Ok y ->
  get_prop (heap w) c2 "ids" = Ok x -> get_prop (heap w) c2 "entities" = Ok y ->
  sel c1 w = (Ok v, w') ->
  exists w'',
    sel c2 w' = (Ok v, w'') /\
    heap w'' = heap w' /\ calls w'' = calls w' /\
    member_inv (next_cell w0) md w''.
Proof.
  intros Hb Hd Hsel Hw Hx1 Hy1 Hx2 Hy2 Hrun. set (e0 := next_cell w0) in *.
  rewrite (member_lookup_builtin md w0 ms w1 "selectEntities"
             (sel_entities e0, rel_selectEntities) Hb eq_refl Hd) in Hsel.
  injection Hsel as <-.
  assert (heap w `prefix_of` heap w') as Hp.
  { destruct (triple_sel_entities _ (member_Spec_wf e0 md) e0 md (fp_member e0 md)
                (fun p H => H) (fun c H => H) c1 w _ _ Hw Hrun) as (Hev & _).
    apply Hev. }
  destruct (sel_entities_cells e0 md c1 w v w' x y Hw Hrun)
    as (Hw' & _ & Hcs & Hcp & _); [by eapply get_prop_prefix..|].
  destruct (decide (c2 = c1)) as [->|Hne].
  - exists w'. split; [by eapply memoized_selector_again|done].
  - assert (sel_entities e0 c2 w' = (Ok v, store (1 + e0) [c2] v w')) as Hrun2.
    { apply (memo_hit_projector _ _ _ _ c2 w' [x; y] w' v).
      - intros la lr Hc. rewrite Hcs in Hc. injection Hc as <- <-.
        by apply args_changed_state.
      - apply mapM_fields2; by eapply get_prop_prefix.
      - done. }
    eexists. split; [exact Hrun2|]. split; [done|]. split; [done|].
    by destruct (triple_sel_entities _ (member_Spec_wf e0 md) e0 md (fp_member e0 md)
                   (fun p H => H) (fun c H => H) c2 w' _ _ Hw' Hrun2) as (_ & ? & _).
Qed.

Lemma X11_witness :
  exists w'',
    sel_entities 0 (VRef 4) (sel_entities 0 (VRef 3) (members_at edge_heap plain_md)).2
      = (Ok (VRef 17), w'') /\
    calls w'' = calls (sel_entities 0 (VRef 3) (members_at edge_heap plain_md)).2.
Proof.
  destruct (X11_entities_reused plain_md (fresh edge_heap)
              (map_vals fst (member_builtin 0 plain_md)) (members_at edge_heap plain_md)
              (members_at edge_heap plain_md) (sel_entities 0)
              (VRef 3) (VRef 4) (VRef 0) (VRef 1)
              (VRef 17) (sel_entities 0 (VRef 3) (members_at edge_heap plain_md)).2)
    as (w'' & Hrun & _ & Hc & _).
  - apply fresh_members, plain_specs.
  - reflexivity.
  - reflexivity.
  - apply fresh_member_inv.
  - reflexivity.
  - reflexivity.
  - reflexivity.
  - reflexivity.
  - exact edge_entities_run.
  - by exists w''.
Defined.

(** X12: if the [ids] of a second collection is another array object than
    that of the collection [selectEntities] was called on last, the
    projector runs, and the result is a newly allocated array, different
    from the one returned before. *)
Theorem X12_new_ids_new_array md w0 ms w1 w sel c1 c2 x1 y1 x2 y2 v1 w' v2 w'' :
  createCollectionSelectors md w0 = (Ok ms, w1) ->
  declared_for "selectEntities" (extra_keys md) = None ->
  assoc "selectEntities" ms = Some sel ->
  member_inv (next_cell w0) md w ->
  sel c1 w = (Ok v1, w') ->
  get_prop (heap w') c1 "ids" = Ok x1 -> get_prop (heap w') c1 "entities" = Ok y1 ->
  get_prop (heap w') c2 "ids" = Ok x2 -> get_prop (heap w') c2 "entities" = Ok y2 ->
  x1 <> x2 ->
  sel c2 w' = (Ok v2, w'') ->
  v2 = VRef (length (heap w')) /\ v2 <> v1 /\
  calls w'' = EvProject (next_cell w0) [x2; y2] :: calls w'.
Proof.
  intros Hb Hd Hsel Hw Hrun1 Hx1 Hy1 Hx2 Hy2 Hne Hrun2. set (e0 := next_cell w0) in *.
  rewrite (member_lookup_builtin md w0 ms w1 "selectEntities"
             (sel_entities e0, rel_selectEntities) Hb eq_refl Hd) in Hsel.
  injection Hsel as <-.
  destruct (sel_entities_cells e0 md c1 w v1 w' x1 y1 Hw Hrun1 Hx1 Hy1)
    as (Hw' & _ & Hcs & Hcp & r1 & -> & Hr1).
  assert (c2 <> c1) as Hc by (intros ->; congruence).
  unfold sel_entities in Hrun2.
  rewrite (memo_miss_projector _ _ _ _ c2 w' [x2; y2] w') in Hrun2.
  - rewrite project_entities_run in Hrun2. simpl in Hrun2.
    destruct (array_elems (heap w') x2) as [keys|]; [|done].
    destruct (map_result _ keys) as [vals|]; [|done].
    injection Hrun2 as <- <-. simpl.
    split; [done|]. split; [intros [= H]; lia|done].
  - intros la lr Hl. rewrite Hcs in Hl. injection Hl as <- <-.
    by apply args_changed_state.
  - by apply mapM_fields2.
  - intros la lr Hl. rewrite Hcp in Hl. injection Hl as <- <-.
    by apply args_changed_head.
Qed.

Lemma X12_witness :
  VRef 18 <> VRef 17 /\
  calls (sel_entities 0 (VRef 6)
           (sel_entities 0 (VRef 3) (members_at edge_heap plain_md)).2).2 =
  EvProject 0 [VRef 5; VRef 1] ::
    calls (sel_entities 0 (VRef 3) (members_at edge_heap plain_md)).2.
Proof.
  destruct (X12_new_ids_new_array plain_md (fresh edge_heap)
              (map_vals fst (member_builtin 0 plain_md)) (members_at edge_heap plain_md)
              (members_at edge_heap plain_md) (sel_entities 0) (VRef 3) (VRef 6)
              (VRef 0) (VRef 1) (VRef 5) (VRef 1) (VRef 17)
              (sel_entities 0 (VRef 3) (members_at edge_heap plain_md)).2
              (VRef 18)
              (sel_entities 0 (VRef 6)
                 (sel_entities 0 (VRef 3) (members_at edge_heap plain_md)).2).2)
    as (_ & Hne & Hc).
  - apply fresh_members, plain_specs.
  - reflexivity.
  - reflexivity.
  - apply fresh_member_inv.
  - exact edge_entities_run.
  - vm_compute. reflexivity.
  - vm_compute. reflexivity.
  - vm_compute. reflexivity.
  - vm_compute. reflexivity.
  - discriminate.
  - exact edge_entities_run2.
  - split; [exact Hne|exact Hc].
Defined.

(** ** The cells a computation can write *)

Lemma writes_mono {A} (F G : nat -> Prop) (m : M A) :
  (forall c, F c -> G c) -> writes F m -> writes G m.
Proof. intros HFG Hm w r w' Hrun c Hc. apply (Hm w r w' Hrun). auto. Qed.

Lemma writes_none {A} F (m : M A) :
  (forall w, cells (m w).2 = cells w) -> writes F m.
Proof.
  intros H w r w' Hrun c _. specialize (H w). rewrite Hrun in H. simpl in H.
  by rewrite H.
Qed.

Lemma writes_bind {A B} F (m : M A) (k : A -> M B) :
  writes F m -> (forall a, writes F (k a)) -> writes F (bind m k).
Proof.
  intros Hm Hk w r w' Hrun c Hc.
  apply bind_run in Hrun as [(a & w1 & H1 & H2)|(e & H1 & _)].
  - rewrite (Hk a w1 r w' H2 c Hc). by apply (Hm w _ w1 H1).
  - by apply (Hm w _ w' H1).
Qed.

Lemma writes_mapM F (inputs : list selector) s :
  Forall (fun inp : selector => writes F (inp s)) inputs ->
  writes F (mapM (fun fn : selector => fn s) inputs).
Proof.
  induction 1 as [|inp inputs Hinp _ IH]; simpl.
  - by apply writes_none.
  - apply writes_bind; [done|]. intros y. apply writes_bind; [done|].
    intros ys. by apply writes_none.
Qed.

Lemma writes_memoize F c t args :
  F c -> writes F (t args) -> writes F (memoize c t args).
Proof.
  intros HF Ht w r w' Hrun c' Hc'. rewrite memoize_unfold in Hrun.
  assert (recompute c t args w = (r, w') -> cells w' !! c' = cells w !! c') as Hrec.
  { unfold recompute. destruct (t args w) as [[v|e] w1] eqn:E; intros [= <- <-].
    - simpl. rewrite lookup_insert_ne by (intros ->; done).
      by apply (Ht w _ w1 E).
    - by apply (Ht w _ w1 E). }
  destruct (cells w !! c) as [[la lr]|]; [|by apply Hrec].
  destruct (args_changed args la); [by apply Hrec|]. by injection Hrun as <- <-.
Qed.

Lemma writes_memoized_selector F cs cp inputs proj s :
  F cs -> F cp ->
  Forall (fun inp : selector => forall s, writes F (inp s)) inputs ->
  (forall args, writes F (proj args)) ->
  writes F (memoized_selector cs cp inputs proj s).
Proof.
  intros Hcs Hcp Hin Hproj. unfold memoized_selector.
  apply writes_memoize; [done|]. simpl.
  apply writes_bind.
  - apply writes_mapM. eapply Forall_impl; [exact Hin|]. intros inp H. apply H.
  - intros args. apply writes_memoize; [done|].
    apply writes_bind; [by apply writes_none|]. intros _. apply Hproj.
Qed.

Lemma writes_field F k c : writes F (field k c).
Proof. by apply writes_none. Qed.

Lemma writes_getCollection F this name cache : writes F (getCollection this name cache).
Proof.
  apply writes_none. intros w. rewrite getCollection_run.
  destruct cache; simpl;
    repeat match goal with
           | |- context [match ?x with _ => _ end] => destruct x; simpl
           end; done.
Qed.

Lemma writes_accessor f0 a0 cacheName creator name s :
  writes (fp_accessor f0 a0)
    (sel_collection (mk_factory f0 cacheName creator) a0 name s).
Proof.
  apply writes_memoized_selector.
  - right. lia.
  - right. lia.
  - each_input. intros s'. apply writes_memoized_selector.
    + left. lia.
    + left. lia.
    + each_input. intros ?. apply writes_field.
    + intros args. by apply writes_none.
  - intros args. apply writes_getCollection.
Qed.

Lemma writes_project_entities F a : writes F (project_entities a).
Proof.
  apply writes_none. intros w. rewrite project_entities_run.
  destruct (array_elems _ _); [|done]. by destruct (map_result _ _).
Qed.

Lemma writes_sel_entities e0 md c : writes (fp_member e0 md) (sel_entities e0 c).
Proof.
  pose proof (member_size_ge md).
  apply writes_memoized_selector; unfold fp_member; [lia|lia| |].
  - each_input; intros ?; apply writes_field.
  - intros a. apply writes_project_entities.
Qed.

Lemma writes_members e0 md specs :
  member_specs e0 md = Ok specs ->
  Forall (fun kv : string * spec_sel =>
            forall c, writes (fp_member e0 md) (fst (snd kv) c)) specs.
Proof.
  intros Hs. unfold member_specs in Hs.
  destruct (extra_specs (extra_keys md) []) as [ex|] eqn:He; [|done].
  injection Hs as <-. pose proof (member_size_ge md) as Hsz.
  apply (Forall_spread (fun ss : spec_sel =>
           forall c, writes (fp_member e0 md) (fst ss c))).
  - unfold member_builtin. each_input; simpl; try (intros c; apply writes_field);
      try (intros c; apply writes_sel_entities).
    + intros c. apply writes_memoized_selector; unfold fp_member; [lia|lia| |].
      * each_input. intros ?. apply writes_field.
      * intros a. by apply writes_none.
    + destruct (filterFn md) as [f|] eqn:Hf; simpl; [|apply writes_sel_entities].
      intros c. apply writes_memoized_selector; unfold fp_member, member_size;
        rewrite ?Hf; [lia|lia| |].
      * each_input; intros ?; [|apply writes_field].
        eapply writes_mono; [|apply (writes_sel_entities e0 md)].
        unfold fp_member, member_size. by rewrite Hf.
      * intros a. apply writes_none. intros w. unfold project_filtered, call_heap.
        by destruct (filter_run _ _ _ _).
  - eapply (Forall_extra_specs (fun ss : spec_sel =>
           forall c, writes (fp_member e0 md) (fst ss c))); [|apply Forall_nil_2|exact He].
    intros k c. apply writes_field.
Qed.

Lemma writes_root f0 a0 cacheName creator md specs i k ss s :
  member_specs (2 + a0) md = Ok specs -> specs !! i = Some (k, ss) ->
  writes (fp_root f0 a0 md i)
    (root_sel (mk_factory f0 cacheName creator) a0 md i (fst ss) s).
Proof.
  intros Hs Hi. apply writes_memoized_selector.
  - unfold fp_root. right. right. by right.
  - unfold fp_root. right. right. by left.
  - each_input. intros s'. eapply writes_mono; [|apply writes_accessor].
    intros c Hc. by left.
  - intros args. simpl.
    pose proof (writes_members _ _ _ Hs) as HA. rewrite Forall_forall in HA.
    eapply writes_mono; [|apply (HA (k, ss)); by eapply list_elem_of_lookup_2].
    intros c Hc. right. by left.
Qed.

(** After a call that returned, the cell of the state holds the result. *)
Lemma memoize_cell c t args w v w1 :
  memoize c t args w = (Ok v, w1) ->
  exists la, cells w1 !! c = Some (la, v) /\ args_changed args la = false.
Proof.
  rewrite memoize_unfold. intros H.
  assert (recompute c t args w = (Ok v, w1) ->
          exists la, cells w1 !! c = Some (la, v) /\ args_changed args la = false)
    as Hrec.
  { unfold recompute. destruct (t args w) as [[r|e] w2]; intros [= <- <-].
    exists args. split; [apply lookup_insert_eq|apply args_changed_same]. }
  destruct (cells w !! c) as [[la lr]|] eqn:Ec; [|by apply Hrec].
  destruct (args_changed args la) eqn:Ech; [by apply Hrec|].
  injection H as <- <-. eauto.
Qed.

Lemma memoized_selector_kept cs cp inputs proj s w v w1 w2 :
  memoized_selector cs cp inputs proj s w = (Ok v, w1) ->
  cells w2 !! cs = cells w1 !! cs ->
  memoized_selector cs cp inputs proj s w2 = (Ok v, w2).
Proof.
  intros Hrun Hc. apply memoize_cell in Hrun as (la & Hla & Hch).
  unfold memoized_selector. rewrite memoize_unfold, Hc, Hla. by rewrite Hch.
Qed.

Lemma writes_feature f0 cacheName creator s :
  writes (fun c => f0 <= c < 2 + f0)
    (selectEntityCache (mk_factory f0 cacheName creator) s).
Proof.
  apply writes_memoized_selector; [lia|lia| |].
  - each_input. intros ?. apply writes_field.
  - intros args. by apply writes_none.
Qed.

(** X13: two root derivation sets built by the same factory, one after the
    other, do not share memoized results: after a derivation of the first
    returned [v] on a state, a call of any derivation of the second leaves
    that in place; the first returns [v] again and changes nothing. *)
Theorem X13_builds_keep_their_memo cacheName creator w0 this w1 mdA wa rsA wb
    mdB wb' rsB wc kA rootA kB rootB s w v wA s' r w2 :
  constructor cacheName creator w0 = (Ok this, w1) ->
  2 + next_cell w0 <= next_cell wa ->
  create this mdA wa = (Ok rsA, wb) ->
  next_cell wb <= next_cell wb' ->
  create this mdB wb' = (Ok rsB, wc) ->
  assoc kA rsA = Some (ESel rootA) ->
  assoc kB rsB = Some (ESel rootB) ->
  rootA s w = (Ok v, wA) ->
  rootB s' wA = (r, w2) ->
  rootA s w2 = (Ok v, w2).
Proof.
  intros Hthis Hlt HA Hle HB HkA HkB HrunA HrunB.
  destruct (create_ok _ _ _ _ _ _ _ _ _ Hthis HA) as (-> & specsA & HsA & -> & HbA).
  destruct (create_ok _ _ _ _ _ _ _ _ _ Hthis HB) as (_ & specsB & HsB & -> & _).
  set (f0 := next_cell w0) in *. set (aA := next_cell wa) in *.
  set (aB := next_cell wb') in *.
  pose proof (bu_next _ _ _ HbA) as Hn. fold aA in Hn.
  pose proof (member_size_ge mdA) as HszA.
  assert (forall c, f0 + 2 <= c < aB ->
            cells w2 !! c = cells wA !! c) as Hkeep.
  { intros c Hc.
    destruct (root_set_entries _ _ _ _ HsB kB _ HkB)
      as [?|[[= ->]|(j & ss & Hj & [= ->])]]; [done| |].
    - apply (writes_accessor f0 aB cacheName creator (entityName mdB) s' wA r w2 HrunB).
      unfold fp_accessor. lia.
    - apply (writes_root f0 aB cacheName creator mdB specsB j kB ss s' HsB Hj
               wA r w2 HrunB).
      unfold fp_root, fp_accessor, fp_member, root_base. lia. }
  destruct (root_set_entries _ _ _ _ HsA kA _ HkA)
    as [?|[[= ->]|(i & ss & Hi & [= ->])]]; [done| |].
  - eapply memoized_selector_kept; [exact HrunA|]. apply Hkeep. lia.
  - eapply memoized_selector_kept; [exact HrunA|]. apply Hkeep.
    apply lookup_lt_Some in Hi. unfold root_base. lia.
Qed.

(** The heroes' [selectEntities], then the villains' [selectLoaded], then the
    heroes' [selectEntities] again, all on the second state. *)
Lemma X13_witness :
  let heroes := root_sel hero_factory 2 plain_md 1 (sel_entities 4) in
  let villains :=
    root_sel hero_factory (next_cell (root_world plain_md)) villain_md 6
      (field "loaded") in
  let w2 := (villains (VRef 10) (heroes (VRef 10) two_types_world).2).2 in
  heroes (VRef 10) w2 = (Ok (VRef 11), w2).
Proof.
  intros heroes villains w2.
  apply (X13_builds_keep_their_memo "entityCache" empty_creator
           hero_world hero_factory factory_world plain_md factory_world
           (root_set hero_factory 2 plain_md (member_builtin 4 plain_md))
           (root_world plain_md) villain_md (root_world plain_md)
           (root_set hero_factory (next_cell (root_world plain_md)) villain_md
              (member_builtin (2 + next_cell (root_world plain_md)) villain_md))
           two_types_world "selectEntities" heroes "selectLoaded" villains
           (VRef 10) two_types_world (VRef 11) (heroes (VRef 10) two_types_world).2
           (VRef 10) (villains (VRef 10) (heroes (VRef 10) two_types_world).2).1).
  - apply hero_constructor.
  - vm_compute. lia.
  - apply hero_create, plain_specs.
  - apply le_n.
  - apply villain_create.
  - apply (root_set_member hero_factory 2 plain_md _ (plain_specs 4)
             1 "selectEntities" (sel_entities 4, rel_selectEntities)).
    reflexivity.
  - apply (root_set_member hero_factory (next_cell (root_world plain_md)) villain_md _
             (villain_specs _) 6 "selectLoaded" (spec_field "loaded")).
    reflexivity.
  - exact two_types_run.
  - apply surjective_pairing.
Defined.

(** X14: a type that two states do not store, in caches that are two
    different objects: called on the second state after the first, the
    accessor calls the Collection Creator again; it returns what the
    Creator returns for the type name on the heap of that moment, and the
    heap after the call is the Creator's. *)
Theorem X14_absent_type_created_again cacheName creator name w0 this w1 wa sel w2
    w s1 s2 c1 c2 st v1 w' :
  constructor cacheName creator w0 = (Ok this, w1) ->
  2 + next_cell w0 <= next_cell wa ->
  createCollectionSelector this name wa = (Ok sel, w2) ->
  accessor_inv (next_cell w0) (next_cell wa) cacheName name w ->
  get_prop (heap w) s1 cacheName = Ok c1 ->
  get_prop (heap w) s2 cacheName = Ok c2 ->
  c1 <> c2 ->
  stored_in (heap w) c2 name = Ok st -> truthy st = false ->
  sel s1 w = (Ok v1, w') ->
  exists v2 w'' new h,
    sel s2 w' = (Ok v2, w'') /\
    heap w' `prefix_of` h /\
    creator_create creator name h = (v2, heap w'') /\
    calls w'' = EvCreate name v2 :: new ++ calls w'.
Proof.
  intros Hthis Hlt Hsel Hw Hc1 Hc2 Hne Hst Ht Hrun.
  destruct (constructor_run cacheName creator w0) as (w1' & E1 & _).
  rewrite E1 in Hthis. injection Hthis as <- <-.
  destruct (createCollectionSelector_run
              (mk_factory (next_cell w0) cacheName creator) name wa)
    as (w2' & E2 & _).
  rewrite E2 in Hsel. injection Hsel as <- <-.
  set (f0 := next_cell w0) in *. set (a0 := next_cell wa) in *.
  set (Spec := accessor_Spec f0 a0 cacheName name).
  pose proof (accessor_Spec_wf f0 a0 cacheName name Hlt) as Hwf.
  destruct (triple_accessor Spec Hwf f0 a0 cacheName creator name
              (fp_accessor f0 a0) (fun p H => H) (fun c H => H) s1 w _ _ Hw Hrun)
    as (Hev & Hw' & HQ).
  destruct (HQ _ eq_refl) as [_ Hcs].
  pose proof (ev_heap _ _ _ Hev) as Hp.
  assert (cells w' !! a0 = Some ([c1], v1)) as Hcp.
  { destruct (Hw' (ps_accessor a0 cacheName name)) as [_ Hlink]; [by right|].
    destruct (Hlink _ _ Hcs) as (s & args & [= <-] & Hcp & Hin).
    apply rel_inputs_1 in Hin as (c & -> & Hc). apply rel_cache_inv in Hc.
    by rewrite (get_prop_det _ _ _ _ _ _ Hp Hc1 Hc). }
  assert (s2 <> s1) as Hs by (intros ->; congruence).
  destruct (returns_feature Spec Hwf f0 a0 cacheName creator name
              (fp_accessor f0 a0) (fun p H => H) (fun c H => H)
              s2 (heap w) w' c2 Hw' Hc2 Hp) as (vc & w3 & Hf).
  destruct (triple_feature Spec Hwf f0 a0 cacheName creator name
              (fp_accessor f0 a0) (fun p H => H) (fun c H => H) s2 w' _ _ Hw' Hf)
    as (Hev3 & _ & HQ3).
  pose proof (HQ3 _ eq_refl) as Hrel. apply rel_cache_inv in Hrel.
  pose proof (ev_heap _ _ _ Hev3) as Hp3.
  assert (heap w `prefix_of` heap w3) as Hp03 by (by etrans).
  rewrite <- (get_prop_det _ _ _ _ _ _ Hp03 Hc2 Hrel) in Hf.
  assert (cells w3 !! a0 = Some ([c1], v1)) as Hcp3.
  { rewrite <- Hcp. apply (writes_feature f0 cacheName creator s2 w' _ w3 Hf). lia. }
  destruct (ev_calls _ _ _ Hev3) as (new & Hnew & _).
  pose proof (memo_miss_projector (1 + a0) a0
                [selectEntityCache (mk_factory f0 cacheName creator)]
                (fun a => getCollection (mk_factory f0 cacheName creator) name
                            (hd VUndefined a))
                s2 w' [c2] w3) as Hmiss.
  cbv beta in Hmiss. cbn [hd] in Hmiss. rewrite getCollection_run in Hmiss.
  change (heap (tick (EvProject a0 [c2]) w3).2) with (heap w3) in Hmiss.
  rewrite (stored_in_prefix _ _ _ _ _ Hp03 Hst), Ht in Hmiss.
  cbv zeta in Hmiss.
  destruct (feature_run f0 cacheName creator s2 w' _ _ Hf) as [Hh3 _].
  destruct (creator_create _ name _) as [c h] eqn:Ec.
  exists c. eexists. exists (EvProject a0 [c2] :: new).
  match type of Ec with creator_create _ _ ?h0 = _ => exists h0 end.
  split.
  { apply Hmiss.
    - intros la lr Hl. rewrite Hcs in Hl. injection Hl as <- <-.
      by apply args_changed_state.
    - cbn [mapM]. unfold bind. by rewrite Hf.
    - intros la lr Hl. rewrite Hcp3 in Hl. injection Hl as <- <-.
      by apply args_changed_head. }
  split.
  { rewrite <- Hh3. destruct c2; try done. by apply prefix_app_r. }
  split; [exact Ec|]. simpl. by rewrite Hnew.
Qed.

Lemma edge_accessor_run2 :
  sel_collection hero_factory 2 (VStr "Hero") (VRef 15)
    (sel_collection hero_factory 2 (VStr "Hero") (VRef 13)
       (accessor_at edge_heap (VStr "Hero"))).2 =
  (Ok (VRef 24),
   (sel_collection hero_factory 2 (VStr "Hero") (VRef 15)
      (sel_collection hero_factory 2 (VStr "Hero") (VRef 13)
         (accessor_at edge_heap (VStr "Hero"))).2).2).
Proof. vm_compute. reflexivity. Defined.

(** No heroes are stored in either state; the caches are two objects: the
    Creator makes a second empty collection, at the end of the heap. *)
Lemma X14_witness :
  exists w'' h,
    sel_collection hero_factory 2 (VStr "Hero") (VRef 15)
      (sel_collection hero_factory 2 (VStr "Hero") (VRef 13)
         (accessor_at edge_heap (VStr "Hero"))).2 = (Ok (VRef 24), w'') /\
    empty_create (VStr "Hero") h = (VRef 24, heap w'') /\
    EvCreate (VStr "Hero") (VRef 24) ∈ calls w''.
Proof.
  destruct (X14_absent_type_created_again "entityCache" empty_creator (VStr "Hero")
              (fresh edge_heap) hero_factory (factory_at edge_heap)
              (factory_at edge_heap) (sel_collection hero_factory 2 (VStr "Hero"))
              (accessor_at edge_heap (VStr "Hero"))
              (accessor_at edge_heap (VStr "Hero"))
              (VRef 13) (VRef 15) (VRef 12) (VRef 14) VUndefined (VRef 20)
              (sel_collection hero_factory 2 (VStr "Hero") (VRef 13)
                 (accessor_at edge_heap (VStr "Hero"))).2)
    as (v2 & w'' & new & h & Hrun & _ & Hcr & Hc).
  - apply fresh_constructor.
  - vm_compute. lia.
  - apply fresh_accessor.
  - apply fresh_accessor_inv.
  - reflexivity.
  - reflexivity.
  - discriminate.
  - reflexivity.
  - reflexivity.
  - exact edge_accessor_run.
  - rewrite edge_accessor_run2 in Hrun. injection Hrun as <- <-.
    eexists _, h. split; [exact edge_accessor_run2|]. split; [exact Hcr|].
    rewrite Hc. left.
Defined.

(** ** Root derivations of the field accessors *)

(** X15: on a state that stores a collection for the type, the root
    derivation of a field accessor, built-in or of a declared field,
    returns the value of that field of the stored collection. *)
Theorem X15_root_field_accessors cacheName creator md w0 this w1 wa rs w2
    w s st name k v :
  constructor cacheName creator w0 = (Ok this, w1) ->
  2 + next_cell w0 <= next_cell wa ->
  create this md wa = (Ok rs, w2) ->
  root_inv (next_cell w0) (next_cell wa) cacheName md w ->
  state_view (heap w) s cacheName (entityName md) = Some st ->
  truthy st = true ->
  get_prop (heap w) st k = Ok v ->
  declared_for name (extra_keys md) = Some k \/
  (declared_for name (extra_keys md) = None /\
   (name, k) ∈ [("selectKeys", "ids"); ("selectEntityMap", "entities");
                ("selectFilter", "filter"); ("selectLoaded", "loaded");
                ("selectLoading", "loading");
                ("selectOriginalValues", "originalValues")]) ->
  exists root w',
    assoc name rs = Some (ESel root) /\ root s w = (Ok v, w') /\
    root_inv (next_cell w0) (next_cell wa) cacheName md w'.
Proof.
  intros Hthis Hlt Hrs Hw Hst Ht Hv Hname.
  destruct (create_ok _ _ _ _ _ _ _ _ _ Hthis Hrs) as (-> & specs & Hs & -> & Hb).
  set (f0 := next_cell w0) in *. set (a0 := next_cell wa) in *.
  assert (assoc name specs = Some (spec_field k)) as Ha.
  { rewrite (member_specs_assoc _ _ _ name Hs).
    destruct Hname as [->|[-> Hin]]; [done|].
    rewrite !elem_of_cons in Hin.
    destruct Hin as [[= -> ->]|[[= -> ->]|[[= -> ->]|[[= -> ->]|[[= -> ->]|[[= -> ->]|Hin]]]]]];
      [done..|by apply elem_of_nil in Hin]. }
  apply assoc_Some_elem, list_elem_of_lookup in Ha as (n & Hn).
  destruct (root_stored f0 a0 cacheName creator md specs n _ _ s w st
              Hlt Hs Hn Hw Hst Ht) as (v' & w' & Hrun & Hw' & Hp & Hv').
  { intros w' Hev _. eapply returns_field; [exact Hv|apply Hev]. }
  simpl in Hv'. unfold rel_field in Hv'.
  rewrite (get_prop_prefix _ _ _ _ _ Hp Hv) in Hv'. injection Hv' as <-.
  eexists _, w'. split; [by apply (root_set_member _ _ _ _ Hs n _ _ Hn)|done].
Qed.

Lemma X15_witness :
  exists root w',
    assoc "selectLoaded" (root_set hero_factory 2 plain_md (member_builtin 4 plain_md))
      = Some (ESel root) /\
    root (VRef 7) (root_world plain_md) = (Ok (VBool true), w').
Proof.
  destruct (X15_root_field_accessors "entityCache" empty_creator plain_md
              hero_world hero_factory factory_world factory_world
              (root_set hero_factory 2 plain_md (member_builtin 4 plain_md))
              (root_world plain_md) (root_world plain_md) (VRef 7) (VRef 5)
              "selectLoaded" "loaded" (VBool true))
    as (root & w' & Ha & Hrun & _).
  - apply hero_constructor.
  - vm_compute. lia.
  - apply hero_create, plain_specs.
  - by eapply hero_root_inv, plain_specs.
  - vm_compute. reflexivity.
  - reflexivity.
  - vm_compute. reflexivity.
  - right. split; [reflexivity|]. do 3 right. left.
  - by exists root, w'.
Defined.

(** ** The accessor on two states with one cache *)

(** X16: two states with the same cache object: called on the second after
    the first, the accessor returns the same collection, allocates nothing
    and does not call the Collection Creator, whether the cache stores the
    type or not. *)
Theorem X16_accessor_reuses_cache cacheName creator name w0 this w1 wa sel w2
    w s1 s2 c v1 w' :
  constructor cacheName creator w0 = (Ok this, w1) ->
  2 + next_cell w0 <= next_cell wa ->
  createCollectionSelector this name wa = (Ok sel, w2) ->
  accessor_inv (next_cell w0) (next_cell wa) cacheName name w ->
  get_prop (heap w) s1 cacheName = Ok c ->
  get_prop (heap w) s2 cacheName = Ok c ->
  sel s1 w = (Ok v1, w') ->
  exists w'',
    sel s2 w' = (Ok v1, w'') /\ heap w'' = heap w' /\
    forall n v, EvCreate n v ∈ calls w'' -> EvCreate n v ∈ calls w'.
Proof.
  intros Hthis Hlt Hsel Hw Hc1 Hc2 Hrun.
  destruct (constructor_run cacheName creator w0) as (w1' & E1 & _).
  rewrite E1 in Hthis. injection Hthis as <- <-.
  destruct (createCollectionSelector_run
              (mk_factory (next_cell w0) cacheName creator) name wa)
    as (w2' & E2 & _).
  rewrite E2 in Hsel. injection Hsel as <- <-.
  set (f0 := next_cell w0) in *. set (a0 := next_cell wa) in *.
  set (Spec := accessor_Spec f0 a0 cacheName name).
  pose proof (accessor_Spec_wf f0 a0 cacheName name Hlt) as Hwf.
  destruct (triple_accessor Spec Hwf f0 a0 cacheName creator name
              (fp_accessor f0 a0) (fun p H => H) (fun c H => H) s1 w _ _ Hw Hrun)
    as (Hev & Hw' & HQ).
  destruct (HQ _ eq_refl) as [_ Hcs].
  pose proof (ev_heap _ _ _ Hev) as Hp.
  assert (cells w' !! a0 = Some ([c], v1)) as Hcp.
  { destruct (Hw' (ps_accessor a0 cacheName name)) as [_ Hlink]; [by right|].
    destruct (Hlink _ _ Hcs) as (s & args & [= <-] & Hcp & Hin).
    apply rel_inputs_1 in Hin as (c' & -> & Hc). apply rel_cache_inv in Hc.
    by rewrite (get_prop_det _ _ _ _ _ _ Hp Hc1 Hc). }
  destruct (decide (s2 = s1)) as [->|Hs].
  { exists w'. split; [by eapply memoized_selector_again|done]. }
  destruct (returns_feature Spec Hwf f0 a0 cacheName creator name
              (fp_accessor f0 a0) (fun p H => H) (fun c H => H)
              s2 (heap w) w' c Hw' Hc2 Hp) as (vc & w3 & Hf).
  destruct (triple_feature Spec Hwf f0 a0 cacheName creator name
              (fp_accessor f0 a0) (fun p H => H) (fun c H => H) s2 w' _ _ Hw' Hf)
    as (Hev3 & _ & HQ3).
  pose proof (HQ3 _ eq_refl) as Hrel. apply rel_cache_inv in Hrel.
  pose proof (ev_heap _ _ _ Hev3) as Hp3.
  assert (heap w `prefix_of` heap w3) as Hp03 by (by etrans).
  rewrite <- (get_prop_det _ _ _ _ _ _ Hp03 Hc2 Hrel) in Hf.
  assert (cells w3 !! a0 = Some ([c], v1)) as Hcp3.
  { rewrite <- Hcp. apply (writes_feature f0 cacheName creator s2 w' _ w3 Hf). lia. }
  destruct (feature_run f0 cacheName creator s2 w' _ _ Hf) as [Hh Hcalls].
  eexists. split.
  - apply (memo_hit_projector (1 + a0) a0 _ _ s2 w' [c] w3 v1).
    + intros la lr Hl. rewrite Hcs in Hl. injection Hl as <- <-.
      by apply args_changed_state.
    + cbn [mapM]. unfold bind. by rewrite Hf.
    + exact Hcp3.
  - done.
Qed.

(** The states 13 and 16 hold the same cache object, which stores no
    heroes: the collection made for the first is returned for the second. *)
Lemma X16_witness :
  exists w'',
    sel_collection hero_factory 2 (VStr "Hero") (VRef 16)
      (sel_collection hero_factory 2 (VStr "Hero") (VRef 13)
         (accessor_at edge_heap (VStr "Hero"))).2 = (Ok (VRef 20), w'').
Proof.
  destruct (X16_accessor_reuses_cache "entityCache" empty_creator (VStr "Hero")
              (fresh edge_heap) hero_factory (factory_at edge_heap)
              (factory_at edge_heap) (sel_collection hero_factory 2 (VStr "Hero"))
              (accessor_at edge_heap (VStr "Hero"))
              (accessor_at edge_heap (VStr "Hero"))
              (VRef 13) (VRef 16) (VRef 12) (VRef 20)
              (sel_collection hero_factory 2 (VStr "Hero") (VRef 13)
                 (accessor_at edge_heap (VStr "Hero"))).2)
    as (w'' & Hrun & _).
  - apply fresh_constructor.
  - vm_compute. lia.
  - apply fresh_accessor.
  - apply fresh_accessor_inv.
  - reflexivity.
  - reflexivity.
  - exact edge_accessor_run.
  - by exists w''.
Defined.
